(** * AI quiz generator: the content recovery and validation pipeline

    A shallow embedding of the pure core of [src/main.ts] and
    [src/questionTypes.ts]: the JSON recovery parser, the question-type
    registry and matcher, the question normalizer, the duplicate filter, the
    randomizer, the plan builder, the retry collector and the grading engine,
    together with the properties the specification states about them.

    JavaScript strings are sequences of UTF-16 code units ([jsstr]); numbers
    are IEEE-754 doubles (Rocq's primitive [float]) wherever the program does
    arithmetic on them, and exact rationals where it only stores and compares
    them. *)

From Stdlib Require Import ZArith NArith QArith Qround Qabs Ascii String List.
From Stdlib Require Import DecimalString Floats Lia.
From stdpp Require Import gmap list.

Local Open Scope Z_scope.

#[local] Set Warnings "-inexact-float".

(** ** JavaScript strings *)

Module JsString.

(** A string is the list of its UTF-16 code units. *)
Abbreviation jsstr := (list N).

(** The code units of an ASCII literal. *)
Definition js (s : string) : jsstr := map N_of_ascii (list_ascii_of_string s).

Definition ch (a : ascii) : N := N_of_ascii a.

Definition dquote : N := 34.
Definition squote : N := 39.
Definition backslash : N := 92.
Definition backtick : N := 96.
Definition newline : N := 10.
Definition comma : N := 44.
Definition space : N := 32.
Definition lbrace : N := 123.
Definition rbrace : N := 125.
Definition lbracket : N := 91.
Definition rbracket : N := 93.
(** U+201C, U+201D, U+2018 and U+2019: the typographic quotes. *)
Definition ldquo : N := 8220.
Definition rdquo : N := 8221.
Definition lsquo : N := 8216.
Definition rsquo : N := 8217.

(** An ASCII literal in which the apostrophe stands for the double quote, to
    write JSON text: [jsq "{'q':'x'}"] is the text [{"q":"x"}]. *)
Definition jsq (s : string) : jsstr :=
  map (fun c => if N.eqb c squote then dquote else c) (js s).

(** The characters [\s] matches and [trim] removes: WhiteSpace and
    LineTerminator of ECMA-262. *)
Definition is_space (c : N) : bool :=
  ((9 <=? c) && (c <=? 13) || (c =? 32) || (c =? 160) || (c =? 5760)
   || (8192 <=? c) && (c <=? 8202) || (c =? 8232) || (c =? 8233)
   || (c =? 8239) || (c =? 8287) || (c =? 12288) || (c =? 65279))%N.

Fixpoint trimStart (s : jsstr) : jsstr :=
  match s with
  | c :: r => if is_space c then trimStart r else s
  | [] => []
  end.

Definition trimEnd (s : jsstr) : jsstr := rev (trimStart (rev s)).

Definition trim (s : jsstr) : jsstr := trimEnd (trimStart s).

(** [s.indexOf(c)] for a one-character needle: the first index, or -1. *)
Fixpoint indexOf_from (c : N) (s : jsstr) (i : Z) : Z :=
  match s with
  | [] => -1
  | d :: r => if N.eqb d c then i else indexOf_from c r (i + 1)
  end.

Definition indexOf (c : N) (s : jsstr) : Z := indexOf_from c s 0.

(** [s.slice(a, b)] and [s.slice(a)] for indexes between 0 and the length. *)
Definition slice (s : jsstr) (a b : nat) : jsstr := take (b - a) (drop a s).
Definition slice_from (s : jsstr) (a : nat) : jsstr := drop a s.

(** [s.replace(re, rep)] for a global regular expression, given as the
    function [m] that tells, for the text at the current position, whether the
    expression matches there, and if so the replacement text and the number of
    code units the match spans (at least one for every expression used here).
    Matches are found left to right and do not overlap: [skip] counts the
    code units of the current match still to pass over. *)
Definition matcher := jsstr -> option (jsstr * nat).

Fixpoint replace_from (m : matcher) (skip : nat) (s : jsstr) : jsstr :=
  match s with
  | [] => []
  | c :: r =>
      match skip with
      | S k => replace_from m k r
      | O =>
          match m s with
          | Some (rep, n) => rep ++ replace_from m (Nat.pred n) r
          | None => c :: replace_from m 0 r
          end
      end
  end.

Definition replace_all (m : matcher) (s : jsstr) : jsstr := replace_from m 0 s.

(** The longest prefix of whitespace and what follows it. *)
Fixpoint span_space (s : jsstr) : jsstr * jsstr :=
  match s with
  | c :: r => if is_space c then let '(w, t) := span_space r in (c :: w, t)
              else ([], s)
  | [] => ([], [])
  end.

Fixpoint starts_with (p s : jsstr) : bool :=
  match p, s with
  | [], _ => true
  | a :: p', b :: s' => N.eqb a b && starts_with p' s'
  | _ :: _, [] => false
  end.

End JsString.
Export JsString.

(** ** The JSON recovery parser: text repairs and bracket scans *)

Module Repair.

Definition is_opener (c : N) : bool := N.eqb c lbrace || N.eqb c lbracket.
Definition is_closer (c : N) : bool := N.eqb c rbrace || N.eqb c rbracket.

(** ASCII case folding, as the [i] flag compares the letters of [json]. *)
Definition fold_case (c : N) : N :=
  if ((65 <=? c) && (c <=? 90))%N then (c + 32)%N else c.

(** [/```(?:json)?/gi]: a fence, with the word [json] after it when present. *)
Definition fence_json : matcher := fun s =>
  if starts_with (js "```") s then
    if starts_with (js "json") (map fold_case (drop 3 s))
    then Some ([], 7%nat) else Some ([], 3%nat)
  else None.

(** [/```/g]. *)
Definition fence : matcher := fun s =>
  if starts_with (js "```") s then Some ([], 3%nat) else None.

(** The character classes of U+201C, U+201D and of U+2018, U+2019, replaced
    by the straight double quote and the straight apostrophe: one code unit
    for one. *)
Definition straighten_double (c : N) : N :=
  if N.eqb c ldquo || N.eqb c rdquo then dquote else c.
Definition straighten_single (c : N) : N :=
  if N.eqb c lsquo || N.eqb c rsquo then squote else c.

(** [/}\s*\n\s*\{/g] and [/\]\s*\n\s*\[/g]: a closer, a run of whitespace
    with a line feed in it, and the opener of the same kind; replaced by
    closer, comma, opener. *)
Definition missing_comma (close open : N) : matcher := fun s =>
  match s with
  | c :: r =>
      if N.eqb c close then
        let '(w, t) := span_space r in
        match t with
        | d :: _ =>
            if N.eqb d open && existsb (N.eqb newline) w
            then Some ([close; comma; open], S (S (length w)))
            else None
        | [] => None
        end
      else None
  | [] => None
  end.

(** [/,\s*([}\]])/g] to [$1]: a comma, whitespace and a closer; the closer
    alone is kept. *)
Definition trailing_comma : matcher := fun s =>
  match s with
  | c :: r =>
      if N.eqb c comma then
        let '(w, t) := span_space r in
        match t with
        | d :: _ => if is_closer d then Some ([d], S (S (length w))) else None
        | [] => None
        end
      else None
  | [] => None
  end.

Definition repairJsonCommon (s : jsstr) : jsstr :=
  trim
    (replace_all trailing_comma
       (replace_all (missing_comma rbracket lbracket)
          (replace_all (missing_comma rbrace lbrace)
             (map straighten_single
                (map straighten_double
                   (replace_all fence (replace_all fence_json s))))))).

(** The scanner state both bracket scans keep: inside a string literal, after
    a backslash in one, and the nesting depth. *)
Record scan := Scan { inStr : bool; esc : bool; depth : Z }.

Definition scan0 : scan := Scan false false 0.

(** One turn of the loop body shared by [findLastBalancedJsonEnd] and
    [looksTruncatedJson]. *)
Definition scan_char (st : scan) (c : N) : scan :=
  if inStr st then
    if esc st then Scan true false (depth st)
    else if N.eqb c backslash then Scan true true (depth st)
    else if N.eqb c dquote then Scan false (esc st) (depth st)
    else st
  else if N.eqb c dquote then Scan true (esc st) (depth st)
  else if is_opener c then Scan false (esc st) (depth st + 1)
  else if is_closer c then Scan false (esc st) (depth st - 1)
  else st.

(** The closer branch of the loop body is taken. *)
Definition at_closer (st : scan) (c : N) : bool :=
  negb (inStr st) && negb (N.eqb c dquote) && negb (is_opener c) && is_closer c.

Fixpoint balanced_scan (st : scan) (lastEnd : option nat) (i : nat) (cs : jsstr)
  : option nat :=
  match cs with
  | [] => lastEnd
  | c :: r =>
      let st' := scan_char st c in
      let lastEnd' :=
        if at_closer st c && (depth st' =? 0) then Some i else lastEnd in
      balanced_scan st' lastEnd' (S i) r
  end.

Definition findLastBalancedJsonEnd (s : jsstr) (start : nat) : option nat :=
  balanced_scan scan0 None start (drop start s).

(** [/[}\]]\s*$/.test(t)]: some closer is followed by whitespace only. *)
Fixpoint closer_at_end (t : jsstr) : bool :=
  match t with
  | [] => false
  | c :: r => is_closer c && forallb is_space r || closer_at_end r
  end.

Definition looksTruncatedJson (s : jsstr) : bool :=
  let t := trim s in
  match t with
  | [] => true
  | _ =>
      if negb (closer_at_end t) then true
      else negb (depth (fold_left scan_char t scan0) =? 0)
  end.

End Repair.
Export Repair.

(** ** JavaScript numbers *)

Module JsNumber.

(** The double nearest to an integer (ties to even; infinite past the
    largest double). Exact below 2^53. *)
Definition number_of_Z (z : Z) : float :=
  SF2Prim (binary_normalize prec emax z 0 false).

Definition number_of_nat (n : nat) : float := number_of_Z (Z.of_nat n).

(** The double nearest to the ratio of two positive integers. *)
Definition number_of_ratio (neg : bool) (p q : positive) : float :=
  let '(mz, ez, lz) := SFdiv_core_binary prec emax (Zpos p) 0 (Zpos q) 0 in
  SF2Prim (binary_round_aux prec emax neg mz ez lz).

(** The double a decimal numeral denotes: digits [d] scaled by [10^e]. *)
Definition number_of_decimal (neg : bool) (d : Z) (e : Z) : float :=
  match d with
  | Zpos p =>
      if 0 <=? e then number_of_ratio neg (p * Z.to_pos (10 ^ e)) 1
      else number_of_ratio neg p (Z.to_pos (10 ^ (- e)))
  | _ => if neg then neg_zero else zero
  end.

(** [Number.isFinite] on a number. *)
Definition isFinite (x : float) : bool :=
  match Prim2SF x with
  | S754_zero _ | S754_finite _ _ _ => true
  | _ => false
  end.

(** The exact value of a finite double (0 for the others, which callers
    rule out first). *)
Definition Q_of_number (x : float) : Q :=
  match Prim2SF x with
  | S754_finite s m e =>
      let n := if s then Zneg m else Zpos m in
      if 0 <=? e then inject_Z (n * 2 ^ e) else Qmake n (Z.to_pos (2 ^ (- e)))
  | _ => 0%Q
  end.

(** [Math.round]: the nearest integer, a tie going up; the argument itself
    when it is an integer already or is not finite. *)
Definition Math_round (x : float) : float :=
  match Prim2SF x with
  | S754_finite s m e =>
      if 0 <=? e then x
      else
        let den := 2 ^ (- e) in
        let num := if s then Zneg m else Zpos m in
        let r := (2 * num + den) / (2 * den) in
        if r =? 0 then (if s then neg_zero else zero) else number_of_Z r
  | _ => x
  end.

End JsNumber.
Export JsNumber.

(** ** JSON values and [JSON.parse] *)

Module Json.

#[local] Set Warnings "-register-all".

Inductive jsval :=
| JNull
| JBool (b : bool)
| JNum (x : float)
| JStr (s : jsstr)
| JArr (items : list jsval)
| JObj (fields : list (jsstr * jsval)).

(** [o[k] = v] on the property list of an object under construction. *)
Fixpoint obj_set (fs : list (jsstr * jsval)) (k : jsstr) (v : jsval)
  : list (jsstr * jsval) :=
  match fs with
  | [] => [(k, v)]
  | (k', v') :: r =>
      if bool_decide (k' = k) then (k, v) :: r else (k', v') :: obj_set r k v
  end.

Fixpoint obj_get (fs : list (jsstr * jsval)) (k : jsstr) : option jsval :=
  match fs with
  | [] => None
  | (k', v) :: r => if bool_decide (k' = k) then Some v else obj_get r k
  end.

(** [v.k] (or [v?.k]) for a property name no array, string or prototype
    carries: [None] is [undefined]. *)
Definition prop (v : jsval) (k : string) : option jsval :=
  match v with
  | JObj fs => obj_get fs (js k)
  | _ => None
  end.

(** JSON white space: tab, line feed, carriage return, space. *)
Definition is_json_ws (c : N) : bool :=
  ((c =? 9) || (c =? 10) || (c =? 13) || (c =? 32))%N.

Fixpoint skip_ws (s : jsstr) : jsstr :=
  match s with
  | c :: r => if is_json_ws c then skip_ws r else s
  | [] => []
  end.

Definition is_digit (c : N) : bool := ((48 <=? c) && (c <=? 57))%N.

Definition hex_value (c : N) : option N :=
  if is_digit c then Some (c - 48)%N
  else if ((97 <=? c) && (c <=? 102))%N then Some (c - 87)%N
  else if ((65 <=? c) && (c <=? 70))%N then Some (c - 55)%N
  else None.

(** The characters of a string literal after its opening quote, up to the
    closing one: [acc] holds those read so far, last first. *)
Fixpoint parse_chars (s : jsstr) (acc : jsstr) : option (jsstr * jsstr) :=
  match s with
  | [] => None
  | c :: r =>
      if N.eqb c dquote then Some (rev acc, r)
      else if N.eqb c backslash then
        match r with
        | e :: r' =>
            if N.eqb e dquote then parse_chars r' (dquote :: acc)
            else if N.eqb e backslash then parse_chars r' (backslash :: acc)
            else if N.eqb e (ch "/") then parse_chars r' (ch "/" :: acc)
            else if N.eqb e (ch "b") then parse_chars r' (8%N :: acc)
            else if N.eqb e (ch "f") then parse_chars r' (12%N :: acc)
            else if N.eqb e (ch "n") then parse_chars r' (10%N :: acc)
            else if N.eqb e (ch "r") then parse_chars r' (13%N :: acc)
            else if N.eqb e (ch "t") then parse_chars r' (9%N :: acc)
            else if N.eqb e (ch "u") then
              match r' with
              | h1 :: h2 :: h3 :: h4 :: r'' =>
                  match hex_value h1, hex_value h2, hex_value h3, hex_value h4 with
                  | Some a, Some b, Some c', Some d =>
                      parse_chars r'' ((((a * 16 + b) * 16 + c') * 16 + d)%N :: acc)
                  | _, _, _, _ => None
                  end
              | _ => None
              end
            else None
        | [] => None
        end
      else if (c <? 32)%N then None
      else parse_chars r (c :: acc)
  end.

(** A run of decimal digits: its value continuing [v], how many there were,
    and the rest of the text. *)
Fixpoint span_digits (s : jsstr) (v : Z) (n : nat) : Z * nat * jsstr :=
  match s with
  | c :: r =>
      if is_digit c then span_digits r (10 * v + Z.of_N (c - 48)) (S n)
      else (v, n, s)
  | [] => (v, n, [])
  end.

(** A number literal: sign, integer part without a leading zero, fraction,
    exponent. *)
Definition parse_number (s : jsstr) : option (float * jsstr) :=
  let '(neg, s1) :=
    match s with
    | c :: r => if N.eqb c (ch "-") then (true, r) else (false, s)
    | [] => (false, s)
    end in
  match s1 with
  | c :: r =>
      if is_digit c then
        let '(ip, s2) :=
          if N.eqb c (ch "0") then (0, r)
          else let '(v, _, t) := span_digits s1 0 0 in (v, t) in
        let frac :=
          match s2 with
          | p :: t =>
              if N.eqb p (ch ".") then
                let '(v, n, u) := span_digits t ip 0 in
                match n with O => None | _ => Some (v, Z.of_nat n, u) end
              else Some (ip, 0, s2)
          | [] => Some (ip, 0, s2)
          end in
        match frac with
        | None => None
        | Some (d, fd, s3) =>
            let ex :=
              match s3 with
              | p :: t =>
                  if N.eqb p (ch "e") || N.eqb p (ch "E") then
                    let '(eneg, t1) :=
                      match t with
                      | g :: t' =>
                          if N.eqb g (ch "-") then (true, t')
                          else if N.eqb g (ch "+") then (false, t')
                          else (false, t)
                      | [] => (false, t)
                      end in
                    let '(v, n, u) := span_digits t1 0 0 in
                    match n with
                    | O => None
                    | _ => Some ((if eneg then - v else v), u)
                    end
                  else Some (0, s3)
              | [] => Some (0, s3)
              end in
            match ex with
            | None => None
            | Some (e, s4) => Some (number_of_decimal neg d (e - fd), s4)
            end
        end
      else None
  | [] => None
  end.

(** The members of an object after its opening brace, and the elements of an
    array after its opening bracket, given the parser [pv] of one value. *)
Fixpoint parse_members (fuel : nat) (pv : jsstr -> option (jsval * jsstr))
  (s : jsstr) (acc : list (jsstr * jsval)) : option (jsval * jsstr) :=
  match fuel with
  | O => None
  | S fuel' =>
      match skip_ws s with
      | q :: r =>
          if N.eqb q dquote then
            match parse_chars r [] with
            | Some (k, r1) =>
                match skip_ws r1 with
                | c :: r2 =>
                    if N.eqb c (ch ":") then
                      match pv r2 with
                      | Some (v, r3) =>
                          match skip_ws r3 with
                          | d :: r4 =>
                              if N.eqb d comma
                              then parse_members fuel' pv r4 (obj_set acc k v)
                              else if N.eqb d rbrace
                              then Some (JObj (obj_set acc k v), r4)
                              else None
                          | [] => None
                          end
                      | None => None
                      end
                    else None
                | [] => None
                end
            | None => None
            end
          else None
      | [] => None
      end
  end.

Fixpoint parse_elements (fuel : nat) (pv : jsstr -> option (jsval * jsstr))
  (s : jsstr) (acc : list jsval) : option (jsval * jsstr) :=
  match fuel with
  | O => None
  | S fuel' =>
      match pv s with
      | Some (v, r) =>
          match skip_ws r with
          | d :: r' =>
              if N.eqb d comma then parse_elements fuel' pv r' (v :: acc)
              else if N.eqb d rbracket then Some (JArr (rev (v :: acc)), r')
              else None
          | [] => None
          end
      | None => None
      end
  end.

Fixpoint parse_value (fuel : nat) (s : jsstr) : option (jsval * jsstr) :=
  match fuel with
  | O => None
  | S fuel' =>
      match skip_ws s with
      | c :: r =>
          if N.eqb c lbrace then
            match skip_ws r with
            | d :: r' =>
                if N.eqb d rbrace then Some (JObj [], r')
                else parse_members fuel' (parse_value fuel') r []
            | [] => None
            end
          else if N.eqb c lbracket then
            match skip_ws r with
            | d :: r' =>
                if N.eqb d rbracket then Some (JArr [], r')
                else parse_elements fuel' (parse_value fuel') r []
            | [] => None
            end
          else if N.eqb c dquote then
            match parse_chars r [] with
            | Some (str, r') => Some (JStr str, r')
            | None => None
            end
          else if starts_with (js "true") (c :: r) then Some (JBool true, drop 3 r)
          else if starts_with (js "false") (c :: r) then Some (JBool false, drop 4 r)
          else if starts_with (js "null") (c :: r) then Some (JNull, drop 3 r)
          else
            match parse_number (c :: r) with
            | Some (x, r') => Some (JNum x, r')
            | None => None
            end
      | [] => None
      end
  end.

(** [JSON.parse(s)]: [None] when it throws a SyntaxError. The fuel is one
    more than the length of the text; every recursive call consumes a
    character first. *)
Definition JSON_parse (s : jsstr) : option jsval :=
  match parse_value (S (length s)) s with
  | Some (v, rest) => match skip_ws rest with [] => Some v | _ => None end
  | None => None
  end.

(** A parser of one value that leaves no more than it was given. *)
Definition shortening (pv : jsstr -> option (jsval * jsstr)) : Prop :=
  forall t v r, pv t = Some (v, r) -> (length r <= length t)%nat.

(** Two parsers of one value that agree on every text of at most [n]
    characters. *)
Definition agree_upto (n : nat) (pv1 pv2 : jsstr -> option (jsval * jsstr))
  : Prop :=
  forall t, (length t <= n)%nat -> pv1 t = pv2 t.

End Json.
Export Json.

(** ** The JSON recovery parser: [safeParseJson] *)

Module Recovery.

(** A call either returns a value or throws. *)
Inductive result (E A : Type) :=
| Return (a : A)
| Throw (e : E).
Arguments Return {E A} a.
Arguments Throw {E A} e.

(** The errors [safeParseJson] throws, by message: "Empty model output.",
    "Model output was not JSON.", "Model returned truncated/invalid JSON.
    ..." and "Model output was not valid JSON: " followed by the message of
    the SyntaxError that [JSON.parse] raised on the text [rejected]. The
    second and the fourth are the malformed kind. *)
Inductive ParseError :=
| EmptyModelOutput
| NotJson
| TruncatedJson
| NotValidJson (rejected : jsstr).

(** The candidate start: the index of the first brace or bracket, whichever
    comes first, or -1. *)
Definition candidate_start (cleaned : jsstr) : Z :=
  let o := indexOf lbrace cleaned in
  let a := indexOf lbracket cleaned in
  if (0 <=? o) && ((a <? 0) || (o <? a)) then o else a.

Definition safeParseJson (text : jsstr) : result ParseError jsval :=
  let raw := trim text in
  match raw with
  | [] => Throw EmptyModelOutput
  | _ =>
      let cleaned := repairJsonCommon raw in
      match JSON_parse cleaned with
      | Some v => Return v
      | None =>
          let start := candidate_start cleaned in
          if start <? 0 then Throw NotJson
          else
            let start := Z.to_nat start in
            let second :=
              match findLastBalancedJsonEnd cleaned start with
              | Some e =>
                  JSON_parse (repairJsonCommon (slice cleaned start (e + 1)))
              | None => None
              end in
            match second with
            | Some v => Return v
            | None =>
                let tail := repairJsonCommon (slice_from cleaned start) in
                match JSON_parse tail with
                | Some v => Return v
                | None =>
                    if looksTruncatedJson tail then Throw TruncatedJson
                    else Throw (NotValidJson tail)
                end
            end
      end
  end.

End Recovery.
Export Recovery.

(** ** The balanced end, as the code finds it and as the specification words it *)

Module Balanced.

(** The scanner state before the character at offset [k] of [cs], from [st]. *)
Definition scan_before (st : scan) (cs : jsstr) (k : nat) : scan :=
  fold_left scan_char (take k cs) st.

(** At offset [k] of [cs] the depth returns to exactly zero: the character
    there is a closer outside any string literal, and the depth after it is
    zero. *)
Definition closes_rel (st : scan) (cs : jsstr) (k : nat) : bool :=
  match cs !! k with
  | Some c =>
      let st' := scan_before st cs k in
      negb (inStr st') && is_closer c && (depth st' - 1 =? 0)
  | None => false
  end.

(** The same at index [i] of [s], for the scan that starts at [start]. *)
Definition closes_at (s : jsstr) (start i : nat) : bool :=
  (start <=? i)%nat && closes_rel scan0 (drop start s) (i - start).

(** The end the specification describes: the index at which the depth
    returns to zero for the first time. *)
Fixpoint first_balanced_scan (st : scan) (i : nat) (cs : jsstr) : option nat :=
  match cs with
  | [] => None
  | c :: r =>
      if negb (inStr st) && is_closer c && (depth st - 1 =? 0) then Some i
      else first_balanced_scan (scan_char st c) (S i) r
  end.

Definition findFirstBalancedJsonEnd (s : jsstr) (start : nat) : option nat :=
  first_balanced_scan scan0 start (drop start s).

End Balanced.
Export Balanced.

(** ** How a failed recovery is classified *)

Module Classification.






End Classification.
Export Classification.

(** ** Renderings of a JSON value that the repairs are meant to undo *)

Module Rendering.

(** The text wrapped in a code fence. *)
Definition fenced (s : jsstr) : jsstr :=
  js "```json" ++ [newline] ++ s ++ [newline] ++ js "```".

(** [d] is [c] itself, or a typographic quote standing for the straight
    quote [c]. *)
Definition curls (d c : N) : Prop :=
  d = c
  \/ (c = dquote /\ (d = ldquo \/ d = rdquo))
  \/ (c = squote /\ (d = lsquo \/ d = rsquo)).

(** [d] is the text [s] with some of its straight quotes turned into
    typographic ones. *)
Definition curled (d s : jsstr) : Prop := Forall2 curls d s.

(** The same as a test. *)
Definition curlsb (d c : N) : bool :=
  N.eqb d c
  || N.eqb c dquote && (N.eqb d ldquo || N.eqb d rdquo)
  || N.eqb c squote && (N.eqb d lsquo || N.eqb d rsquo).

Fixpoint curledb (d s : jsstr) : bool :=
  match d, s with
  | [], [] => true
  | x :: d', y :: s' => curlsb x y && curledb d' s'
  | _, _ => false
  end.

(** The expression [m] matches nowhere in [s]. *)
Fixpoint never_matches (m : matcher) (s : jsstr) : bool :=
  match s with
  | [] => true
  | _ :: r => match m s with None => never_matches m r | Some _ => false end
  end.

Definition is_curly (c : N) : bool :=
  N.eqb c ldquo || N.eqb c rdquo || N.eqb c lsquo || N.eqb c rsquo.

(** A text none of the repairs applies to: no surrounding white space, no
    code fence, no typographic quote, no closer and opener of one kind
    separated by a line break, no comma right before a closer. *)
Definition repair_free (s : jsstr) : bool :=
  bool_decide (trim s = s)
  && never_matches fence s
  && forallb (fun c => negb (is_curly c)) s
  && never_matches (missing_comma rbrace lbrace) s
  && never_matches (missing_comma rbracket lbracket) s
  && never_matches trailing_comma s.

(** Whatever follows a text, [x] or [y], the expression that does not match
    inside the text before [x] does not match before [y] either. *)
Definition extends_none (m : matcher) (x y : jsstr) : Prop :=
  forall t, t <> [] -> m (t ++ x) = None -> m (t ++ y) = None.

(** The text [y] does not start with a backtick. *)
Definition no_tick_ahead (y : jsstr) : bool :=
  match y with [] => true | h :: _ => negb (N.eqb backtick h) end.

(** The first character of [y] that is not white space is none of those
    [p] accepts. *)
Definition ahead_not (p : N -> bool) (y : jsstr) : bool :=
  match snd (span_space y) with [] => true | h :: _ => negb (p h) end.

End Rendering.
Export Rendering.

(** ** Conversions of the JavaScript runtime *)

Module JsConvert.

Definition digits_of_N (n : N) : jsstr :=
  js (NilZero.string_of_uint (N.to_uint n)).

Definition pow10 (e : Z) : Q :=
  if 0 <=? e then inject_Z (10 ^ e) else Qmake 1 (Z.to_pos (10 ^ (- e))).

(** The exponent [e] with [10^e <= v < 10^(e+1)], for a positive [v]: an
    estimate from the binary logarithms, corrected upward and downward. *)
Definition floor_log10 (v : Q) : Z :=
  let est := (Z.log2 (Qnum v) - Z.log2 (Zpos (Qden v))) * 30103 / 100000 in
  let up e := if Qle_bool (pow10 (e + 1)) v then e + 1 else e in
  let down e := if Qle_bool (pow10 e) v then e else e - 1 in
  down (down (down (up (up (up est))))).

(** The [k]-digit decimals [s * 10^(n-k)] next to [v] that denote the double
    [x], nearest first. *)
Definition digit_candidates (x : float) (v : Q) (k : Z) : list (Z * Z) :=
  let n0 := floor_log10 v + 1 in
  let lo := Qfloor (v / pow10 (n0 - k)) in
  let hi := if lo + 1 =? 10 ^ k then (10 ^ (k - 1), n0 + 1) else (lo + 1, n0) in
  let value sn := (inject_Z (fst sn) * pow10 (snd sn - k))%Q in
  let ok sn := PrimFloat.eqb (number_of_decimal false (fst sn) (snd sn - k)) x in
  let lo_first :=
    Qle_bool (v - value (lo, n0)) (value hi - v) in
  filter (fun sn => ok sn = true)
         (if lo_first then [(lo, n0); hi] else [hi; (lo, n0)]).

(** The shortest such decimal: the digits [s], their count [k] and the
    position [n] of the decimal point. *)
Fixpoint shortest_digits (fuel : nat) (x : float) (v : Q) (k : Z) : Z * Z * Z :=
  match fuel with
  | O => (0, 1, 1)
  | S fuel' =>
      match digit_candidates x v k with
      | (s, n) :: _ => (s, k, n)
      | [] => shortest_digits fuel' x v (k + 1)
      end
  end.

Definition zeros (n : Z) : jsstr := repeat (ch "0") (Z.to_nat n).

(** [Number::toString] in radix 10. *)
Definition Number_toString (x : float) : jsstr :=
  match Prim2SF x with
  | S754_nan => js "NaN"
  | S754_zero _ => js "0"
  | S754_infinity s => if s then js "-Infinity" else js "Infinity"
  | S754_finite sg _ _ =>
      let v := Qabs (Q_of_number x) in
      let '(s, k, n) := shortest_digits 20 (PrimFloat.abs x) v 1 in
      let ds := digits_of_N (Z.to_N s) in
      let body :=
        if (k <=? n) && (n <=? 21) then ds ++ zeros (n - k)
        else if (0 <? n) && (n <=? 21)
        then take (Z.to_nat n) ds ++ js "." ++ drop (Z.to_nat n) ds
        else if (-6 <? n) && (n <=? 0) then js "0." ++ zeros (- n) ++ ds
        else
          let e := n - 1 in
          let ex := (if e <? 0 then js "e-" else js "e+")
                      ++ digits_of_N (Z.to_N (Z.abs e)) in
          if k =? 1 then ds ++ ex
          else take 1 ds ++ js "." ++ drop 1 ds ++ ex in
      if sg then ch "-" :: body else body
  end.

(** [String(v)] for a value, [None] being [undefined]. *)
Fixpoint String_of (v : jsval) : jsstr :=
  match v with
  | JNull => js "null"
  | JBool b => if b then js "true" else js "false"
  | JNum x => Number_toString x
  | JStr s => s
  | JArr items =>
      (fix join (l : list jsval) : jsstr :=
         match l with
         | [] => []
         | [a] => match a with JNull => [] | _ => String_of a end
         | a :: r =>
             (match a with JNull => [] | _ => String_of a end) ++ comma :: join r
         end) items
  | JObj _ => js "[object Object]"
  end.

Definition ToString (v : option jsval) : jsstr :=
  match v with Some x => String_of x | None => js "undefined" end.

(** The default to the empty string, written with the [||] operator: the
    value when it is truthy, the empty string otherwise. *)
Definition or_empty (v : option jsval) : option jsval :=
  match v with
  | None | Some JNull | Some (JBool false) | Some (JStr []) => Some (JStr [])
  | Some (JNum x) =>
      match Prim2SF x with
      | S754_zero _ | S754_nan => Some (JStr [])
      | _ => v
      end
  | _ => v
  end.

(** [parseInt(s, 10)]: leading white space, a sign, decimal digits; [None]
    is NaN. *)
Definition parseInt (s : jsstr) : option Z :=
  let t := trimStart s in
  let '(neg, u) :=
    match t with
    | c :: r => if N.eqb c (ch "-") then (true, r)
                else if N.eqb c (ch "+") then (false, r) else (false, t)
    | [] => (false, t)
    end in
  let '(v, n, _) := span_digits u 0 0 in
  match n with
  | O => None
  | _ => Some (if neg then - v else v)
  end.

End JsConvert.
Export JsConvert.

(** ** The environment: random numbers and the clock *)

Module Environment.

(** A result of [Math.random()]: a fraction at least 0 and below 1. *)
Record unit_interval := UnitInterval {
  ui_num : nat;
  ui_den : nat;
  ui_below_one : (ui_num <? ui_den)%nat = true
}.

(** What the calls to [Math.random()] and [Date.now()] still to come will
    return, in order. *)
Record World := { random : nat -> unit_interval; clock : nat -> N }.

Definition Math_random (w : World) : unit_interval * World :=
  (random w 0%nat, {| random := fun n => random w (S n); clock := clock w |}).

Definition Date_now (w : World) : N * World :=
  (clock w 0%nat, {| random := random w; clock := fun n => clock w (S n) |}).

(** [Math.floor(x * n)] for a random [x]: the product is taken exactly; the
    double product of the program also lies between 0 and [n - 1]. *)
Definition floor_times (x : unit_interval) (n : nat) : nat :=
  (ui_num x * n / ui_den x)%nat.

#[global] Instance unit_interval_eq_dec : EqDecision unit_interval.
Proof.
  intros [a b Ha] [c d Hc].
  destruct (decide (a = c)) as [->|Hne]; [|right; congruence].
  destruct (decide (b = d)) as [->|Hne]; [|right; congruence].
  left. f_equal. apply (Eqdep_dec.UIP_dec Bool.bool_dec).
Defined.

(** The string ["qz_" + hex digits of the random number + "_" + hex digits
    of the time] that [uid] builds, held as its two parts. *)
Inductive Id := Uid (r : unit_interval) (t : N).

#[global] Instance Id_eq_dec : EqDecision Id.
Proof. solve_decision. Defined.

Definition uid (w : World) : Id * World :=
  let '(r, w1) := Math_random w in
  let '(t, w2) := Date_now w1 in
  (Uid r t, w2).

End Environment.
Export Environment.

(** ** The question types ([questionTypes.ts]) *)

Module QuestionTypes.

Inductive SettingsKey :=
| matchingEnabled | matchingQuantity
| selectAllEnabled | selectAllQuantity
| fillBlankEnabled | fillBlankQuantity
| multipleChoiceEnabled | multipleChoiceQuantity
| trueFalseEnabled | trueFalseQuantity
| shortLongEnabled | shortLongQuantity.

#[global] Instance SettingsKey_eq_dec : EqDecision SettingsKey.
Proof. solve_decision. Defined.

Record QuestionTypeRegistryEntry := {
  enabledToggleKey : SettingsKey;
  quantityKey : SettingsKey;
  description : string;
  schemaShape : jsstr;
  typeGuard : jsval -> bool
}.

Definition MULTIPLE_CHOICE_TOGGLE_KEY : SettingsKey := multipleChoiceEnabled.

(** The guards take a value or [undefined] ([None]). *)
Definition isRecord (value : option jsval) : bool :=
  match value with Some (JObj _) | Some (JArr _) => true | _ => false end.
Definition isString (value : option jsval) : bool :=
  match value with Some (JStr _) => true | _ => false end.
Definition isNumber (value : option jsval) : bool :=
  match value with Some (JNum x) => isFinite x | _ => false end.
Definition isBoolean (value : option jsval) : bool :=
  match value with Some (JBool _) => true | _ => false end.
Definition isStringArray (value : option jsval) : bool :=
  match value with
  | Some (JArr items) => forallb (fun x => isString (Some x)) items
  | _ => false
  end.
Definition isNumberArray (value : option jsval) : bool :=
  match value with
  | Some (JArr items) => forallb (fun x => isNumber (Some x)) items
  | _ => false
  end.

Definition isMatchingQuestion (value : jsval) : bool :=
  if negb (isRecord (Some value)) then false
  else if negb (isString (prop value "prompt")) then false
  else
    match prop value "pairs" with
    | Some (JArr pairs) =>
        match pairs with
        | [] => false
        | _ =>
            forallb
              (fun pair =>
                 if negb (isRecord (Some pair)) then false
                 else isString (prop pair "left") && isString (prop pair "right"))
              pairs
        end
    | _ => false
    end.

Definition isSelectAllQuestion (value : jsval) : bool :=
  if negb (isRecord (Some value)) then false
  else isString (prop value "q")
       && isStringArray (prop value "choices")
       && isNumberArray (prop value "correct_indexes")
       && match prop value "correct_indexes" with
          | Some (JArr items) => (0 <? length items)%nat
          | _ => false
          end.

Definition isFillBlankQuestion (value : jsval) : bool :=
  if negb (isRecord (Some value)) then false
  else isString (prop value "q") && isString (prop value "answer").

Definition isMultipleChoiceQuestion (value : jsval) : bool :=
  if negb (isRecord (Some value)) then false
  else isString (prop value "q") && isStringArray (prop value "choices")
       && isNumber (prop value "answer_index").

Definition isTrueFalseQuestion (value : jsval) : bool :=
  if negb (isRecord (Some value)) then false
  else isString (prop value "q") && isBoolean (prop value "answer").

Definition isShortLongAnswerQuestion (value : jsval) : bool :=
  if negb (isRecord (Some value)) then false
  else isString (prop value "q") && isString (prop value "ideal_answer")
       && isString (prop value "grading_criteria").

Definition matchingEntry : QuestionTypeRegistryEntry := {|
  enabledToggleKey := matchingEnabled;
  quantityKey := matchingQuantity;
  description := "Matching (pair terms with definitions)";
  schemaShape :=
    jsq "{ 'prompt': string, 'pairs': [ { 'left': string, 'right': string } ], 'explanation': string }";
  typeGuard := isMatchingQuestion |}.

Definition selectAllEntry : QuestionTypeRegistryEntry := {|
  enabledToggleKey := selectAllEnabled;
  quantityKey := selectAllQuantity;
  description := "Select All (multiple correct choices)";
  schemaShape :=
    jsq "{ 'q': string, 'choices': string[], 'correct_indexes': number[], 'explanation': string }";
  typeGuard := isSelectAllQuestion |}.

Definition fillBlankEntry : QuestionTypeRegistryEntry := {|
  enabledToggleKey := fillBlankEnabled;
  quantityKey := fillBlankQuantity;
  description := "Fill in the Blank (short text answer)";
  schemaShape := jsq "{ 'q': string, 'answer': string, 'explanation': string }";
  typeGuard := isFillBlankQuestion |}.

Definition multipleChoiceEntry : QuestionTypeRegistryEntry := {|
  enabledToggleKey := multipleChoiceEnabled;
  quantityKey := multipleChoiceQuantity;
  description := "Multiple Choice (single correct choice)";
  schemaShape :=
    jsq "{ 'q': string, 'choices': string[], 'answer_index': number, 'explanation': string }";
  typeGuard := isMultipleChoiceQuestion |}.

Definition trueFalseEntry : QuestionTypeRegistryEntry := {|
  enabledToggleKey := trueFalseEnabled;
  quantityKey := trueFalseQuantity;
  description := "True/False";
  schemaShape := jsq "{ 'q': string, 'answer': boolean, 'explanation': string }";
  typeGuard := isTrueFalseQuestion |}.

Definition shortLongEntry : QuestionTypeRegistryEntry := {|
  enabledToggleKey := shortLongEnabled;
  quantityKey := shortLongQuantity;
  description := "Short/Long Answer (graded response)";
  schemaShape :=
    jsq "{ 'q': string, 'ideal_answer': string, 'grading_criteria': string, 'explanation': string }";
  typeGuard := isShortLongAnswerQuestion |}.

Definition questionTypeRegistry : list QuestionTypeRegistryEntry :=
  [matchingEntry; selectAllEntry; fillBlankEntry; multipleChoiceEntry;
   trueFalseEntry; shortLongEntry].

End QuestionTypes.
Export QuestionTypes.

(** ** The question normalizer *)

Module Normalizer.

Record QuizQuestion := {
  q_id : Id;
  q_q : jsstr;
  q_choices : list jsstr;
  q_answer_index : Q;
  q_explanation : jsstr;
  q_user_answer_index : option Q
}.

(** The errors of [normalizeQuestion], by message: "question did not match
    any expected schema", "unsupported question type (description)",
    "missing question text", "choices must be exactly N". *)
Inductive NormalizeError :=
| NoSchemaMatch
| UnsupportedType (description : string)
| MissingQuestionText
| ChoiceCountMismatch (choicesCount : Z).

(** The first element a predicate accepts, as a [for] loop that returns
    finds it. *)
Fixpoint find_first {A} (p : A -> bool) (l : list A) : option A :=
  match l with
  | [] => None
  | x :: r => if p x then Some x else find_first p r
  end.

Definition matchQuestionType (question : jsval) : option QuestionTypeRegistryEntry :=
  find_first (fun entry => typeGuard entry question) questionTypeRegistry.

(** [Math.max] and [Math.min] on finite numbers. *)
Definition Math_max (a b : Q) : Q := if Qle_bool a b then b else a.
Definition Math_min (a b : Q) : Q := if Qle_bool a b then a else b.

(** [Number.isFinite(v) ? v : parseInt(String(v), 10)] as a double. *)
Definition finite_or_parsed (v : option jsval) : float :=
  match v with
  | Some (JNum x) =>
      if isFinite x then x
      else match parseInt (ToString v) with
           | Some z => number_of_Z z
           | None => nan
           end
  | _ => match parseInt (ToString v) with
         | Some z => number_of_Z z
         | None => nan
         end
  end.

Definition is_nonempty (s : jsstr) : bool :=
  match s with [] => false | _ => true end.

Definition normalizeQuestion (q : jsval) (choicesCount : Z) (w : World)
  : result NormalizeError QuizQuestion * World :=
  match matchQuestionType q with
  | None => (Throw NoSchemaMatch, w)
  | Some matched =>
      if negb (bool_decide (enabledToggleKey matched = MULTIPLE_CHOICE_TOGGLE_KEY))
      then (Throw (UnsupportedType (description matched)), w)
      else
        let qq := trim (ToString (or_empty (prop q "q"))) in
        let choices :=
          match prop q "choices" with
          | Some (JArr items) =>
              List.filter is_nonempty (map (fun x => trim (String_of x)) items)
          | _ => []
          end in
        let ai := finite_or_parsed (prop q "answer_index") in
        if negb (is_nonempty qq) then (Throw MissingQuestionText, w)
        else if negb (Z.of_nat (length choices) =? choicesCount)
        then (Throw (ChoiceCountMismatch choicesCount), w)
        else
          let ai := if negb (isFinite ai) then 0%Q else Q_of_number ai in
          let ai :=
            Math_max 0 (Math_min (inject_Z (Z.of_nat (length choices) - 1)) ai) in
          let '(i, w') := uid w in
          (Return {| q_id := i;
                     q_q := qq;
                     q_choices := choices;
                     q_answer_index := ai;
                     q_explanation :=
                       trim (ToString (or_empty (prop q "explanation")));
                     q_user_answer_index := None |}, w')
  end.

End Normalizer.
Export Normalizer.


(** ** Settings and the plan builder *)

Module PlanBuilder.

Record QuestionTypeSettings := {
  matchingEnabled_ : bool;
  matchingQuantity_ : Z;
  selectAllEnabled_ : bool;
  selectAllQuantity_ : Z;
  fillBlankEnabled_ : bool;
  fillBlankQuantity_ : Z;
  multipleChoiceEnabled_ : bool;
  multipleChoiceQuantity_ : Z;
  trueFalseEnabled_ : bool;
  trueFalseQuantity_ : Z;
  shortLongEnabled_ : bool;
  shortLongQuantity_ : Z
}.

Definition DEFAULT_QUESTION_TYPE_SETTINGS : QuestionTypeSettings := {|
  matchingEnabled_ := false; matchingQuantity_ := 0;
  selectAllEnabled_ := false; selectAllQuantity_ := 0;
  fillBlankEnabled_ := false; fillBlankQuantity_ := 0;
  multipleChoiceEnabled_ := true; multipleChoiceQuantity_ := 10;
  trueFalseEnabled_ := false; trueFalseQuantity_ := 0;
  shortLongEnabled_ := false; shortLongQuantity_ := 0 |}.

(** The value of a settings property: a boolean or a number. The quantities
    are integers. *)
Inductive SettingValue := SBool (b : bool) | SNum (n : Z).

(** [questionTypeSettings[key]]. *)
Definition setting (s : QuestionTypeSettings) (key : SettingsKey) : SettingValue :=
  match key with
  | matchingEnabled => SBool (matchingEnabled_ s)
  | matchingQuantity => SNum (matchingQuantity_ s)
  | selectAllEnabled => SBool (selectAllEnabled_ s)
  | selectAllQuantity => SNum (selectAllQuantity_ s)
  | fillBlankEnabled => SBool (fillBlankEnabled_ s)
  | fillBlankQuantity => SNum (fillBlankQuantity_ s)
  | multipleChoiceEnabled => SBool (multipleChoiceEnabled_ s)
  | multipleChoiceQuantity => SNum (multipleChoiceQuantity_ s)
  | trueFalseEnabled => SBool (trueFalseEnabled_ s)
  | trueFalseQuantity => SNum (trueFalseQuantity_ s)
  | shortLongEnabled => SBool (shortLongEnabled_ s)
  | shortLongQuantity => SNum (shortLongQuantity_ s)
  end.

(** [!!v]. *)
Definition truthy (v : SettingValue) : bool :=
  match v with SBool b => b | SNum n => negb (n =? 0) end.

(** [clampInt(n, min, max, fallback)]. [parseInt(String(n), 10)] is [n]
    itself for the integers a count or a quantity is (those of magnitude
    below 10^21, which print in plain decimal digits) and NaN for a boolean. *)
Definition clampInt (n : SettingValue) (min max fallback : Z) : Z :=
  match n with
  | SNum x => Z.max min (Z.min max x)
  | SBool _ => fallback
  end.

Inductive Difficulty := easy | medium | hard | very_hard.

Record Settings := {
  endpoint : jsstr;
  model : jsstr;
  temperature : float;
  maxTokens : Z;
  defaultDifficulty : Difficulty;
  defaultChoices : Z;
  immediateFeedback : bool;
  rememberPassword : bool;
  customInstructions : jsstr;
  (** [None] when the stored settings lack the property. *)
  questionTypeSettings : option QuestionTypeSettings
}.

Definition DEFAULT_SETTINGS : Settings := {|
  endpoint := js "https://api.openai.com/v1/responses";
  model := js "gpt-4.1-mini";
  temperature := 0.7;
  maxTokens := 6000;
  defaultDifficulty := medium;
  defaultChoices := 4;
  immediateFeedback := false;
  rememberPassword := false;
  customInstructions := [];
  questionTypeSettings := Some DEFAULT_QUESTION_TYPE_SETTINGS |}.

Record QuestionTypePlanEntry := {
  entry : QuestionTypeRegistryEntry;
  quantity : Z
}.

Definition buildQuestionTypePlan (settings : Settings) (totalCount : Z)
  : list QuestionTypePlanEntry :=
  let questionTypeSettings :=
    match questionTypeSettings settings with
    | Some s => s
    | None => DEFAULT_QUESTION_TYPE_SETTINGS
    end in
  let enabledEntries :=
    List.filter (fun entry => truthy (setting questionTypeSettings (enabledToggleKey entry)))
                questionTypeRegistry in
  match enabledEntries with
  | [] =>
      match find_first
              (fun entry =>
                 bool_decide (enabledToggleKey entry = MULTIPLE_CHOICE_TOGGLE_KEY))
              questionTypeRegistry with
      | Some fallback => [{| entry := fallback; quantity := totalCount |}]
      | None => []
      end
  | [only] => [{| entry := only; quantity := totalCount |}]
  | first :: _ =>
      let plan :=
        List.filter (fun item => 0 <? quantity item)
          (map (fun entry =>
                  {| entry := entry;
                     quantity :=
                       clampInt (setting questionTypeSettings (quantityKey entry))
                                0 totalCount 0 |})
               enabledEntries) in
      match plan with
      | [] => [{| entry := first; quantity := totalCount |}]
      | _ => plan
      end
  end.

Definition totalQuestionsFromPlan (plan : list QuestionTypePlanEntry) : Z :=
  fold_left (fun sum item => sum + quantity item) plan 0.

(** [recommendedMaxOutputTokens]. *)
Definition recommendedMaxOutputTokens (questionCount : Z) : Z :=
  let qc := clampInt (SNum questionCount) 1 60 10 in
  let est := 900 + qc * 190 in
  Z.max 1200 (Z.min 12000 est).

(** The entries the settings enable, in registration order, and the quantity
    configured for an entry clamped between 0 and the total. *)
Definition settings_in_force (settings : Settings) : QuestionTypeSettings :=
  match questionTypeSettings settings with
  | Some s => s
  | None => DEFAULT_QUESTION_TYPE_SETTINGS
  end.

Definition enabled_entries (settings : Settings) : list QuestionTypeRegistryEntry :=
  List.filter
    (fun e => truthy (setting (settings_in_force settings) (enabledToggleKey e)))
    questionTypeRegistry.



End PlanBuilder.
Export PlanBuilder.


(** ** The duplicate filter *)

Module Dedup.

(** [toLowerCase], one code unit at a time. Outside ASCII only the two code
    units whose lower case reaches into ASCII are mapped (U+0130 to [i] and
    U+0307, the Kelvin sign U+212A to [k]); every other one is kept as it
    is: like its lower case it lies outside [a-z0-9 ], which is all that
    [normText], the only caller, looks at. *)
Definition lower_unit (c : N) : jsstr :=
  if ((65 <=? c) && (c <=? 90))%N then [(c + 32)%N]
  else if (c =? 304)%N then [105%N; 775%N]
  else if (c =? 8490)%N then [107%N]
  else [c].

Definition toLowerCase (s : jsstr) : jsstr := flat_map lower_unit s.

(** The class [[a-z0-9 ]]. *)
Definition is_word_or_space (c : N) : bool :=
  ((97 <=? c) && (c <=? 122) || (48 <=? c) && (c <=? 57) || (c =? 32))%N.

(** [/\s+/g]: a run of white space, replaced by one space. *)
Definition space_run : matcher := fun s =>
  match s with
  | c :: r =>
      if is_space c then Some ([space], S (length (fst (span_space r)))) else None
  | [] => None
  end.

Definition normText (s : jsstr) : jsstr :=
  trim
    (replace_all space_run
       (map (fun c => if is_word_or_space c then c else space) (toLowerCase s))).

(** [s.split(" ")]: [cur] holds the current piece, last character first. *)
Fixpoint split_space (s : jsstr) (cur : jsstr) : list jsstr :=
  match s with
  | [] => [rev cur]
  | c :: r =>
      if N.eqb c space then rev cur :: split_space r [] else split_space r (c :: cur)
  end.

(** The words of at least three characters of a text, as a set. *)
Definition tokens_of (n : jsstr) : gset jsstr :=
  list_to_set (List.filter (fun w => (3 <=? length w)%nat) (split_space n [])).

Definition tokenSet (s : jsstr) : gset jsstr := tokens_of (normText s).

(** [jaccard]: the sizes are integers and exact; the quotient is a double. *)
Definition jaccard (a b : gset jsstr) : float :=
  if (size a =? 0)%nat || (size b =? 0)%nat then 0%float
  else
    let inter := size (filter (fun x => x ∈ b) a) in
    let uni := (size a + size b - inter)%nat in
    if (uni =? 0)%nat then 0%float
    else (number_of_nat inter / number_of_nat uni)%float.

Definition isNearDuplicate (qText : jsstr) (existing : gset jsstr)
  (existingTokenSets : list (gset jsstr)) : bool :=
  let n := normText qText in
  match n with
  | [] => true
  | _ =>
      if bool_decide (n ∈ existing) then true
      else
        let t := tokenSet n in
        existsb (fun ex => (0.72 <=? jaccard t ex)%float) existingTokenSets
  end.

(** The Jaccard similarity of two sets, the size of the intersection over the
    size of the union as a double, and 0 when a set is empty. *)
Definition jaccard_similarity (a b : gset jsstr) : float :=
  if bool_decide (a = ∅ \/ b = ∅) then 0%float
  else (number_of_nat (size (a ∩ b)) / number_of_nat (size (a ∪ b)))%float.

(** The normalization as the specification words it: the characters outside
    [[a-z0-9 ]] are stripped, that is, removed. *)
Definition normText_stripping (s : jsstr) : jsstr :=
  trim (replace_all space_run (List.filter is_word_or_space (toLowerCase s))).

End Dedup.
Export Dedup.

(** ** Quizzes and the grading engine *)

Module Grading.

Record PerQuestion := {
  isAnswered : bool;
  isCorrect : bool;
  ua : option Q;
  ca : Q
}.

Record Grade := {
  total : nat;
  answered : nat;
  correct : nat;
  accuracyTotal : float;
  accuracyAnswered : float;
  per : list PerQuestion
}.

(** Times are held as clock readings; the program prints them in ISO form. *)
Record Quiz := {
  quiz_id : Id;
  title : jsstr;
  sourcePath : jsstr;
  sourceText : option jsstr;
  created_at : N;
  updated_at : N;
  difficulty : Difficulty;
  choicesCount : Z;
  quiz_model : jsstr;
  quiz_temperature : float;
  questions : list QuizQuestion;
  currentIndex : Z;
  submitted : bool;
  submittedAt : option N;
  grade : option Grade
}.

(** [a === b] on two finite numbers. *)
Definition number_eq (a b : Q) : bool := Qeq_bool a b.

(** One call of the function [computeGrade] maps over the questions: it
    updates the two counters and yields the question's entry. *)
Definition grade_question (counters : nat * nat) (q : QuizQuestion)
  : nat * nat * PerQuestion :=
  let '(answered, correct) := counters in
  let ua := q_user_answer_index q in
  let isAnswered := match ua with Some _ => true | None => false end in
  let answered := if isAnswered then S answered else answered in
  let isCorrect :=
    match ua with
    | Some u => number_eq u (q_answer_index q)
    | None => false
    end in
  let correct := if isCorrect then S correct else correct in
  (answered, correct,
   {| isAnswered := isAnswered; isCorrect := isCorrect;
      ua := ua; ca := q_answer_index q |}).

Fixpoint grade_questions (counters : nat * nat) (qs : list QuizQuestion)
  : nat * nat * list PerQuestion :=
  match qs with
  | [] => (counters, [])
  | q :: r =>
      let '(c1, p) := grade_question counters q in
      let '(c2, ps) := grade_questions c1 r in
      (c2, p :: ps)
  end.

Definition computeGrade (quiz : Quiz) : Grade :=
  let total := length (questions quiz) in
  let '(answered, correct, per) := grade_questions (0%nat, 0%nat) (questions quiz) in
  let accuracyAnswered :=
    match answered with
    | O => 0%float
    | _ => Math_round ((number_of_nat correct / number_of_nat answered) * 100)%float
    end in
  let accuracyTotal :=
    match total with
    | O => 0%float
    | _ => Math_round ((number_of_nat correct / number_of_nat total) * 100)%float
    end in
  {| total := total; answered := answered; correct := correct;
     accuracyTotal := accuracyTotal; accuracyAnswered := accuracyAnswered;
     per := per |}.

(** The question has a user answer, and has the right one. *)
Definition answered_question (q : QuizQuestion) : bool :=
  match q_user_answer_index q with Some _ => true | None => false end.

Definition correct_question (q : QuizQuestion) : bool :=
  match q_user_answer_index q with
  | Some u => number_eq u (q_answer_index q)
  | None => false
  end.

(** The percentage [100 * part / whole] rounded to the nearest integer, a
    half going up, in exact arithmetic; 0 when [whole] is 0. *)
Definition round_half_up_percent (part whole : Z) : Z :=
  if whole =? 0 then 0 else (200 * part + whole) / (2 * whole).

End Grading.
Export Grading.


(** ** The randomizer *)

Module Randomizer.

(** The loop of [shuffleInPlace] from index [i] down to 1. The indexes [i]
    and [j] are always inside the array ([j <= i < arr.length]); the last
    branch is never taken. *)
Fixpoint shuffle_from {T} (i : nat) (arr : list T) (w : World) : list T * World :=
  match i with
  | O => (arr, w)
  | S i' =>
      let '(x, w') := Math_random w in
      let j := floor_times x (i + 1) in
      let arr' :=
        match arr !! i, arr !! j with
        | Some tmp, Some aj => <[j := tmp]> (<[i := aj]> arr)
        | _, _ => arr
        end in
      shuffle_from i' arr' w'
  end.

Definition shuffleInPlace {T} (arr : list T) (w : World) : list T * World :=
  shuffle_from (length arr - 1) arr w.

(** [arr.findIndex(p)]: the first index whose element [p] accepts, or -1. *)
Fixpoint findIndex_from {T} (p : T -> bool) (arr : list T) (i : Z) : Z :=
  match arr with
  | [] => -1
  | x :: r => if p x then i else findIndex_from p r (i + 1)
  end.

Definition findIndex {T} (p : T -> bool) (arr : list T) : Z := findIndex_from p arr 0.

(** A choice paired with its original index: [{ text, idx }]. *)
Definition pair_with_index (idx : nat) (text : jsstr) : jsstr * nat := (text, idx).

Definition has_index (n : Q) (p : jsstr * nat) : bool :=
  number_eq (inject_Z (Z.of_nat (snd p))) n.

Definition randomizeQuestionChoices (q : QuizQuestion) (w : World)
  : QuizQuestion * World :=
  let pairs := imap pair_with_index (q_choices q) in
  let '(pairs, w') := shuffleInPlace pairs w in
  let newChoices := map fst pairs in
  let newAnswerIndex := findIndex (has_index (q_answer_index q)) pairs in
  let newUserIndex :=
    match q_user_answer_index q with
    | None => None
    | Some u => Some (inject_Z (findIndex (has_index u) pairs))
    end in
  ({| q_id := q_id q;
      q_q := q_q q;
      q_choices := newChoices;
      q_answer_index := inject_Z (Z.max 0 newAnswerIndex);
      q_explanation := q_explanation q;
      q_user_answer_index := newUserIndex |}, w').

(** [questions.map(f)] for an [f] that draws random numbers. *)
Fixpoint map_in_world {A B} (f : A -> World -> B * World) (l : list A) (w : World)
  : list B * World :=
  match l with
  | [] => ([], w)
  | a :: r =>
      let '(b, w1) := f a w in
      let '(bs, w2) := map_in_world f r w1 in
      (b :: bs, w2)
  end.

Definition randomizeQuestions (questions : list QuizQuestion) (w : World)
  : list QuizQuestion * World :=
  let '(qs, w') := map_in_world randomizeQuestionChoices questions w in
  shuffleInPlace qs w'.

(** The text of the choice at a whole-number index. *)
Definition choice_at (q : QuizQuestion) (k : nat) : option jsstr := q_choices q !! k.

(** [q'] is [q] with its choices reordered and its indexes following them:
    when the answer index of [q] is the whole number [k] of one of its
    choices, the answer index of [q'] is a whole number at which [q'] has the
    text [q] had at [k]; the user answer index is absent in both or present
    in both, and then follows its choice in the same way. *)
Definition follows_choices (q q' : QuizQuestion) : Prop :=
  q_id q' = q_id q /\ q_q q' = q_q q /\ q_explanation q' = q_explanation q
  /\ q_choices q' ≡ₚ q_choices q
  /\ (forall k : nat,
        Qeq (q_answer_index q) (inject_Z (Z.of_nat k)) ->
        (k < length (q_choices q))%nat ->
        exists k' : nat,
          q_answer_index q' = inject_Z (Z.of_nat k')
          /\ choice_at q' k' = choice_at q k)
  /\ match q_user_answer_index q with
     | None => q_user_answer_index q' = None
     | Some u =>
         exists u', q_user_answer_index q' = Some u'
           /\ forall k : nat,
                Qeq u (inject_Z (Z.of_nat k)) ->
                (k < length (q_choices q))%nat ->
                exists k' : nat,
                  u' = inject_Z (Z.of_nat k') /\ choice_at q' k' = choice_at q k
     end.

End Randomizer.
Export Randomizer.


(** ** The retry collector *)

Module Collector.

(** [extractOutputText]: the aggregated text when it is a non-blank string,
    else the first non-blank text of a content item of a message item. *)
Definition nonblank_text (v : option jsval) : option jsstr :=
  match v with
  | Some (JStr s) => if is_nonempty (trim s) then Some s else None
  | _ => None
  end.

Fixpoint first_text (content : list jsval) : option jsstr :=
  match content with
  | [] => None
  | c :: r =>
      match nonblank_text (prop c "text") with
      | Some s => Some s
      | None => first_text r
      end
  end.

Fixpoint first_message_text (out : list jsval) : jsstr :=
  match out with
  | [] => []
  | item :: r =>
      match prop item "type", prop item "content" with
      | Some (JStr t), Some (JArr content) =>
          if bool_decide (t = js "message") then
            match first_text content with
            | Some s => s
            | None => first_message_text r
            end
          else first_message_text r
      | _, _ => first_message_text r
      end
  end.

Definition extractOutputText (resp : jsval) : jsstr :=
  match nonblank_text (prop resp "output_text") with
  | Some s => s
  | None =>
      match prop resp "output" with
      | Some (JArr out) => first_message_text out
      | _ => []
      end
  end.

(** The unlocked vault, and the plugin's state: the vault in memory (absent
    while locked), the identifier of the current quiz, what [saveEncrypted]
    last wrote, and the files of the workspace by path. *)
Record VaultPlain := {
  apiKey : jsstr;
  settings : Settings;
  quizzes : list Quiz
}.

Record Plugin := {
  vaultPlain : option VaultPlain;
  currentQuizId : option Id;
  stored : option VaultPlain;
  files : jsstr -> option jsstr
}.

(** What a request to the generation service carries: the arguments of the
    user prompt and the generation parameters. *)
Record Request := {
  req_sourceText : jsstr;
  req_title : jsstr;
  req_plan : list QuestionTypePlanEntry;
  req_difficulty : Difficulty;
  req_choicesCount : Z;
  req_customInstructions : jsstr;
  req_avoidQuestions : list jsstr;
  req_model : jsstr;
  req_temperature : float;
  req_max_output_tokens : Z
}.

(** The generation service: the JSON body of its answer to the [n]-th
    request of a call, or [None] when [requestUrl] throws. *)
Definition Service := nat -> Request -> option jsval.

Inductive CollectError :=
| VaultLocked
| ApiKeyMissing
| NoQuizLoaded
| QuizAlreadySubmitted
| PlanEmpty
| SourceFileNotFound
| NoSourceText
| RequestFailed
| ParseFailed (e : ParseError)
| NormalizeFailed (e : NormalizeError)
| NoNewQuestions.

Definition getCurrentQuiz (p : Plugin) : option Quiz * Plugin :=
  match vaultPlain p with
  | None => (None, p)
  | Some v =>
      let id :=
        match currentQuizId p with
        | Some i => Some i
        | None => match quizzes v with q :: _ => Some (quiz_id q) | [] => None end
        end in
      match id with
      | None => (None, p)
      | Some i =>
          match find_first (fun x => bool_decide (quiz_id x = i)) (quizzes v) with
          | None => (None, p)
          | Some q =>
              (Some q, {| vaultPlain := vaultPlain p; currentQuizId := Some (quiz_id q);
                          stored := stored p; files := files p |})
          end
      end
  end.

(** The questions accepted so far in a call, with their normalized texts and
    token sets. *)
Record Collected := {
  collected : list QuizQuestion;
  collectedNorm : gset jsstr;
  collectedTokenSets : list (gset jsstr)
}.

(** [questionsRaw.map(q => normalizeQuestion(q, choicesCount))]: the first
    throw ends it. *)
Fixpoint normalize_all (raw : list jsval) (choicesCount : Z) (w : World)
  : result NormalizeError (list QuizQuestion) * World :=
  match raw with
  | [] => (Return [], w)
  | q :: r =>
      match normalizeQuestion q choicesCount w with
      | (Throw e, w1) => (Throw e, w1)
      | (Return n, w1) =>
          match normalize_all r choicesCount w1 with
          | (Throw e, w2) => (Throw e, w2)
          | (Return ns, w2) => (Return (n :: ns), w2)
          end
      end
  end.

(** The [for] loop over the normalized questions of one batch. *)
Fixpoint accept_batch (desired : Z) (existingNorm : gset jsstr)
  (existingTokenSets : list (gset jsstr)) (normalized : list QuizQuestion)
  (acc : Collected) (w : World) : Collected * World :=
  match normalized with
  | [] => (acc, w)
  | q :: r =>
      if desired <=? Z.of_nat (length (collected acc)) then (acc, w)
      else if isNearDuplicate (q_q q) existingNorm existingTokenSets
      then accept_batch desired existingNorm existingTokenSets r acc w
      else if isNearDuplicate (q_q q) (collectedNorm acc) (collectedTokenSets acc)
      then accept_batch desired existingNorm existingTokenSets r acc w
      else
        let '(q', w') := randomizeQuestionChoices q w in
        accept_batch desired existingNorm existingTokenSets r
          {| collected := collected acc ++ [q'];
             collectedNorm := {[ normText (q_q q) ]} ∪ collectedNorm acc;
             collectedTokenSets := collectedTokenSets acc ++ [tokenSet (q_q q)] |}
          w'
  end.

(** One request of the loop, as the trace records it: how many questions had
    been collected, the batch size asked of the plan builder, and the
    request. *)
Record Attempt := {
  collected_before : nat;
  reqCount : Z;
  request : Request
}.

(** The [while] loop. [None] if the fuel runs out before the loop ends. *)
Fixpoint collect_loop (fuel : nat) (service : Service) (v : VaultPlain) (quiz : Quiz)
  (sourceText : jsstr) (existingQuestions : list jsstr) (existingNorm : gset jsstr)
  (existingTokenSets : list (gset jsstr)) (desired : Z)
  (acc : Collected) (attempts : nat) (w : World) (trace : list Attempt)
  : option (result CollectError Collected * Collected * World * list Attempt) :=
  if (Z.of_nat (length (collected acc)) <? desired) && (attempts <? 3)%nat then
    match fuel with
    | O => None
    | S fuel' =>
        let attempts := S attempts in
        let reqCount := Z.min 12 (desired - Z.of_nat (length (collected acc))) in
        let reqPlan := buildQuestionTypePlan (settings v) reqCount in
        let reqTotalQuestions := totalQuestionsFromPlan reqPlan in
        let body := {|
          req_sourceText := sourceText;
          req_title := title quiz;
          req_plan := reqPlan;
          req_difficulty := difficulty quiz;
          req_choicesCount := choicesCount quiz;
          req_customInstructions := customInstructions (settings v);
          req_avoidQuestions := existingQuestions;
          req_model := model (settings v);
          req_temperature := temperature (settings v);
          req_max_output_tokens :=
            Z.max (maxTokens (settings v))
                  (recommendedMaxOutputTokens reqTotalQuestions) |} in
        let trace :=
          trace ++ [{| collected_before := length (collected acc);
                       reqCount := reqCount; request := body |}] in
        match service (length trace - 1)%nat body with
        | None => Some (Throw RequestFailed, acc, w, trace)
        | Some json =>
            match safeParseJson (extractOutputText json) with
            | Throw e => Some (Throw (ParseFailed e), acc, w, trace)
            | Return parsed =>
                let questionsRaw :=
                  match prop parsed "questions" with
                  | Some (JArr items) => items
                  | _ => []
                  end in
                match normalize_all questionsRaw (choicesCount quiz) w with
                | (Throw e, w1) => Some (Throw (NormalizeFailed e), acc, w1, trace)
                | (Return normalized, w1) =>
                    let '(acc', w2) :=
                      accept_batch desired existingNorm existingTokenSets
                                   normalized acc w1 in
                    collect_loop fuel' service v quiz sourceText existingQuestions
                      existingNorm existingTokenSets desired acc' attempts w2 trace
                end
            end
        end
    end
  else Some (Return acc, acc, w, trace).

(** [quiz.questions.push(...)] and [quiz.updated_at = ...] act on the quiz
    object that [getCurrentQuiz] found in the vault: the first with its
    identifier. *)
Fixpoint update_first (i : Id) (f : Quiz -> Quiz) (l : list Quiz) : list Quiz :=
  match l with
  | [] => []
  | q :: r => if bool_decide (quiz_id q = i) then f q :: r else q :: update_first i f r
  end.

(** What a call leaves behind: its result (the number of questions added),
    the plugin's state, the questions accepted when it ended, the
    environment and the requests it made. *)
Record Outcome := {
  out_result : result CollectError nat;
  out_plugin : Plugin;
  out_accepted : list QuizQuestion;
  out_world : World;
  out_trace : list Attempt
}.

Definition failed (e : CollectError) (p : Plugin) (w : World) : Outcome :=
  {| out_result := Throw e; out_plugin := p; out_accepted := [];
     out_world := w; out_trace := [] |}.

(** [addMoreQuestionsToCurrentQuiz(count)], for a plugin in the state
    [ensureUnlocked] leaves. [None] if the fuel of the loop runs out. *)
Definition addMoreQuestionsToCurrentQuiz (fuel : nat) (service : Service)
  (count : Z) (p : Plugin) (w : World) : option Outcome :=
  match vaultPlain p with
  | None => Some (failed VaultLocked p w)
  | Some v =>
      if negb (is_nonempty (apiKey v)) then Some (failed ApiKeyMissing p w)
      else
        let '(found, p1) := getCurrentQuiz p in
        match found with
        | None => Some (failed NoQuizLoaded p1 w)
        | Some quiz =>
            if submitted quiz then Some (failed QuizAlreadySubmitted p1 w)
            else
              let desired := clampInt (SNum count) 1 50 5 in
              let plan := buildQuestionTypePlan (settings v) desired in
              let totalQuestions := totalQuestionsFromPlan plan in
              if totalQuestions =? 0 then Some (failed PlanEmpty p1 w)
              else
                let source :=
                  match sourceText quiz with
                  | Some s =>
                      if is_nonempty (trim s) then Return (trim s)
                      else if is_nonempty (sourcePath quiz) then
                        match files p (sourcePath quiz) with
                        | Some text => Return (trim text)
                        | None => Throw SourceFileNotFound
                        end
                      else Throw NoSourceText
                  | None =>
                      if is_nonempty (sourcePath quiz) then
                        match files p (sourcePath quiz) with
                        | Some text => Return (trim text)
                        | None => Throw SourceFileNotFound
                        end
                      else Throw NoSourceText
                  end in
                match source with
                | Throw e => Some (failed e p1 w)
                | Return sourceText =>
                    let existingQuestions := map q_q (questions quiz) in
                    let existingNorm : gset jsstr :=
                      list_to_set (map normText existingQuestions) in
                    let existingTokenSets := map tokenSet existingQuestions in
                    match collect_loop fuel service v quiz sourceText existingQuestions
                            existingNorm existingTokenSets desired
                            {| collected := []; collectedNorm := ∅;
                               collectedTokenSets := [] |} 0%nat w [] with
                    | None => None
                    | Some (Throw e, acc, w1, trace) =>
                        Some {| out_result := Throw e; out_plugin := p1;
                                out_accepted := collected acc;
                                out_world := w1; out_trace := trace |}
                    | Some (Return _, acc, w1, trace) =>
                        match collected acc with
                        | [] =>
                            Some {| out_result := Throw NoNewQuestions; out_plugin := p1;
                                    out_accepted := []; out_world := w1;
                                    out_trace := trace |}
                        | _ =>
                            let '(shuffled, w2) := shuffleInPlace (collected acc) w1 in
                            let '(now, w3) := Date_now w2 in
                            let v' := {|
                              apiKey := apiKey v;
                              settings := settings v;
                              quizzes :=
                                update_first (quiz_id quiz)
                                  (fun q => {|
                                     quiz_id := quiz_id q; title := title q;
                                     sourcePath := sourcePath q;
                                     sourceText := Grading.sourceText q;
                                     created_at := created_at q;
                                     updated_at := now;
                                     difficulty := difficulty q;
                                     choicesCount := choicesCount q;
                                     quiz_model := quiz_model q;
                                     quiz_temperature := quiz_temperature q;
                                     questions := questions q ++ shuffled;
                                     currentIndex := currentIndex q;
                                     submitted := submitted q;
                                     submittedAt := submittedAt q;
                                     grade := grade q |})
                                  (quizzes v) |} in
                            Some {| out_result := Return (length (collected acc));
                                    out_plugin := {| vaultPlain := Some v';
                                                     currentQuizId := currentQuizId p1;
                                                     stored := Some v';
                                                     files := files p1 |};
                                    out_accepted := collected acc;
                                    out_world := w3; out_trace := trace |}
                        end
                    end
                end
        end
  end.

End Collector.
Export Collector.


(** ** What the specification says of a call to the collector *)

Module CollectorSpec.

(** The count a call asks for, clamped between 1 and 50. *)
Definition desired_count (count : Z) : Z := clampInt (SNum count) 1 50 5.

(** The batch size of an attempt is the smaller of 12 and what is still
    missing. *)
Definition batch_size_ok (desired : Z) (a : Attempt) : Prop :=
  reqCount a = Z.min 12 (desired - Z.of_nat (collected_before a))
  /\ Z.of_nat (collected_before a) < desired.

(** The vault in memory and the vault last written are those of [p]. *)
Definition nothing_changed (p p' : Plugin) : Prop :=
  vaultPlain p' = vaultPlain p /\ stored p' = stored p.

(** The questions of the current quiz. *)
Definition current_questions (p : Plugin) : option (list QuizQuestion) :=
  option_map questions (fst (getCurrentQuiz p)).

(** The errors raised before the first request, and those an attempt
    raises. *)
Definition precondition_failure (e : CollectError) : Prop :=
  match e with
  | VaultLocked | ApiKeyMissing | NoQuizLoaded | QuizAlreadySubmitted
  | PlanEmpty | SourceFileNotFound | NoSourceText => True
  | _ => False
  end.

Definition attempt_failure (e : CollectError) : Prop :=
  match e with
  | RequestFailed | ParseFailed _ | NormalizeFailed _ => True
  | _ => False
  end.

End CollectorSpec.
Export CollectorSpec.

(** ** The form of a normalized text *)

Module TextForm.

(** The text starts with a white-space character. *)
Definition head_is_space (s : jsstr) : bool :=
  match s with c :: _ => is_space c | [] => false end.

(** Every white-space character of the text is a space, and none is followed
    by another. *)
Fixpoint single_spaced (s : jsstr) : bool :=
  match s with
  | c :: r =>
      (if is_space c then N.eqb c space && negb (head_is_space r) else true)
      && single_spaced r
  | [] => true
  end.

(** The class [[a-z0-9]]. *)
Definition is_word_char (c : N) : bool :=
  ((97 <=? c) && (c <=? 122) || (48 <=? c) && (c <=? 57))%N.

(** The code units whose lower case has a character of [[a-z0-9]]: the
    ASCII letters and digits, U+0130 and the Kelvin sign. *)
Definition reaches_word (c : N) : bool :=
  ((65 <=? c) && (c <=? 90) || (97 <=? c) && (c <=? 122)
   || (48 <=? c) && (c <=? 57) || (c =? 304) || (c =? 8490))%N.

End TextForm.
Export TextForm.


(** ** What the collector accepts *)

Module Freshness.

(** The normalized texts and the token sets of the questions a quiz has, as
    [addMoreQuestionsToCurrentQuiz] builds them. *)
Definition existing_norms (old : list QuizQuestion) : gset jsstr :=
  list_to_set (map normText (map q_q old)).

Definition existing_token_sets (old : list QuizQuestion) : list (gset jsstr) :=
  map tokenSet (map q_q old).

(** The question is no near duplicate of a question of [old]. *)
Definition fresh_against (old : list QuizQuestion) (q : QuizQuestion) : Prop :=
  isNearDuplicate (q_q q) (existing_norms old) (existing_token_sets old) = false.

(** Neither question is a near duplicate of the other. *)
Definition distinct_questions (a b : QuizQuestion) : Prop :=
  isNearDuplicate (q_q b) {[normText (q_q a)]} [tokenSet (q_q a)] = false
  /\ isNearDuplicate (q_q a) {[normText (q_q b)]} [tokenSet (q_q b)] = false.

(** The accepted questions with the normalized texts and token sets the loop
    keeps of them: each is fresh against [old], and every two are distinct. *)
Definition accepted_fresh (old : list QuizQuestion) (acc : Collected) : Prop :=
  collectedNorm acc = list_to_set (map (fun q => normText (q_q q)) (collected acc))
  /\ collectedTokenSets acc = map (fun q => tokenSet (q_q q)) (collected acc)
  /\ Forall (fresh_against old) (collected acc)
  /\ ForallOrdPairs distinct_questions (collected acc).

End Freshness.
Export Freshness.


(** ** The random numbers a computation draws *)

Module Draws.

(** The environment after [n] calls of [Math.random()]. *)
Fixpoint advance (n : nat) (w : World) : World :=
  match n with
  | O => w
  | S n' => advance n' (snd (Math_random w))
  end.

(** No choice of the question has the number [x] as its index. *)
Definition no_choice_at (q : QuizQuestion) (x : Q) : Prop :=
  forall k : nat, (k < length (q_choices q))%nat -> ~ Qeq x (inject_Z (Z.of_nat k)).

End Draws.
Export Draws.


(** ** The quiz library: loading, copying and deleting quizzes *)

Module Library.

(** [setCurrentQuiz(id)]; the view it then renders is not modelled. *)
Definition setCurrentQuiz (id : Id) (p : Plugin) : Plugin :=
  {| vaultPlain := vaultPlain p; currentQuizId := Some id;
     stored := stored p; files := files p |}.

(** [quizzes[0]?.id ?? null]. *)
Definition first_quiz_id (l : list Quiz) : option Id :=
  match l with q :: _ => Some (quiz_id q) | [] => None end.

(** [deleteQuiz(id)]. [None]: the vault is null, and reading its quizzes
    throws a TypeError. *)
Definition deleteQuiz (id : Id) (p : Plugin) : option Plugin :=
  match vaultPlain p with
  | None => None
  | Some v =>
      let kept := List.filter (fun q => negb (bool_decide (quiz_id q = id))) (quizzes v) in
      Some {| vaultPlain :=
                Some {| apiKey := apiKey v; settings := settings v; quizzes := kept |};
              currentQuizId :=
                if bool_decide (currentQuizId p = Some id) then first_quiz_id kept
                else currentQuizId p;
              stored := stored p;
              files := files p |}
  end.

(** [JSON.stringify] writes a negative zero as [0]. *)
Definition json_number (x : float) : float :=
  match Prim2SF x with S754_zero _ => zero | _ => x end.

(** [q.user_answer_index = null]. *)
Definition clear_answer (q : QuizQuestion) : QuizQuestion :=
  {| q_id := q_id q; q_q := q_q q; q_choices := q_choices q;
     q_answer_index := q_answer_index q; q_explanation := q_explanation q;
     q_user_answer_index := None |}.

(** What a call of [copyQuiz] does: it throws a TypeError (the vault is
    null), or returns, leaving the plugin and the environment in a new state.
    The copy is made with [JSON.parse(JSON.stringify(orig))], which gives a
    quiz of equal strings, numbers and booleans, except that a temperature
    that is not finite comes back as null: the record has no place for that
    quiz, and the call is then outside the model. *)
Inductive Copied :=
| CopyThrows
| CopyOutsideModel
| CopyReturns (p : Plugin) (w : World).

Definition copyQuiz (id : Id) (p : Plugin) (w : World) : Copied :=
  match vaultPlain p with
  | None => CopyThrows
  | Some v =>
      match find_first (fun q => bool_decide (quiz_id q = id)) (quizzes v) with
      | None => CopyReturns p w
      | Some orig =>
          if negb (isFinite (quiz_temperature orig)) then CopyOutsideModel
          else
            let '(i, w1) := uid w in
            let '(created, w2) := Date_now w1 in
            let '(updated, w3) := Date_now w2 in
            let '(qs, w4) := randomizeQuestions (map clear_answer (questions orig)) w3 in
            let clone := {|
              quiz_id := i;
              title := title orig ++ js " (copy)";
              sourcePath := sourcePath orig;
              sourceText := sourceText orig;
              created_at := created;
              updated_at := updated;
              difficulty := difficulty orig;
              choicesCount := choicesCount orig;
              quiz_model := quiz_model orig;
              quiz_temperature := json_number (quiz_temperature orig);
              questions := qs;
              currentIndex := 0;
              submitted := false;
              submittedAt := None;
              grade := None |} in
            CopyReturns
              {| vaultPlain :=
                   Some {| apiKey := apiKey v; settings := settings v;
                           quizzes := quizzes v ++ [clone] |};
                 currentQuizId := Some i;
                 stored := stored p;
                 files := files p |}
              w4
      end
  end.

End Library.
Export Library.

(** ** Generating a quiz *)

Module Generator.

(** The errors of [generateFromText], by message: the unlock was refused,
    "API key missing. ...", "Source text is empty.", "Question plan is
    empty. ...", the request failed, an error of [safeParseJson], "Bad model
    output: missing questions." and an error of [normalizeQuestion]; and of
    [generateFromFile], that the file could not be read. *)
Inductive GenerateError :=
| GenLocked
| GenApiKeyMissing
| GenSourceEmpty
| GenPlanEmpty
| GenRequestFailed
| GenParseFailed (e : ParseError)
| GenMissingQuestions
| GenNormalizeFailed (e : NormalizeError)
| GenReadFailed.

(** What a call leaves behind: the quiz it made or its error, the plugin's
    state, the environment and the request it sent, if any. *)
Record Generated := {
  gen_result : result GenerateError Quiz;
  gen_plugin : Plugin;
  gen_world : World;
  gen_request : option Request
}.

(** The operand of [||] is truthy. *)
Definition truthy_value (v : option jsval) : bool :=
  match v with
  | None | Some JNull | Some (JBool false) | Some (JStr []) => false
  | Some (JNum x) =>
      match Prim2SF x with
      | S754_zero _ | S754_nan => false
      | _ => true
      end
  | _ => true
  end.

(** [String(parsed?.title || title || "Quiz").trim() || "Quiz"]. *)
Definition quiz_title (parsed : jsval) (title : jsstr) : jsstr :=
  let chosen :=
    if truthy_value (prop parsed "title") then ToString (prop parsed "title")
    else if is_nonempty title then title
    else js "Quiz" in
  if is_nonempty (trim chosen) then trim chosen else js "Quiz".

(** [generateFromText], for a plugin in the state [ensureUnlocked] leaves;
    the view it opens at the end is not modelled. The properties of the quiz
    object are evaluated in the order they are written: the identifier, the
    two times, then the questions. *)
Definition generateFromText (service : Service) (sourceText : jsstr) (count : Z)
  (title : jsstr) (diff : Difficulty) (choicesCount : Z) (sourcePath : option jsstr)
  (p : Plugin) (w : World) : Generated :=
  let fails e w' req :=
    {| gen_result := Throw e; gen_plugin := p; gen_world := w'; gen_request := req |} in
  match vaultPlain p with
  | None => fails GenLocked w None
  | Some v =>
      if negb (is_nonempty (apiKey v)) then fails GenApiKeyMissing w None
      else
        let text := trim sourceText in
        if negb (is_nonempty text) then fails GenSourceEmpty w None
        else
          let plan := buildQuestionTypePlan (settings v) count in
          let totalQuestions := totalQuestionsFromPlan plan in
          if totalQuestions =? 0 then fails GenPlanEmpty w None
          else
            let body := {|
              req_sourceText := text;
              req_title := title;
              req_plan := plan;
              req_difficulty := diff;
              req_choicesCount := choicesCount;
              req_customInstructions := customInstructions (settings v);
              req_avoidQuestions := [];
              req_model := model (settings v);
              req_temperature := temperature (settings v);
              req_max_output_tokens :=
                Z.max (maxTokens (settings v))
                      (recommendedMaxOutputTokens totalQuestions) |} in
            match service 0%nat body with
            | None => fails GenRequestFailed w (Some body)
            | Some json =>
                match safeParseJson (extractOutputText json) with
                | Throw e => fails (GenParseFailed e) w (Some body)
                | Return parsed =>
                    match prop parsed "questions" with
                    | Some (JArr (first :: rest)) =>
                        let '(i, w1) := uid w in
                        let '(created, w2) := Date_now w1 in
                        let '(updated, w3) := Date_now w2 in
                        match normalize_all (first :: rest) choicesCount w3 with
                        | (Throw e, w4) => fails (GenNormalizeFailed e) w4 (Some body)
                        | (Return normalized, w4) =>
                            let '(qs, w5) := randomizeQuestions normalized w4 in
                            let path :=
                              match sourcePath with Some s => s | None => [] end in
                            let quiz := {|
                              quiz_id := i;
                              title := quiz_title parsed title;
                              sourcePath := path;
                              sourceText :=
                                if is_nonempty path then None else Some text;
                              created_at := created;
                              updated_at := updated;
                              difficulty := diff;
                              choicesCount := choicesCount;
                              quiz_model := model (settings v);
                              quiz_temperature := temperature (settings v);
                              questions := qs;
                              currentIndex := 0;
                              submitted := false;
                              submittedAt := None;
                              grade := None |} in
                            let v' := {| apiKey := apiKey v; settings := settings v;
                                         quizzes := quizzes v ++ [quiz] |} in
                            {| gen_result := Return quiz;
                               gen_plugin := {| vaultPlain := Some v';
                                                currentQuizId := Some i;
                                                stored := Some v';
                                                files := files p |};
                               gen_world := w5;
                               gen_request := Some body |}
                        end
                    | _ => fails GenMissingQuestions w (Some body)
                    end
                end
            end
  end.

(** A note of the workspace. *)
Record TFile := { file_path : jsstr; file_basename : jsstr }.

(** [(title || "").trim() || file.basename || "Quiz"]. *)
Definition file_title (title : jsstr) (file : TFile) : jsstr :=
  if is_nonempty (trim title) then trim title
  else if is_nonempty (file_basename file) then file_basename file
  else js "Quiz".

(** [generateFromFile]: the text is read from the workspace first. *)
Definition generateFromFile (service : Service) (file : TFile) (count : Z)
  (title : jsstr) (diff : Difficulty) (choicesCount : Z) (p : Plugin) (w : World)
  : Generated :=
  match files p (file_path file) with
  | None =>
      {| gen_result := Throw GenReadFailed; gen_plugin := p; gen_world := w;
         gen_request := None |}
  | Some text =>
      generateFromText service text count (file_title title file) diff choicesCount
        (Some (file_path file)) p w
  end.

End Generator.
Export Generator.

(** ** The quiz view: the question shown and the handlers of its buttons *)

Module QuizView.

(** [clampInt(quiz.currentIndex, 0, quiz.questions.length - 1, 0)]: the
    index of the question [renderQuiz] shows. *)
Definition shown_index (quiz : Quiz) : Z :=
  clampInt (SNum (currentIndex quiz)) 0 (Z.of_nat (length (questions quiz)) - 1) 0.

Definition with_index (quiz : Quiz) (i : Z) : Quiz :=
  {| quiz_id := quiz_id quiz; title := title quiz; sourcePath := sourcePath quiz;
     sourceText := sourceText quiz; created_at := created_at quiz;
     updated_at := updated_at quiz; difficulty := difficulty quiz;
     choicesCount := choicesCount quiz; quiz_model := quiz_model quiz;
     quiz_temperature := quiz_temperature quiz; questions := questions quiz;
     currentIndex := i; submitted := submitted quiz;
     submittedAt := submittedAt quiz; grade := grade quiz |}.

(** What [renderQuiz] does to the quiz it shows: it stores the index in
    [quiz.currentIndex] and reads the question [quiz.questions[idx]]. [None]:
    that question is undefined, and reading its text throws a TypeError. *)
Definition renderQuiz (quiz : Quiz) : option (Quiz * QuizQuestion) :=
  let idx := shown_index quiz in
  match questions quiz !! Z.to_nat idx with
  | Some q => Some (with_index quiz idx, q)
  | None => None
  end.

(** The handlers [renderQuiz] installs, on the quiz as it left it: [idx] is
    the index it stored. Prev, Next and the dot of question [i]: *)
Definition click_prev (quiz : Quiz) : Quiz :=
  with_index quiz (Z.max 0 (currentIndex quiz - 1)).

Definition click_next (quiz : Quiz) : Quiz :=
  with_index quiz
    (Z.min (Z.of_nat (length (questions quiz)) - 1) (currentIndex quiz + 1)).

Definition click_dot (i : nat) (quiz : Quiz) : Quiz := with_index quiz (Z.of_nat i).

Definition answer_with (i : nat) (q : QuizQuestion) : QuizQuestion :=
  {| q_id := q_id q; q_q := q_q q; q_choices := q_choices q;
     q_answer_index := q_answer_index q; q_explanation := q_explanation q;
     q_user_answer_index := Some (inject_Z (Z.of_nat i)) |}.

Definition with_questions (quiz : Quiz) (qs : list QuizQuestion) (now : N) : Quiz :=
  {| quiz_id := quiz_id quiz; title := title quiz; sourcePath := sourcePath quiz;
     sourceText := sourceText quiz; created_at := created_at quiz;
     updated_at := now; difficulty := difficulty quiz;
     choicesCount := choicesCount quiz; quiz_model := quiz_model quiz;
     quiz_temperature := quiz_temperature quiz; questions := qs;
     currentIndex := currentIndex quiz; submitted := submitted quiz;
     submittedAt := submittedAt quiz; grade := grade quiz |}.

(** The button of choice [i] of the question shown: nothing once the quiz is
    submitted. *)
Definition click_choice (i : nat) (quiz : Quiz) (w : World) : Quiz * World :=
  if submitted quiz then (quiz, w)
  else
    match questions quiz !! Z.to_nat (currentIndex quiz) with
    | None => (quiz, w)
    | Some q =>
        let '(now, w') := Date_now w in
        (with_questions quiz
           (<[Z.to_nat (currentIndex quiz) := answer_with i q]> (questions quiz)) now,
         w')
    end.

(** Submit Quiz (the button is disabled once the quiz is submitted). *)
Definition click_submit (quiz : Quiz) (w : World) : Quiz * World :=
  let g := computeGrade quiz in
  let '(at_, w1) := Date_now w in
  let '(now, w2) := Date_now w1 in
  ({| quiz_id := quiz_id quiz; title := title quiz; sourcePath := sourcePath quiz;
      sourceText := sourceText quiz; created_at := created_at quiz;
      updated_at := now; difficulty := difficulty quiz;
      choicesCount := choicesCount quiz; quiz_model := quiz_model quiz;
      quiz_temperature := quiz_temperature quiz; questions := questions quiz;
      currentIndex := currentIndex quiz; submitted := true;
      submittedAt := Some at_; grade := Some g |}, w2).

End QuizView.
Export QuizView.

(** ** Quizzes that can be shown and graded *)

Module Soundness.

(** The question has [n] choices, and its answer index is the whole-number
    index of one of them. *)
Definition sound_question (n : Z) (q : QuizQuestion) : Prop :=
  Z.of_nat (length (q_choices q)) = n
  /\ exists k : nat,
       q_answer_index q = inject_Z (Z.of_nat k) /\ (k < length (q_choices q))%nat.

(** The quiz has a question, and each of its questions is sound for the
    number of choices the quiz was made with. *)
Definition sound_quiz (quiz : Quiz) : Prop :=
  1 <= choicesCount quiz
  /\ questions quiz <> []
  /\ Forall (sound_question (choicesCount quiz)) (questions quiz).

(** Every quiz of the unlocked vault is sound. *)
Definition sound_vault (p : Plugin) : Prop :=
  forall v, vaultPlain p = Some v -> Forall sound_quiz (quizzes v).

(** No quiz of the vault has the identifier. *)
Definition fresh_id (i : Id) (p : Plugin) : Prop :=
  forall v, vaultPlain p = Some v -> Forall (fun q => quiz_id q <> i) (quizzes v).

(** The quiz with the questions [added] appended and the time of the update
    set, as [addMoreQuestionsToCurrentQuiz] changes the current quiz. *)
Definition with_added (added : list QuizQuestion) (now : N) (q : Quiz) : Quiz :=
  {| quiz_id := quiz_id q; title := title q; sourcePath := sourcePath q;
     sourceText := sourceText q; created_at := created_at q; updated_at := now;
     difficulty := difficulty q; choicesCount := choicesCount q;
     quiz_model := quiz_model q; quiz_temperature := quiz_temperature q;
     questions := questions q ++ added; currentIndex := currentIndex q;
     submitted := submitted q; submittedAt := submittedAt q; grade := grade q |}.

End Soundness.
Export Soundness.


(** ** JSON texts under the bracket scan *)

Module Scanning.

(** The value is an object or an array. *)
Definition is_container (v : jsval) : bool :=
  match v with JArr _ | JObj _ => true | _ => false end.

(** The scanner state outside string literals at depth [d], and inside one. *)
Definition outside (d : Z) : scan := Scan false false d.
Definition inside (d : Z) : scan := Scan true false d.

(** A character the scan passes over outside a string literal: no double
    quote, opener or closer. *)
Definition plain_char (c : N) : bool :=
  negb (N.eqb c dquote) && negb (is_opener c) && negb (is_closer c).

(** Outside a string literal the scan leaves the text at the depth at which
    it entered it. *)
Definition balanced (m : jsstr) : Prop :=
  forall d, fold_left scan_char m (outside d) = outside d.

(** The parser [pv] of one value consumes a balanced text. *)
Definition value_balanced (pv : jsstr -> option (jsval * jsstr)) : Prop :=
  forall s v rest, pv s = Some (v, rest) -> exists pre, s = pre ++ rest /\ balanced pre.

(** The text [r] is what remains of [s] after a prefix of plain
    characters. *)
Definition plain_reach (s r : jsstr) : Prop :=
  exists pre, s = pre ++ r /\ forallb plain_char pre = true.

(** The text [r] is what remains of [s] after a balanced prefix. *)
Definition balanced_reach (s r : jsstr) : Prop :=
  exists mid, s = mid ++ r /\ balanced mid.

(** A text between an opener and a closer with a balanced text between
    them, and JSON white space before it. *)
Definition bracketed (s rest : jsstr) : Prop :=
  exists w o mid c,
    s = w ++ o :: mid ++ c :: rest
    /\ forallb is_json_ws w = true
    /\ is_opener o = true /\ is_closer c = true /\ balanced mid.

End Scanning.
Export Scanning.


(** ** Sample data for the worked examples *)

Module Samples.

(** An environment whose random numbers are all 0 and whose clock stands
    still. *)
Definition still_world : World :=
  {| random := fun _ => UnitInterval 0 1 eq_refl; clock := fun _ => 0%N |}.

(** An environment whose random numbers are 2/3, 1/4 and then 1/2 for
    ever. *)
Definition turning_world : World :=
  {| random := fun n =>
       match n with
       | O => UnitInterval 2 3 eq_refl
       | S O => UnitInterval 1 4 eq_refl
       | _ => UnitInterval 1 2 eq_refl
       end;
     clock := fun _ => 0%N |}.

(** A raw candidate: question text, choices, the answer index and further
    properties. *)
Definition raw_question (text : string) (choices : list string) (answer_index : float)
  (more : list (jsstr * jsval)) : jsval :=
  JObj ([(js "q", JStr (js text));
         (js "choices", JArr (map (fun c => JStr (js c)) choices));
         (js "answer_index", JNum answer_index)] ++ more).


(** A four-choice question with the given answer and user answer. *)
Definition sample_question (answer : Z) (user : option Z) : QuizQuestion := {|
  q_id := Uid (UnitInterval 0 1 eq_refl) 0;
  q_q := js "Capital of France?";
  q_choices := [js "Rome"; js "Oslo"; js "Paris"; js "Bern"];
  q_answer_index := inject_Z answer;
  q_explanation := [];
  q_user_answer_index := option_map inject_Z user |}.

Definition sample_quiz (qs : list QuizQuestion) : Quiz := {|
  quiz_id := Uid (UnitInterval 0 1 eq_refl) 0;
  title := js "Quiz";
  sourcePath := [];
  sourceText := Some (js "Paris is the capital of France.");
  created_at := 0;
  updated_at := 0;
  difficulty := medium;
  choicesCount := 4;
  quiz_model := model DEFAULT_SETTINGS;
  quiz_temperature := temperature DEFAULT_SETTINGS;
  questions := qs;
  currentIndex := 0;
  submitted := false;
  submittedAt := None;
  grade := None |}.

(** A vault with one quiz holding the sample question, and the plugin that
    has it unlocked and current. *)
Definition sample_vault : VaultPlain := {|
  apiKey := js "key";
  settings := DEFAULT_SETTINGS;
  quizzes := [sample_quiz [sample_question 2 None]] |}.

Definition sample_plugin : Plugin := {|
  vaultPlain := Some sample_vault;
  currentQuizId := Some (quiz_id (sample_quiz []));
  stored := Some sample_vault;
  files := fun _ => None |}.

(** The body of a response whose aggregated text is [text]. *)
Definition response (text : jsstr) : jsval := JObj [(js "output_text", JStr text)].

(** A service that always sends back the question the sample quiz has. *)
Definition repeating_service : Service := fun _ _ =>
  Some (response (jsq
    "{'title':'t','questions':[{'q':'Capital of France?','choices':['Rome','Oslo','Paris','Bern'],'answer_index':2}]}")).

(** A service that sends one new question and then text that is no JSON. *)
Definition failing_service : Service := fun n _ =>
  match n with
  | O => Some (response (jsq
      "{'title':'t','questions':[{'q':'Name the longest river in Egypt','choices':['Nile','Congo','Niger','Volta'],'answer_index':0}]}"))
  | _ => Some (response (js "not json at all"))
  end.

(** A service that sends, in one answer, a new question, the same question
    in other letter case and punctuation, the question the sample quiz has,
    and a second new question. *)
Definition fresh_service : Service := fun _ _ =>
  Some (response (jsq
    "{'title':'t','questions':[{'q':'Name the longest river in Egypt','choices':['Nile','Congo','Niger','Volta'],'answer_index':0},{'q':'name the LONGEST river in egypt!','choices':['Nile','Congo','Niger','Volta'],'answer_index':0},{'q':'Capital of France?','choices':['Rome','Oslo','Paris','Bern'],'answer_index':2},{'q':'Which planet is the largest?','choices':['Mars','Venus','Jupiter','Saturn'],'answer_index':2}]}")).

(** A second quiz, with an identifier of its own, and the plugin whose vault
    holds the sample quiz and this one, the sample quiz being current. *)
Definition other_quiz : Quiz := {|
  quiz_id := Uid (UnitInterval 1 2 eq_refl) 5;
  title := js "Rivers";
  sourcePath := js "notes/rivers.md";
  sourceText := None;
  created_at := 1;
  updated_at := 1;
  difficulty := easy;
  choicesCount := 4;
  quiz_model := model DEFAULT_SETTINGS;
  quiz_temperature := temperature DEFAULT_SETTINGS;
  questions := [sample_question 1 (Some 1); sample_question 3 None];
  currentIndex := 7;
  submitted := false;
  submittedAt := None;
  grade := None |}.

Definition library_plugin : Plugin := {|
  vaultPlain := Some {| apiKey := js "key"; settings := DEFAULT_SETTINGS;
                        quizzes := [sample_quiz [sample_question 2 None]; other_quiz] |};
  currentQuizId := Some (quiz_id (sample_quiz []));
  stored := None;
  files := fun _ => None |}.

(** A service whose answer holds a question with three choices. *)
Definition short_service : Service := fun _ _ =>
  Some (response (jsq
    "{'title':'t','questions':[{'q':'Name the longest river in Egypt','choices':['Nile','Congo','Niger','Volta'],'answer_index':0},{'q':'Which planet is the largest?','choices':['Mars','Venus','Jupiter'],'answer_index':2}]}")).

End Samples.
Export Samples.

(** * Properties *)

(** ** The fuel of the JSON parser *)

Section ParserFuel.

Lemma skip_ws_length s : (length (skip_ws s) <= length s)%nat.
Proof.
  induction s as [|c r IH]; [reflexivity|].
  cbn [skip_ws]. destruct (is_json_ws c); cbn [length]; lia.
Qed.

Lemma parse_chars_length s acc str r :
  parse_chars s acc = Some (str, r) -> (length r < length s)%nat.
Proof.
  remember (length s) as n eqn:Hn. revert s acc Hn.
  induction n as [n IH] using lt_wf_ind. intros s acc -> H.
  destruct s as [|c s]; [discriminate|]. cbn [parse_chars] in H.
  repeat case_match; simplify_eq; cbn [length];
    try lia;
    match goal with
    | H : parse_chars ?t _ = Some _ |- _ =>
        pose proof (IH (length t) ltac:(cbn [length]; lia) t _ eq_refl H);
        cbn [length] in *; lia
    end.
Qed.

Lemma span_digits_length s v n :
  (length (snd (span_digits s v n)) <= length s)%nat.
Proof.
  revert v n. induction s as [|c r IH]; intros v n; [reflexivity|].
  cbn [span_digits]. destruct (is_digit c); cbn [length snd]; [|lia].
  specialize (IH (10 * v + Z.of_N (c - 48)) (S n)). lia.
Qed.

Lemma parse_number_length s x r :
  parse_number s = Some (x, r) -> (length r <= length s)%nat.
Proof.
  unfold parse_number. intros H.
  repeat case_match; simplify_eq;
    repeat match goal with
    | H : span_digits ?t ?v ?n = (_, _, ?u) |- _ =>
        let L := fresh "L" in
        pose proof (span_digits_length t v n) as L; rewrite H in L;
        cbn [snd] in L; clear H
    end; cbn [length] in *; lia.
Qed.


Ltac skip_ws_facts :=
  repeat match goal with
  | H : skip_ws ?t = _ |- _ =>
      let L := fresh "L" in
      pose proof (skip_ws_length t) as L; rewrite H in L; clear H
  end.

Ltac parse_chars_facts :=
  repeat match goal with
  | H : parse_chars ?t _ = Some _ |- _ =>
      apply parse_chars_length in H
  end.

Lemma parse_members_length fuel pv s acc v r :
  shortening pv ->
  parse_members fuel pv s acc = Some (v, r) -> (length r <= length s)%nat.
Proof.
  intros Hpv. revert s acc.
  induction fuel as [|fuel IH]; intros s acc H; [discriminate|].
  cbn [parse_members] in H.
  repeat case_match; simplify_eq;
    try match goal with H : pv _ = Some _ |- _ => apply Hpv in H end;
    try match goal with H : parse_members _ _ _ _ = Some _ |- _ => apply IH in H end;
    skip_ws_facts; parse_chars_facts; cbn [length] in *; lia.
Qed.

Lemma parse_elements_length fuel pv s acc v r :
  shortening pv ->
  parse_elements fuel pv s acc = Some (v, r) -> (length r <= length s)%nat.
Proof.
  intros Hpv. revert s acc.
  induction fuel as [|fuel IH]; intros s acc H; [discriminate|].
  cbn [parse_elements] in H.
  repeat case_match; simplify_eq;
    try match goal with H : pv _ = Some _ |- _ => apply Hpv in H end;
    try match goal with H : parse_elements _ _ _ _ = Some _ |- _ => apply IH in H end;
    skip_ws_facts; cbn [length] in *; lia.
Qed.

Lemma parse_value_length fuel : shortening (parse_value fuel).
Proof.
  induction fuel as [|fuel IH]; intros s v r H; [discriminate|].
  cbn [parse_value] in H.
  repeat case_match; simplify_eq;
    try match goal with
      H : parse_members _ _ _ _ = Some _ |- _ =>
        apply (parse_members_length _ _ _ _ _ _ IH) in H end;
    try match goal with
      H : parse_elements _ _ _ _ = Some _ |- _ =>
        apply (parse_elements_length _ _ _ _ _ _ IH) in H end;
    try match goal with
      H : parse_number _ = Some _ |- _ => apply parse_number_length in H end;
    skip_ws_facts; parse_chars_facts;
    rewrite ?length_drop; cbn [length] in *; lia.
Qed.

Lemma parse_members_fuel f1 : forall f2 pv1 pv2 s acc,
  shortening pv1 -> agree_upto (length s) pv1 pv2 ->
  (length s < f1)%nat -> (length s < f2)%nat ->
  parse_members f1 pv1 s acc = parse_members f2 pv2 s acc.
Proof.
  induction f1 as [|f1 IH]; intros f2 pv1 pv2 s acc Hs Ha H1 H2; [lia|].
  destruct f2 as [|f2]; [lia|]. cbn [parse_members].
  destruct (skip_ws s) as [|q r] eqn:E1; [reflexivity|].
  destruct (N.eqb q dquote); [|reflexivity].
  destruct (parse_chars r []) as [[k r1]|] eqn:E2; [|reflexivity].
  destruct (skip_ws r1) as [|c r2] eqn:E3; [reflexivity|].
  destruct (N.eqb c (ch ":")); [|reflexivity].
  skip_ws_facts; parse_chars_facts; cbn [length] in *.
  rewrite <- (Ha r2) by lia.
  destruct (pv1 r2) as [[v r3]|] eqn:E4; [|reflexivity].
  apply Hs in E4.
  destruct (skip_ws r3) as [|d r4] eqn:E5; [reflexivity|].
  skip_ws_facts; cbn [length] in *.
  destruct (N.eqb d comma); [|reflexivity].
  apply IH; [assumption| |lia|lia].
  intros t Ht. apply Ha. lia.
Qed.

Lemma parse_elements_fuel f1 : forall f2 pv1 pv2 s acc,
  shortening pv1 -> agree_upto (length s) pv1 pv2 ->
  (length s < f1)%nat -> (length s < f2)%nat ->
  parse_elements f1 pv1 s acc = parse_elements f2 pv2 s acc.
Proof.
  induction f1 as [|f1 IH]; intros f2 pv1 pv2 s acc Hs Ha H1 H2; [lia|].
  destruct f2 as [|f2]; [lia|]. cbn [parse_elements].
  rewrite <- (Ha s) by lia.
  destruct (pv1 s) as [[v r]|] eqn:E1; [|reflexivity].
  apply Hs in E1.
  destruct (skip_ws r) as [|d r'] eqn:E2; [reflexivity|].
  skip_ws_facts; cbn [length] in *.
  destruct (N.eqb d comma); [|reflexivity].
  apply IH; [assumption| |lia|lia].
  intros t Ht. apply Ha. lia.
Qed.

(** The parser does not depend on its fuel once the fuel exceeds the length
    of the text: it never stops for want of fuel. *)
Lemma parse_value_fuel f1 : forall f2 s,
  (length s < f1)%nat -> (length s < f2)%nat ->
  parse_value f1 s = parse_value f2 s.
Proof.
  induction f1 as [|f1 IH]; intros f2 s H1 H2; [lia|].
  destruct f2 as [|f2]; [lia|]. cbn [parse_value].
  destruct (skip_ws s) as [|c r] eqn:E1; [reflexivity|].
  skip_ws_facts; cbn [length] in *.
  destruct (N.eqb c lbrace).
  { destruct (skip_ws r) as [|d r'] eqn:E2; [reflexivity|].
    destruct (N.eqb d rbrace); [reflexivity|].
    apply parse_members_fuel; [apply parse_value_length| |lia|lia].
    intros t Ht. apply IH; lia. }
  destruct (N.eqb c lbracket); [|reflexivity].
  destruct (skip_ws r) as [|d r'] eqn:E2; [reflexivity|].
  destruct (N.eqb d rbracket); [reflexivity|].
  apply parse_elements_fuel; [apply parse_value_length| |lia|lia].
  intros t Ht. apply IH; lia.
Qed.

(** [JSON.parse] with any fuel above the length of the text. *)
Lemma JSON_parse_fuel fuel s :
  (length s < fuel)%nat ->
  JSON_parse s
  = match parse_value fuel s with
    | Some (v, rest) => match skip_ws rest with [] => Some v | _ => None end
    | None => None
    end.
Proof.
  intros H. unfold JSON_parse.
  rewrite (parse_value_fuel (S (length s)) fuel s) by lia. reflexivity.
Qed.

End ParserFuel.

(** ** The bracket scan *)

Section BalancedScan.

Lemma at_closer_spec st c :
  at_closer st c = negb (inStr st) && is_closer c.
Proof.
  unfold at_closer, is_closer, is_opener, dquote, lbrace, lbracket, rbrace, rbracket.
  destruct (inStr st); simpl; [reflexivity|].
  destruct (N.eqb_spec c 125) as [->|]; [reflexivity|].
  destruct (N.eqb_spec c 93) as [->|]; [reflexivity|].
  simpl. rewrite andb_false_r. reflexivity.
Qed.

Lemma scan_char_closer_depth st c :
  at_closer st c = true -> depth (scan_char st c) = depth st - 1.
Proof.
  rewrite at_closer_spec. intros H. apply andb_prop in H as [Hs Hc].
  apply negb_true_iff in Hs. unfold scan_char. rewrite Hs.
  unfold is_closer, is_opener, dquote, lbrace, lbracket, rbrace, rbracket in *.
  destruct (N.eqb_spec c 125) as [->|]; [reflexivity|].
  destruct (N.eqb_spec c 93) as [->|]; [reflexivity|]. discriminate.
Qed.

Lemma closes_rel_0 st c r :
  closes_rel st (c :: r) 0 = negb (inStr st) && is_closer c && (depth st - 1 =? 0).
Proof. reflexivity. Qed.

Lemma closes_rel_S st c r k :
  closes_rel st (c :: r) (S k) = closes_rel (scan_char st c) r k.
Proof. reflexivity. Qed.

Lemma closes_rel_nil st k : closes_rel st [] k = false.
Proof. destruct k; reflexivity. Qed.

(** What [balanced_scan] returns: the last offset at which the depth returns
    to zero, or what it was given when there is none. *)
Lemma balanced_scan_spec cs : forall st last i,
  match balanced_scan st last i cs with
  | Some e =>
      (exists k, e = (i + k)%nat /\ closes_rel st cs k = true
                 /\ forall k', (k < k')%nat -> closes_rel st cs k' = false)
      \/ (last = Some e /\ forall k, closes_rel st cs k = false)
  | None => last = None /\ forall k, closes_rel st cs k = false
  end.
Proof.
  induction cs as [|c r IH]; intros st last i; simpl.
  - destruct last; [right|]; split; auto using closes_rel_nil.
  - specialize (IH (scan_char st c)
      (if at_closer st c && (depth (scan_char st c) =? 0) then Some i else last) (S i)).
    assert (Hhere : at_closer st c && (depth (scan_char st c) =? 0)
                    = closes_rel st (c :: r) 0).
    { rewrite closes_rel_0. destruct (at_closer st c) eqn:E.
      - rewrite (scan_char_closer_depth _ _ E). rewrite at_closer_spec in E.
        rewrite E. reflexivity.
      - rewrite at_closer_spec in E. rewrite E. reflexivity. }
    rewrite Hhere in IH |- *.
    destruct (balanced_scan (scan_char st c) _ (S i) r) as [e|].
    + destruct IH as [(k & -> & Hk & Hlast) | [Hl Hnone]].
      * left. exists (S k). split; [lia|]. split; [exact Hk|].
        intros [|k'] Hlt; [lia|]. rewrite closes_rel_S. apply Hlast. lia.
      * destruct (closes_rel st (c :: r) 0) eqn:E0.
        -- injection Hl as <-. left. exists 0%nat. split; [lia|]. split; [exact E0|].
           intros [|k'] Hlt; [lia|]. rewrite closes_rel_S. apply Hnone.
        -- right. split; [exact Hl|]. intros [|k]; [exact E0|].
           rewrite closes_rel_S. apply Hnone.
    + destruct IH as [Hl Hnone].
      destruct (closes_rel st (c :: r) 0) eqn:E0; [discriminate|].
      split; [exact Hl|]. intros [|k]; [exact E0|]. rewrite closes_rel_S. apply Hnone.
Qed.

Lemma findLastBalancedJsonEnd_spec s start :
  match findLastBalancedJsonEnd s start with
  | Some e => closes_at s start e = true
              /\ forall j, (e < j)%nat -> closes_at s start j = false
  | None => forall j, closes_at s start j = false
  end.
Proof.
  unfold findLastBalancedJsonEnd, closes_at.
  pose proof (balanced_scan_spec (drop start s) scan0 None start) as H.
  destruct (balanced_scan scan0 None start (drop start s)) as [e|].
  - destruct H as [(k & -> & Hk & Hlast) | [Hl _]]; [|discriminate].
    split.
    + replace (start + k - start)%nat with k by lia. rewrite Hk.
      apply andb_true_intro. split; [apply Nat.leb_le; lia | reflexivity].
    + intros j Hj. rewrite Hlast by lia. apply andb_false_r.
  - destruct H as [_ Hnone]. intros j. rewrite Hnone. apply andb_false_r.
Qed.

End BalancedScan.

Lemma first_balanced_scan_spec cs : forall st i,
  match first_balanced_scan st i cs with
  | Some e => exists k, e = (i + k)%nat /\ closes_rel st cs k = true
                        /\ forall k', (k' < k)%nat -> closes_rel st cs k' = false
  | None => forall k, closes_rel st cs k = false
  end.
Proof.
  induction cs as [|c r IH]; intros st i; simpl.
  - apply closes_rel_nil.
  - pose proof (closes_rel_0 st c r) as H0.
    destruct (negb (inStr st) && is_closer c && (depth st - 1 =? 0)) eqn:E.
    + exists 0%nat. split; [lia|]. split; [exact H0|]. intros k' Hk. lia.
    + specialize (IH (scan_char st c) (S i)).
      destruct (first_balanced_scan (scan_char st c) (S i) r) as [e|].
      * destruct IH as (k & -> & Hk & Hbefore). exists (S k).
        split; [lia|]. split; [exact Hk|].
        intros [|k'] Hlt; [exact H0|]. rewrite closes_rel_S. apply Hbefore. lia.
      * intros [|k]; [exact H0|]. rewrite closes_rel_S. apply IH.
Qed.

Lemma findFirstBalancedJsonEnd_spec s start :
  match findFirstBalancedJsonEnd s start with
  | Some e => closes_at s start e = true
              /\ forall j, (j < e)%nat -> closes_at s start j = false
  | None => forall j, closes_at s start j = false
  end.
Proof.
  unfold findFirstBalancedJsonEnd, closes_at.
  pose proof (first_balanced_scan_spec (drop start s) scan0 start) as H.
  destruct (first_balanced_scan scan0 start (drop start s)) as [e|].
  - destruct H as (k & -> & Hk & Hbefore). split.
    + replace (start + k - start)%nat with k by lia. rewrite Hk.
      apply andb_true_intro. split; [apply Nat.leb_le; lia | reflexivity].
    + intros j Hj. destruct (start <=? j)%nat eqn:E; [|reflexivity].
      apply Nat.leb_le in E. simpl. apply Hbefore. lia.
  - intros j. rewrite H. apply andb_false_r.
Qed.

(** ** The candidate start *)

Lemma indexOf_from_spec c s : forall i,
  (indexOf_from c s i = -1 /\ forall j d, s !! j = Some d -> d <> c)
  \/ (exists k, indexOf_from c s i = i + Z.of_nat k /\ s !! k = Some c
                /\ forall j d, (j < k)%nat -> s !! j = Some d -> d <> c).
Proof.
  induction s as [|d r IH]; intros i; simpl.
  - left. split; [reflexivity|]. intros j d H. destruct j; discriminate.
  - destruct (N.eqb_spec d c) as [->|Hne].
    + right. exists 0%nat. split; [lia|]. split; [reflexivity|]. intros j d Hj. lia.
    + destruct (IH (i + 1)) as [[H Hall] | (k & H & Hk & Hbefore)].
      * left. split; [exact H|]. intros [|j] d' Hd.
        -- injection Hd as <-. exact Hne.
        -- apply (Hall j). exact Hd.
      * right. exists (S k). split; [lia|]. split; [exact Hk|].
        intros [|j] d' Hj Hd.
        -- injection Hd as <-. exact Hne.
        -- apply (Hbefore j); [lia | exact Hd].
Qed.

(** [candidate_start] is the index of the earliest brace or bracket, and
    negative when the text has neither. *)
Lemma candidate_start_spec cleaned :
  (candidate_start cleaned = -1
   /\ forall j d, cleaned !! j = Some d -> is_opener d = false)
  \/ (exists start c, candidate_start cleaned = Z.of_nat start
        /\ cleaned !! start = Some c /\ is_opener c = true
        /\ forall j d, (j < start)%nat -> cleaned !! j = Some d -> is_opener d = false).
Proof.
  unfold candidate_start, indexOf.
  assert (Hop : forall d, d <> lbrace -> d <> lbracket -> is_opener d = false).
  { intros d H1 H2. unfold is_opener.
    destruct (N.eqb_spec d lbrace); [contradiction|].
    destruct (N.eqb_spec d lbracket); [contradiction|]. reflexivity. }
  destruct (indexOf_from_spec lbrace cleaned 0) as [[Ho Hno] | (ko & Ho & Hko & Hbo)];
    destruct (indexOf_from_spec lbracket cleaned 0) as [[Ha Hna] | (ka & Ha & Hka & Hba)];
    try rewrite Z.add_0_l in Ho; try rewrite Z.add_0_l in Ha; rewrite Ho, Ha.
  - left. split; [reflexivity|]. intros j d Hd. apply Hop; eauto.
  - right. exists ka, lbracket. simpl. split; [reflexivity|].
    split; [exact Hka|]. split; [reflexivity|].
    intros j d Hj Hd. apply Hop; eauto.
  - right. exists ko, lbrace.
    replace (0 <=? Z.of_nat ko) with true by (symmetry; apply Z.leb_le; lia).
    simpl. split; [reflexivity|]. split; [exact Hko|]. split; [reflexivity|].
    intros j d Hj Hd. apply Hop; eauto.
  - right.
    replace (0 <=? Z.of_nat ko) with true by (symmetry; apply Z.leb_le; lia).
    replace (Z.of_nat ka <? 0) with false by (symmetry; apply Z.ltb_ge; lia).
    simpl. destruct (Z.ltb_spec (Z.of_nat ko) (Z.of_nat ka)) as [Hlt|Hge].
    + exists ko, lbrace. split; [reflexivity|]. split; [exact Hko|].
      split; [reflexivity|]. intros j d Hj Hd.
      apply Hop; [eapply Hbo | eapply Hba]; eauto; lia.
    + exists ka, lbracket. split; [reflexivity|]. split; [exact Hka|].
      split; [reflexivity|]. intros j d Hj Hd.
      assert (ka <> ko) by (intros ->; rewrite Hko in Hka; discriminate).
      apply Hop; [eapply Hbo | eapply Hba]; eauto; lia.
Qed.

(** ** C1: which balanced structure the recovery parser tries *)

(** C1 (as amended). When the direct parse of the repaired text fails and the
    text has a brace or a bracket, the candidate starts at the earliest one
    and ends at the LAST index at which the string-aware nesting depth
    returns to exactly zero (none when it never does): no later index
    closes to zero, and when the repaired candidate parses, its value is what
    [safeParseJson] returns. *)
Theorem safeParseJson_candidate_ends_at_last_balanced (text : jsstr) (start : nat) :
  let cleaned := repairJsonCommon (trim text) in
  trim text <> [] ->
  JSON_parse cleaned = None ->
  candidate_start cleaned = Z.of_nat start ->
  (exists c, cleaned !! start = Some c /\ is_opener c = true)
  /\ (forall j d, (j < start)%nat -> cleaned !! j = Some d -> is_opener d = false)
  /\ match findLastBalancedJsonEnd cleaned start with
     | Some e =>
         closes_at cleaned start e = true
         /\ (forall j, (e < j)%nat -> closes_at cleaned start j = false)
         /\ (forall v,
               JSON_parse (repairJsonCommon (slice cleaned start (e + 1))) = Some v ->
               safeParseJson text = Return v)
     | None => forall j, closes_at cleaned start j = false
     end.
Proof.
  intros cleaned Hraw Hdirect Hstart.
  destruct (candidate_start_spec cleaned) as [[Hneg _] | (s0 & c & Hs0 & Hc & Hop & Hbefore)].
  { rewrite Hneg in Hstart. lia. }
  assert (s0 = start) as -> by lia.
  split; [eauto|]. split; [exact Hbefore|].
  pose proof (findLastBalancedJsonEnd_spec cleaned start) as Hlast.
  destruct (findLastBalancedJsonEnd cleaned start) as [e|] eqn:Hend; [|exact Hlast].
  destruct Hlast as [Hclose Hafter]. split; [exact Hclose|]. split; [exact Hafter|].
  intros v Hv. unfold safeParseJson.
  destruct (trim text) as [|r0 raw] eqn:Eraw; [contradiction|].
  fold cleaned. rewrite Hdirect, Hstart.
  replace (Z.of_nat start <? 0) with false by (symmetry; apply Z.ltb_ge; lia).
  rewrite Nat2Z.id, Hend, Hv. reflexivity.
Qed.

Lemma safeParseJson_candidate_ends_at_last_balanced_witness :
  let text := jsq "note: {'a':[1,2]} end" in
  safeParseJson text = Return (JObj [(js "a", JArr [JNum 1; JNum 2])])
  /\ findLastBalancedJsonEnd (repairJsonCommon (trim text)) 6 = Some 16%nat.
Proof.
  pose proof (safeParseJson_candidate_ends_at_last_balanced
                (jsq "note: {'a':[1,2]} end") 6) as H.
  cbv zeta in H.
  destruct H as (_ & _ & H); [vm_compute; discriminate | reflexivity | reflexivity |].
  assert (E : findLastBalancedJsonEnd
                (repairJsonCommon (trim (jsq "note: {'a':[1,2]} end"))) 6
              = Some 16%nat) by reflexivity.
  rewrite E in H. destruct H as (_ & _ & H).
  split; [apply H; reflexivity | exact E].
Defined.

(** The claim as the specification words it fails on [x [1] [2]]: the depth
    first returns to zero at index 4, where the first top-level structure
    [[1]] ends, but the candidate runs to index 8, does not parse, and the
    call throws instead of recovering [[1]]. *)
Lemma safeParseJson_first_balanced_counterexample :
  let text := js "x [1] [2]" in
  let cleaned := repairJsonCommon (trim text) in
  JSON_parse cleaned = None
  /\ candidate_start cleaned = 2
  /\ findFirstBalancedJsonEnd cleaned 2 = Some 4%nat
  /\ findLastBalancedJsonEnd cleaned 2 = Some 8%nat
  /\ JSON_parse (repairJsonCommon (slice cleaned 2 (4 + 1))) = Some (JArr [JNum 1])
  /\ safeParseJson text = Throw (NotValidJson (js "[1] [2]")).
Proof. vm_compute. repeat split; reflexivity. Qed.

(** ** Trimming and the truncation test *)

Lemma trimStart_head s :
  match trimStart s with c :: _ => is_space c = false | [] => True end.
Proof.
  induction s as [|c r IH]; simpl; [exact I|].
  destruct (is_space c) eqn:E; [exact IH | exact E].
Qed.

Lemma last_rev_head (l : jsstr) : last (rev l) = head l.
Proof. destruct l as [|a l]; [reflexivity|]. simpl. apply last_snoc. Qed.

Lemma trim_last s :
  match last (trim s) with Some c => is_space c = false | None => trim s = [] end.
Proof.
  unfold trim, trimEnd. rewrite last_rev_head.
  pose proof (trimStart_head (rev (trimStart s))) as H.
  destruct (trimStart (rev (trimStart s))) as [|c r]; [reflexivity | exact H].
Qed.

Lemma forallb_space_last (r : jsstr) l :
  last r = Some l -> is_space l = false -> forallb is_space r = false.
Proof.
  induction r as [|c r IH]; [discriminate|]. intros Hl Hs. simpl.
  destruct r as [|d r'].
  - injection Hl as ->. rewrite Hs. reflexivity.
  - rewrite (IH Hl Hs). apply andb_false_r.
Qed.

(** On a text that ends in a character that is not white space, the
    regular expression finds a closer at the end exactly when that last
    character is one. *)
Lemma closer_at_end_last t l :
  last t = Some l -> is_space l = false -> closer_at_end t = is_closer l.
Proof.
  induction t as [|c r IH]; [discriminate|]. intros Hl Hs. simpl.
  destruct r as [|d r'].
  - injection Hl as ->. simpl. rewrite andb_true_r, orb_false_r. reflexivity.
  - rewrite (forallb_space_last (d :: r') l Hl Hs), andb_false_r. simpl.
    apply IH; assumption.
Qed.


(** ** C3: truncated or malformed *)



(** ** Texts the repairs leave alone *)

Section ReplaceLemmas.

Lemma replace_never m s : never_matches m s = true -> replace_all m s = s.
Proof.
  unfold replace_all. induction s as [|c r IH]; simpl; [reflexivity|].
  destruct (m (c :: r)); [discriminate|]. intros H. rewrite IH by exact H.
  reflexivity.
Qed.

Lemma never_matches_swap_tail m a x y :
  extends_none m x y ->
  never_matches m (a ++ x) = true -> never_matches m y = true ->
  never_matches m (a ++ y) = true.
Proof.
  intros Hext. induction a as [|c a IH]; intros Hx Hy; [exact Hy|].
  change (never_matches m (c :: (a ++ x)) = true) in Hx.
  change (never_matches m (c :: (a ++ y)) = true).
  cbn [never_matches] in *.
  destruct (m (c :: a ++ x)) eqn:E; [discriminate|].
  pose proof (Hext (c :: a) ltac:(discriminate) E) as E'.
  change ((c :: a) ++ y) with (c :: (a ++ y)) in E'. rewrite E'. auto.
Qed.

Lemma never_matches_app_r m a x :
  never_matches m (a ++ x) = true -> never_matches m x = true.
Proof.
  induction a as [|c a IH]; intros H; [exact H|].
  change (never_matches m (c :: (a ++ x)) = true) in H. cbn [never_matches] in H.
  destruct (m (c :: a ++ x)); [discriminate | auto].
Qed.

Lemma replace_app_never m a x y :
  extends_none m x y -> never_matches m (a ++ x) = true ->
  replace_from m 0 (a ++ y) = a ++ replace_from m 0 y.
Proof.
  intros Hext. induction a as [|c a IH]; intros Hx; [reflexivity|].
  change (never_matches m (c :: (a ++ x)) = true) in Hx. cbn [never_matches] in Hx.
  destruct (m (c :: a ++ x)) eqn:E; [discriminate|].
  change (replace_from m 0 (c :: (a ++ y)) = c :: (a ++ replace_from m 0 y)).
  pose proof (Hext (c :: a) ltac:(discriminate) E) as E'.
  change ((c :: a) ++ y) with (c :: (a ++ y)) in E'.
  cbn [replace_from]. rewrite E'. rewrite IH by exact Hx. reflexivity.
Qed.

(** *** The fences *)

Lemma fence_app t y : no_tick_ahead y = true -> fence (t ++ y) = fence t.
Proof.
  intros Hy. unfold fence.
  assert (H : starts_with (js "```") (t ++ y) = starts_with (js "```") t).
  { change (js "```") with [backtick; backtick; backtick].
    destruct t as [|a [|b [|c t]]]; cbn [starts_with app];
      destruct y as [|h y]; cbn [starts_with no_tick_ahead] in *;
      try reflexivity;
      apply negb_true_iff in Hy; rewrite Hy; rewrite ?andb_false_r; reflexivity. }
  rewrite H. reflexivity.
Qed.

Lemma fence_json_none t : fence_json t = None <-> fence t = None.
Proof.
  unfold fence_json, fence. destruct (starts_with (js "```") t).
  - destruct (starts_with (js "json") (map fold_case (drop 3 t))); split; discriminate.
  - split; reflexivity.
Qed.

Lemma never_matches_fence_json s :
  never_matches fence s = true -> never_matches fence_json s = true.
Proof.
  induction s as [|c r IH]; [reflexivity|]. cbn [never_matches].
  destruct (fence (c :: r)) eqn:E; [discriminate|].
  apply fence_json_none in E. rewrite E. exact IH.
Qed.

Lemma fence_extends x y :
  no_tick_ahead x = true -> no_tick_ahead y = true -> extends_none fence x y.
Proof.
  intros Hx Hy t _. rewrite (fence_app t x Hx), (fence_app t y Hy). auto.
Qed.

(** *** Commas before closers and between closers and openers *)

Lemma span_space_app r x :
  span_space (r ++ x)
  = match span_space r with
    | (w, []) => let '(wx, tx) := span_space x in (w ++ wx, tx)
    | (w, t) => (w, t ++ x)
    end.
Proof.
  induction r as [|c r IH]; simpl.
  - destruct (span_space x). reflexivity.
  - destruct (is_space c); [|reflexivity].
    rewrite IH. destruct (span_space r) as [w [|d t]];
      [destruct (span_space x)|]; reflexivity.
Qed.

Lemma missing_comma_extends close open x y :
  ahead_not (fun d => N.eqb d open) y = true ->
  extends_none (missing_comma close open) x y.
Proof.
  intros Hy [|c r] Hne H; [contradiction|].
  cbn [app missing_comma] in *.
  destruct (N.eqb c close); [|reflexivity].
  rewrite span_space_app in *. destruct (span_space r) as [w [|d t]].
  - unfold ahead_not in Hy. destruct (span_space y) as [wy [|h ty]]; [reflexivity|].
    cbn [snd] in Hy. apply negb_true_iff in Hy. rewrite Hy. reflexivity.
  - cbn [app] in *. exact H.
Qed.

Lemma trailing_comma_extends x y :
  ahead_not is_closer y = true -> extends_none trailing_comma x y.
Proof.
  intros Hy [|c r] Hne H; [contradiction|].
  cbn [app trailing_comma] in *.
  destruct (N.eqb c comma); [|reflexivity].
  rewrite span_space_app in *. destruct (span_space r) as [w [|d t]].
  - unfold ahead_not in Hy. destruct (span_space y) as [wy [|h ty]]; [reflexivity|].
    cbn [snd] in Hy. apply negb_true_iff in Hy. rewrite Hy. reflexivity.
  - cbn [app] in *. exact H.
Qed.

(** *** Trimming *)

Lemma trimStart_length s : (length (trimStart s) <= length s)%nat.
Proof.
  induction s as [|c r IH]; simpl; [lia|]. destruct (is_space c); simpl; lia.
Qed.

Lemma trimEnd_length s : (length (trimEnd s) <= length s)%nat.
Proof.
  unfold trimEnd. rewrite length_rev.
  etransitivity; [apply trimStart_length|]. rewrite length_rev. lia.
Qed.

Lemma trimStart_clean s h : head s = Some h -> is_space h = false -> trimStart s = s.
Proof. destruct s as [|c r]; [discriminate|]. simpl. intros [= ->] ->. reflexivity. Qed.

Lemma head_rev_last (s : jsstr) : head (rev s) = last s.
Proof. rewrite <- (rev_involutive s) at 2. symmetry. apply last_rev_head. Qed.

Lemma trimEnd_clean s l : last s = Some l -> is_space l = false -> trimEnd s = s.
Proof.
  intros Hl Hs. unfold trimEnd.
  rewrite (trimStart_clean (rev s) l); [apply rev_involutive | | exact Hs].
  rewrite head_rev_last. exact Hl.
Qed.

Lemma trim_clean s h l :
  head s = Some h -> is_space h = false ->
  last s = Some l -> is_space l = false -> trim s = s.
Proof.
  intros Hh Hhs Hl Hls. unfold trim. rewrite (trimStart_clean s h Hh Hhs).
  apply (trimEnd_clean s l Hl Hls).
Qed.

(** A text that trimming leaves alone starts and ends with characters that
    are not white space. *)
Lemma trim_fixed s :
  trim s = s -> s <> [] ->
  (exists h, head s = Some h /\ is_space h = false)
  /\ (exists l, last s = Some l /\ is_space l = false).
Proof.
  intros Ht Hne. split.
  - destruct s as [|c r]; [contradiction|]. exists c. split; [reflexivity|].
    destruct (is_space c) eqn:E; [|reflexivity]. exfalso.
    assert (Hlen : (length (trim (c :: r)) <= length r)%nat).
    { unfold trim. etransitivity; [apply trimEnd_length|]. simpl. rewrite E.
      apply trimStart_length. }
    rewrite Ht in Hlen. simpl in Hlen. lia.
  - pose proof (trim_last s) as H. rewrite Ht in H.
    destruct (last s) as [l|]; [eauto | contradiction].
Qed.

Lemma trim_between_newlines s h l :
  head s = Some h -> is_space h = false ->
  last s = Some l -> is_space l = false ->
  trim (newline :: s ++ [newline]) = s.
Proof.
  intros Hh Hhs Hl Hls. unfold trim.
  change (trimStart (newline :: s ++ [newline])) with (trimStart (s ++ [newline])).
  rewrite (trimStart_clean (s ++ [newline]) h); [| |exact Hhs].
  - unfold trimEnd. rewrite rev_app_distr.
    change (trimStart (rev [newline] ++ rev s)) with (trimStart (rev s)).
    rewrite (trimStart_clean (rev s) l); [apply rev_involutive| |exact Hls].
    rewrite head_rev_last. exact Hl.
  - destruct s; [discriminate | exact Hh].
Qed.

End ReplaceLemmas.

(** ** The repairs undo the three renderings *)

Section RepairRoundTrip.

Lemma repair_free_parts s :
  repair_free s = true ->
  trim s = s /\ never_matches fence s = true
  /\ forallb (fun c => negb (is_curly c)) s = true
  /\ never_matches (missing_comma rbrace lbrace) s = true
  /\ never_matches (missing_comma rbracket lbracket) s = true
  /\ never_matches trailing_comma s = true.
Proof.
  unfold repair_free. rewrite !andb_true_iff, bool_decide_eq_true. tauto.
Qed.

Lemma straighten_plain c :
  is_curly c = false -> straighten_single (straighten_double c) = c.
Proof.
  unfold is_curly, straighten_single, straighten_double. intros H.
  apply orb_false_elim in H as [H H4]. apply orb_false_elim in H as [H H3].
  apply orb_false_elim in H as [H1 H2]. rewrite H1, H2. simpl. rewrite H3, H4.
  reflexivity.
Qed.

Lemma straighten_plain_text s :
  forallb (fun c => negb (is_curly c)) s = true ->
  map straighten_single (map straighten_double s) = s.
Proof.
  induction s as [|c r IH]; [reflexivity|]. simpl. intros H.
  apply andb_prop in H as [Hc Hr]. apply negb_true_iff in Hc.
  rewrite (straighten_plain c Hc), (IH Hr). reflexivity.
Qed.

(** What the repairs make of a text once its fences are gone. *)
Lemma repair_after_fences s t :
  forallb (fun c => negb (is_curly c)) t = true ->
  never_matches (missing_comma rbrace lbrace) t = true ->
  never_matches (missing_comma rbracket lbracket) t = true ->
  never_matches trailing_comma t = true ->
  replace_all fence (replace_all fence_json s) = t ->
  repairJsonCommon s = trim t.
Proof.
  intros Hq H1 H2 H3 Hf. unfold repairJsonCommon. rewrite Hf.
  rewrite (straighten_plain_text t Hq).
  rewrite (replace_never _ t H1), (replace_never _ t H2), (replace_never _ t H3).
  reflexivity.
Qed.

Lemma repair_free_fixed s : repair_free s = true -> repairJsonCommon s = s.
Proof.
  intros H. apply repair_free_parts in H as (Ht & Hf & Hq & H1 & H2 & H3).
  rewrite (repair_after_fences s s Hq H1 H2 H3); [exact Ht|].
  rewrite (replace_never _ s (never_matches_fence_json s Hf)).
  apply replace_never. exact Hf.
Qed.

Lemma safeParseJson_direct text v :
  trim text <> [] -> JSON_parse (repairJsonCommon (trim text)) = Some v ->
  safeParseJson text = Return v.
Proof.
  intros Hne Hv. unfold safeParseJson.
  destruct (trim text) as [|c r]; [contradiction|]. rewrite Hv. reflexivity.
Qed.

Lemma closer_chars c :
  is_closer c = true ->
  is_space c = false /\ N.eqb backtick c = false /\ is_curly c = false.
Proof.
  unfold is_closer, rbrace, rbracket.
  destruct (N.eqb_spec c 125) as [->|]; [intros _; repeat split|].
  destruct (N.eqb_spec c 93) as [->|]; [intros _; repeat split | discriminate].
Qed.

(** *** Inside a code fence *)

Lemma repair_fenced s :
  s <> [] -> repair_free s = true -> repairJsonCommon (trim (fenced s)) = s.
Proof.
  intros Hne H. apply repair_free_parts in H as (Ht & Hf & Hq & H1 & H2 & H3).
  destruct (trim_fixed s Ht Hne) as [(h & Hh & Hhs) (l & Hl & Hls)].
  assert (Htrim : trim (fenced s) = fenced s).
  { apply (trim_clean _ backtick backtick); try reflexivity.
    unfold fenced. rewrite !last_app. reflexivity. }
  rewrite Htrim.
  assert (Hmid : forall m, m (newline :: s ++ [newline]) = None ->
                           m [newline] = None -> extends_none m [] [newline] ->
                           never_matches m s = true ->
                           never_matches m (newline :: s ++ [newline]) = true).
  { intros m Hm0 Hm1 Hext Hs. cbn [never_matches]. rewrite Hm0.
    apply (never_matches_swap_tail m s [] [newline] Hext).
    - rewrite app_nil_r. exact Hs.
    - cbn [never_matches]. rewrite Hm1. reflexivity. }
  rewrite (repair_after_fences _ (newline :: s ++ [newline])).
  - apply (trim_between_newlines s h l); assumption.
  - simpl. rewrite forallb_app, Hq. reflexivity.
  - apply Hmid; try reflexivity; [apply missing_comma_extends; reflexivity | exact H1].
  - apply Hmid; try reflexivity; [apply missing_comma_extends; reflexivity | exact H2].
  - apply Hmid; try reflexivity; [apply trailing_comma_extends; reflexivity | exact H3].
  - assert (Hjson : replace_all fence_json (fenced s) = newline :: s ++ [newline]).
    { unfold replace_all, fenced.
      change (replace_from fence_json 0 (newline :: (s ++ [newline] ++ js "```"))
              = newline :: s ++ [newline]).
      change (newline :: replace_from fence_json 0 (s ++ [newline] ++ js "```")
              = newline :: s ++ [newline]).
      rewrite (replace_app_never fence_json s [] ([newline] ++ js "```")).
      + reflexivity.
      + intros t Hnt Hnone. apply fence_json_none. apply fence_json_none in Hnone.
        revert Hnone. apply fence_extends; [reflexivity | reflexivity | exact Hnt].
      + rewrite app_nil_r. apply never_matches_fence_json. exact Hf. }
    rewrite Hjson. apply replace_never. apply Hmid; try reflexivity; [|exact Hf].
    apply fence_extends; reflexivity.
Qed.

(** *** With typographic quotes *)

Lemma curls_not_space d c : curls d c -> is_space c = false -> is_space d = false.
Proof.
  intros [-> | [[_ [-> | ->]] | [_ [-> | ->]]]] H; try exact H; reflexivity.
Qed.

Lemma curls_tick d c : curls d c -> N.eqb backtick d = true -> N.eqb backtick c = true.
Proof.
  intros [-> | [[_ [-> | ->]] | [_ [-> | ->]]]] H; try exact H; discriminate.
Qed.

Lemma curled_last d s l :
  curled d s -> last s = Some l -> exists l', last d = Some l' /\ curls l' l.
Proof.
  intros H. revert l. induction H as [|x y d s Hxy Hds IH]; intros l Hl; [discriminate|].
  destruct Hds as [|x' y' d s Hxy' Hds].
  - injection Hl as <-. exists x. split; [reflexivity | exact Hxy].
  - apply IH. exact Hl.
Qed.

Lemma curled_fence d s : curled d s -> fence d <> None -> fence s <> None.
Proof.
  unfold fence. change (js "```") with [backtick; backtick; backtick].
  intros H.
  destruct H as [|a a' d s Ha H]; [simpl; congruence|].
  destruct H as [|b b' d s Hb H]; [simpl; rewrite andb_false_r; congruence|].
  destruct H as [|c c' d s Hc H]; [simpl; rewrite !andb_false_r; congruence|].
  cbn [starts_with].
  destruct (N.eqb backtick a) eqn:Ea; [|simpl; congruence].
  destruct (N.eqb backtick b) eqn:Eb; [|simpl; congruence].
  destruct (N.eqb backtick c) eqn:Ec; [|simpl; congruence].
  rewrite (curls_tick _ _ Ha Ea), (curls_tick _ _ Hb Eb), (curls_tick _ _ Hc Ec).
  simpl. congruence.
Qed.

Lemma curled_never_fence d s :
  curled d s -> never_matches fence s = true -> never_matches fence d = true.
Proof.
  intros H. induction H as [|x y d s Hxy Hds IH]; [reflexivity|].
  cbn [never_matches]. destruct (fence (y :: s)) eqn:Es; [discriminate|]. intros Hs.
  destruct (fence (x :: d)) eqn:Ed; [|auto].
  exfalso. apply (curled_fence (x :: d) (y :: s)); [constructor; assumption| |exact Es].
  rewrite Ed. discriminate.
Qed.

Lemma curled_straighten d s :
  curled d s -> forallb (fun c => negb (is_curly c)) s = true ->
  map straighten_single (map straighten_double d) = s.
Proof.
  intros H. induction H as [|x y d s Hxy Hds IH]; [reflexivity|]. simpl.
  intros Hq. apply andb_prop in Hq as [Hy Hs]. apply negb_true_iff in Hy.
  rewrite (IH Hs). f_equal.
  destruct Hxy as [-> | [[-> [-> | ->]] | [-> [-> | ->]]]];
    try reflexivity. apply straighten_plain. exact Hy.
Qed.

Lemma curledb_curled d : forall s, curledb d s = true -> curled d s.
Proof.
  induction d as [|x d IH]; intros [|y s] H; try discriminate; [constructor|].
  simpl in H. apply andb_prop in H as [Hxy Hds].
  constructor; [|apply IH; exact Hds].
  unfold curlsb in Hxy. unfold curls.
  apply orb_prop in Hxy as [Hxy | Hxy]; [apply orb_prop in Hxy as [Hxy | Hxy]|].
  - left. apply N.eqb_eq. exact Hxy.
  - apply andb_prop in Hxy as [Hy Hx]. apply N.eqb_eq in Hy.
    apply orb_prop in Hx as [Hx | Hx]; apply N.eqb_eq in Hx; auto.
  - apply andb_prop in Hxy as [Hy Hx]. apply N.eqb_eq in Hy.
    apply orb_prop in Hx as [Hx | Hx]; apply N.eqb_eq in Hx; auto.
Qed.

Lemma repair_curled d s :
  s <> [] -> repair_free s = true -> curled d s ->
  trim d <> [] /\ repairJsonCommon (trim d) = s.
Proof.
  intros Hne H Hc. apply repair_free_parts in H as (Ht & Hf & Hq & H1 & H2 & H3).
  destruct (trim_fixed s Ht Hne) as [(h & Hh & Hhs) (l & Hl & Hls)].
  destruct (curled_last d s l Hc Hl) as (l' & Hl' & Hcl).
  assert (Hd : exists h', head d = Some h' /\ curls h' h).
  { destruct Hc as [|x y d s Hxy Hds]; [discriminate|].
    injection Hh as <-. exists x. split; [reflexivity | exact Hxy]. }
  destruct Hd as (h' & Hh' & Hch).
  assert (Htrim : trim d = d).
  { apply (trim_clean d h' l'); eauto using curls_not_space. }
  rewrite Htrim. split; [destruct d; [discriminate | discriminate]|].
  pose proof (curled_never_fence d s Hc Hf) as Hfd.
  unfold repairJsonCommon.
  rewrite (replace_never _ d (never_matches_fence_json d Hfd)).
  rewrite (replace_never _ d Hfd), (curled_straighten d s Hc Hq).
  rewrite (replace_never _ s H1), (replace_never _ s H2), (replace_never _ s H3).
  exact Ht.
Qed.

(** *** With a stray comma before a closer *)

Lemma repair_trailing_comma a c b :
  is_closer c = true -> repair_free (a ++ c :: b) = true ->
  trim (a ++ comma :: c :: b) <> []
  /\ repairJsonCommon (trim (a ++ comma :: c :: b)) = a ++ c :: b.
Proof.
  intros Hcl H. apply repair_free_parts in H as (Ht & Hf & Hq & H1 & H2 & H3).
  destruct (closer_chars c Hcl) as (Hcs & Hct & Hcq).
  assert (Hne : a ++ c :: b <> []) by (destruct a; discriminate).
  destruct (trim_fixed _ Ht Hne) as [(h & Hh & Hhs) (l & Hl & Hls)].
  assert (Htrim : trim (a ++ comma :: c :: b) = a ++ comma :: c :: b).
  { destruct a as [|x a].
    - apply (trim_clean _ comma l); try reflexivity; [|exact Hls].
      simpl in Hl |- *. exact Hl.
    - apply (trim_clean _ h l); try assumption.
      rewrite last_app in Hl |- *. rewrite last_cons in Hl |- *.
      rewrite last_cons. destruct (last b); exact Hl. }
  rewrite Htrim. split; [destruct a; discriminate|].
  assert (Hswap : forall m, m (comma :: c :: b) = None ->
            extends_none m (c :: b) (comma :: c :: b) ->
            never_matches m (a ++ c :: b) = true ->
            never_matches m (a ++ comma :: c :: b) = true).
  { intros m Hm Hext Hs. apply (never_matches_swap_tail m a _ _ Hext Hs).
    pose proof (never_matches_app_r m a _ Hs) as Hcb.
    cbn [never_matches] in Hcb |- *. rewrite Hm. exact Hcb. }
  assert (Hfd : never_matches fence (a ++ comma :: c :: b) = true).
  { apply Hswap; [reflexivity| |exact Hf].
    apply fence_extends; [|reflexivity]. unfold no_tick_ahead. rewrite Hct.
    reflexivity. }
  unfold repairJsonCommon.
  rewrite (replace_never _ _ (never_matches_fence_json _ Hfd)).
  rewrite (replace_never _ _ Hfd), straighten_plain_text.
  2:{ rewrite forallb_app in Hq |- *. apply andb_prop in Hq as [Ha Hb].
      rewrite Ha. simpl. exact Hb. }
  rewrite (replace_never (missing_comma rbrace lbrace)).
  2:{ apply Hswap; [reflexivity| |exact H1]. apply missing_comma_extends. reflexivity. }
  rewrite (replace_never (missing_comma rbracket lbracket)).
  2:{ apply Hswap; [reflexivity| |exact H2]. apply missing_comma_extends. reflexivity. }
  unfold replace_all.
  rewrite (replace_app_never trailing_comma a (c :: b) (comma :: c :: b));
    [| apply trailing_comma_extends; reflexivity | exact H3].
  assert (Hstep : replace_from trailing_comma 0 (comma :: c :: b) = c :: b).
  { cbn [replace_from trailing_comma]. rewrite N.eqb_refl.
    cbn [span_space]. rewrite Hcs, Hcl. cbn [app length Nat.pred replace_from].
    f_equal. apply replace_never.
    apply (never_matches_app_r trailing_comma (a ++ [c])).
    rewrite <- app_assoc. exact H3. }
  rewrite Hstep. exact Ht.
Qed.

End RepairRoundTrip.

(** ** C4: repair then parse gives the value back *)

(** C4 (as amended). For every JSON value [X] and every text [s] of it
    ([JSON.parse] of [s] is [X]) that none of the repairs applies to, the
    recovery parser returns exactly [X] for [s] wrapped in a code fence, for
    [s] with any of its straight quotes written as typographic ones, and for
    [s] with a stray comma put right before any of its closers. *)
Theorem safeParseJson_roundtrip_on_repair_free (s : jsstr) (X : jsval) :
  JSON_parse s = Some X ->
  repair_free s = true ->
  safeParseJson (fenced s) = Return X
  /\ (forall d, curled d s -> safeParseJson d = Return X)
  /\ (forall a c b, s = a ++ c :: b -> is_closer c = true ->
        safeParseJson (a ++ comma :: c :: b) = Return X).
Proof.
  intros HX Hfree.
  assert (Hne : s <> []) by (intros ->; discriminate).
  split; [|split].
  - apply safeParseJson_direct.
    + unfold fenced.
      rewrite (trim_clean _ backtick backtick); try reflexivity; [discriminate|].
      rewrite !last_app. reflexivity.
    + rewrite (repair_fenced s Hne Hfree). exact HX.
  - intros d Hd. destruct (repair_curled d s Hne Hfree Hd) as [Hraw Hrep].
    apply safeParseJson_direct; [exact Hraw|]. rewrite Hrep. exact HX.
  - intros a c b -> Hc.
    destruct (repair_trailing_comma a c b Hc Hfree) as [Hraw Hrep].
    apply safeParseJson_direct; [exact Hraw|]. rewrite Hrep. exact HX.
Qed.

Lemma safeParseJson_roundtrip_on_repair_free_witness :
  let s := jsq "{'a':['b',1]}" in
  let X := JObj [(js "a", JArr [JStr (js "b"); JNum 1])] in
  JSON_parse s = Some X
  /\ repair_free s = true
  /\ safeParseJson (fenced s) = Return X
  /\ safeParseJson
       ([lbrace; ldquo] ++ js "a" ++ [rdquo] ++ js ":[" ++ [ldquo] ++ js "b"
          ++ [rdquo] ++ js ",1]}") = Return X
  /\ safeParseJson (jsq "{'a':['b',1,]}") = Return X.
Proof.
  pose proof (safeParseJson_roundtrip_on_repair_free
                (jsq "{'a':['b',1]}")
                (JObj [(js "a", JArr [JStr (js "b"); JNum 1])])
                eq_refl eq_refl) as (H1 & H2 & H3).
  split; [reflexivity|]. split; [reflexivity|]. split; [exact H1|]. split.
  - apply H2. apply curledb_curled. reflexivity.
  - apply (H3 (jsq "{'a':['b',1") rbracket (js "}")); reflexivity.
Defined.

(** The claim as stated, for every JSON value, fails for the string [a,]]:
    its text, fenced, comes back from the recovery parser as the different
    string [a]], because the comma before the bracket is removed inside the
    string literal too. *)
Lemma safeParseJson_roundtrip_counterexample :
  let X := JStr (js "a,]") in
  let s := jsq "'a,]'" in
  JSON_parse s = Some X
  /\ safeParseJson (fenced s) = Return (JStr (js "a]"))
  /\ JStr (js "a]") <> X.
Proof. split; [reflexivity|]. split; [reflexivity | discriminate]. Qed.

(** ** The matcher and the normalizer *)

Section Matching.

Lemma find_first_Some {A} (p : A -> bool) l x :
  find_first p l = Some x -> In x l /\ p x = true.
Proof.
  induction l as [|a l IH]; simpl; [discriminate|].
  destruct (p a) eqn:E.
  - intros [= ->]. auto.
  - intros H. destruct (IH H). auto.
Qed.

(** The entry the matcher returns has a guard that accepts the value, and the
    only entry with the multiple-choice toggle is the multiple-choice one. *)
Lemma matchQuestionType_multiple_choice q matched :
  matchQuestionType q = Some matched ->
  enabledToggleKey matched = MULTIPLE_CHOICE_TOGGLE_KEY ->
  matched = multipleChoiceEntry /\ isMultipleChoiceQuestion q = true.
Proof.
  intros Hm Hk. apply find_first_Some in Hm as [Hin Hg].
  simpl in Hin.
  destruct Hin as [<- | [<- | [<- | [<- | [<- | [<- | []]]]]]];
    try discriminate Hk.
  split; [reflexivity | exact Hg].
Qed.

Lemma isMultipleChoiceQuestion_fields q :
  isMultipleChoiceQuestion q = true ->
  exists fields text items x,
    q = JObj fields
    /\ prop q "q" = Some (JStr text)
    /\ prop q "choices" = Some (JArr items)
    /\ forallb (fun v => isString (Some v)) items = true
    /\ prop q "answer_index" = Some (JNum x)
    /\ isFinite x = true.
Proof.
  unfold isMultipleChoiceQuestion. destruct (isRecord (Some q)) eqn:Er; [|discriminate].
  simpl. rewrite !andb_true_iff. intros [[Hq Hc] Hn].
  destruct q as [| | | |items|fields]; try discriminate.
  exists fields. unfold isString, isStringArray, isNumber in *.
  destruct (prop (JObj fields) "q") as [[]|]; try discriminate.
  destruct (prop (JObj fields) "choices") as [[]|]; try discriminate.
  destruct (prop (JObj fields) "answer_index") as [[]|]; try discriminate.
  eauto 10.
Qed.

End Matching.

(** ** C10: the multiple-choice shape is not enough *)

(** C10 (as amended). A raw record of the multiple-choice shape that also
    carries a string [answer] is matched by an entry registered before the
    multiple-choice one and then rejected as an unsupported question type:
    the entry is fill-in-blank unless the record also satisfies the matching
    or the select-all guard, which are registered earlier still. *)
Theorem multiple_choice_shape_with_answer_rejected
  (r : jsval) (choicesCount : Z) (w : World) :
  isMultipleChoiceQuestion r = true ->
  isString (prop r "answer") = true ->
  exists matched,
    matchQuestionType r = Some matched
    /\ enabledToggleKey matched <> MULTIPLE_CHOICE_TOGGLE_KEY
    /\ normalizeQuestion r choicesCount w
       = (Throw (UnsupportedType (description matched)), w)
    /\ (isMatchingQuestion r = false -> isSelectAllQuestion r = false ->
        matched = fillBlankEntry).
Proof.
  intros Hmc Hans.
  assert (Hfb : isFillBlankQuestion r = true).
  { unfold isFillBlankQuestion, isMultipleChoiceQuestion in *.
    destruct (isRecord (Some r)); [|discriminate]. simpl in *.
    rewrite !andb_true_iff in Hmc. destruct Hmc as [[Hq _] _].
    rewrite Hq, Hans. reflexivity. }
  unfold normalizeQuestion, matchQuestionType, questionTypeRegistry.
  cbn [find_first typeGuard matchingEntry selectAllEntry fillBlankEntry].
  destruct (isMatchingQuestion r) eqn:E1.
  { exists matchingEntry. repeat split; try discriminate. }
  destruct (isSelectAllQuestion r) eqn:E2.
  { exists selectAllEntry. repeat split; try discriminate. }
  rewrite Hfb. exists fillBlankEntry. repeat split; discriminate.
Qed.

Lemma multiple_choice_shape_with_answer_rejected_witness :
  let r := raw_question "x" ["a"; "b"; "c"; "d"]%string 1 [(js "answer", JStr (js "y"))] in
  normalizeQuestion r 4 still_world
  = (Throw (UnsupportedType "Fill in the Blank (short text answer)"), still_world).
Proof.
  destruct (multiple_choice_shape_with_answer_rejected
              (raw_question "x" ["a"; "b"; "c"; "d"]%string 1 [(js "answer", JStr (js "y"))])
              4 still_world eq_refl eq_refl) as (m & _ & _ & Hn & Hfb).
  cbv zeta. rewrite Hn, (Hfb eq_refl eq_refl). reflexivity.
Defined.

(** The claim as stated fails for a record that, besides the string
    [answer], carries [correct_indexes]: it is matched as select-all, not as
    fill-in-blank. *)
Lemma multiple_choice_shape_with_answer_counterexample :
  let r := raw_question "x" ["a"; "b"; "c"; "d"]%string 1
             [(js "answer", JStr (js "y")); (js "correct_indexes", JArr [JNum 0])] in
  isMultipleChoiceQuestion r = true
  /\ isString (prop r "answer") = true
  /\ matchQuestionType r = Some selectAllEntry
  /\ enabledToggleKey selectAllEntry <> enabledToggleKey fillBlankEntry.
Proof. repeat split; discriminate. Qed.

(** ** C6: what the normalizer returns *)

(** C6 (the code at the failing input). A candidate of the multiple-choice
    shape whose answer index is the finite number 1.5 is accepted with the
    answer index 1.5: the number is clamped but never made an integer. *)
Theorem normalizeQuestion_keeps_fractional_answer_index :
  let r := raw_question "x" ["a"; "b"; "c"; "d"]%string 1.5 [] in
  isMultipleChoiceQuestion r = true
  /\ exists qq w',
       normalizeQuestion r 4 still_world = (Return qq, w')
       /\ q_choices qq = [js "a"; js "b"; js "c"; js "d"]
       /\ Qeq (q_answer_index qq) (3 # 2)
       /\ forall z : Z, ~ Qeq (q_answer_index qq) (inject_Z z).
Proof.
  split; [reflexivity|]. eexists. eexists. split; [vm_compute; reflexivity|].
  split; [reflexivity|]. split; [reflexivity|].
  intros z H. cbv [q_answer_index] in H. unfold Qeq in H. simpl in H. lia.
Qed.

(** What [normalizeQuestion] does with a candidate matched as multiple
    choice: it throws for missing text exactly when the trimmed text is
    empty; otherwise throws for the choice count exactly when the number of
    choices left after trimming and dropping blanks differs from
    [choicesCount]; otherwise returns the question with the finite answer
    index clamped between 0 and the last choice (and not rounded), the
    identifier [uid] gives, the explanation defaulted to the empty string and
    no user answer. *)
Theorem normalizeQuestion_multiple_choice
  (q : jsval) (choicesCount : Z) (w : World) (matched : QuestionTypeRegistryEntry) :
  matchQuestionType q = Some matched ->
  enabledToggleKey matched = MULTIPLE_CHOICE_TOGGLE_KEY ->
  exists text items x,
    prop q "q" = Some (JStr text)
    /\ prop q "choices" = Some (JArr items)
    /\ prop q "answer_index" = Some (JNum x) /\ isFinite x = true
    /\ let qq := trim text in
       let choices := List.filter is_nonempty (map (fun c => trim (String_of c)) items) in
       (qq = [] -> normalizeQuestion q choicesCount w = (Throw MissingQuestionText, w))
       /\ (qq <> [] -> Z.of_nat (length choices) <> choicesCount ->
           normalizeQuestion q choicesCount w
           = (Throw (ChoiceCountMismatch choicesCount), w))
       /\ (qq <> [] -> Z.of_nat (length choices) = choicesCount ->
           normalizeQuestion q choicesCount w
           = (Return {| q_id := fst (uid w);
                        q_q := qq;
                        q_choices := choices;
                        q_answer_index :=
                          Math_max 0 (Math_min (inject_Z (choicesCount - 1))
                                               (Q_of_number x));
                        q_explanation :=
                          trim (ToString (or_empty (prop q "explanation")));
                        q_user_answer_index := None |},
              snd (uid w))).
Proof.
  intros Hm Hk.
  destruct (matchQuestionType_multiple_choice q matched Hm Hk) as [-> Hmc].
  destruct (isMultipleChoiceQuestion_fields q Hmc)
    as (fields & text & items & x & -> & Hq & Hc & _ & Ha & Hx).
  exists text, items, x. repeat (split; [assumption|]).
  intros qq choices. unfold normalizeQuestion. rewrite Hm.
  cbn [multipleChoiceEntry enabledToggleKey MULTIPLE_CHOICE_TOGGLE_KEY].
  rewrite bool_decide_eq_true_2 by reflexivity. cbn [negb].
  rewrite Hq, Hc, Ha. cbn [finite_or_parsed]. rewrite Hx. cbn [negb].
  assert (Hqq : trim (ToString (or_empty (Some (JStr text)))) = qq).
  { destruct text; reflexivity. }
  rewrite Hqq. fold choices. repeat split.
  - intros ->. reflexivity.
  - intros Hne Hlen. destruct qq; [contradiction|]. cbn [is_nonempty negb].
    apply Z.eqb_neq in Hlen. rewrite Hlen. reflexivity.
  - intros Hne Hlen. destruct qq; [contradiction|]. cbn [is_nonempty negb].
    subst choicesCount. rewrite Z.eqb_refl, Hx. cbn [negb]. destruct (uid w).
    reflexivity.
Qed.

Lemma normalizeQuestion_multiple_choice_witness :
  let q := raw_question " Capital of France? " ["Rome"; " Paris"; " "; "Oslo"]%string 9 [] in
  exists r w',
    normalizeQuestion q 3 still_world = (Return r, w')
    /\ q_q r = js "Capital of France?"
    /\ q_choices r = [js "Rome"; js "Paris"; js "Oslo"]
    /\ Qeq (q_answer_index r) 2
    /\ q_explanation r = [] /\ q_user_answer_index r = None.
Proof.
  destruct (normalizeQuestion_multiple_choice
              (raw_question " Capital of France? "
                 ["Rome"; " Paris"; " "; "Oslo"]%string 9 [])
              3 still_world multipleChoiceEntry eq_refl eq_refl)
    as (text & items & x & Hq & Hc & Ha & _ & H).
  injection Hq as <-. injection Hc as <-. injection Ha as <-.
  cbv zeta in H. destruct H as (_ & _ & H).
  cbv zeta. eexists. eexists. split; [apply H; [discriminate | reflexivity]|].
  repeat split.
Defined.

(** ** C7: the plan *)

Section Plan.



Lemma totalQuestionsFromPlan_one e n :
  totalQuestionsFromPlan [{| entry := e; quantity := n |}] = n.
Proof. reflexivity. Qed.

End Plan.


(** ** C8: near duplicates *)

Section NearDuplicates.

Lemma size_zero_empty (a : gset jsstr) : size a = 0%nat <-> a = ∅.
Proof.
  rewrite size_empty_iff. split; [apply leibniz_equiv | intros ->; reflexivity].
Qed.

(** The loop of [jaccard] counts the intersection, and its union size is the
    size of the union. *)
Lemma jaccard_is_similarity (a b : gset jsstr) :
  jaccard a b = jaccard_similarity a b.
Proof.
  unfold jaccard, jaccard_similarity.
  destruct (Nat.eqb_spec (size a) 0) as [Ha|Ha].
  { apply size_zero_empty in Ha. rewrite bool_decide_eq_true_2 by auto. reflexivity. }
  destruct (Nat.eqb_spec (size b) 0) as [Hb|Hb].
  { apply size_zero_empty in Hb. rewrite bool_decide_eq_true_2 by auto. reflexivity. }
  simpl. rewrite bool_decide_eq_false_2.
  2:{ intros [-> | ->]; [apply Ha | apply Hb]; apply size_empty. }
  assert (Hinter : filter (fun x => x ∈ b) a = a ∩ b).
  { apply set_eq. intros x. rewrite elem_of_filter, elem_of_intersection. tauto. }
  rewrite Hinter.
  assert (Huni : (size a + size b - size (a ∩ b))%nat = size (a ∪ b)).
  { pose proof (size_union_alt a b) as H1.
    pose proof (size_difference_alt b a) as H2.
    assert (Hle : (size (b ∩ a) <= size b)%nat)
      by (apply subseteq_size, intersection_subseteq_l).
    replace (b ∩ a) with (a ∩ b) in * by apply (comm_L (∩)). lia. }
  rewrite Huni.
  destruct (Nat.eqb_spec (size (a ∪ b)) 0) as [H0|H0]; [|reflexivity].
  exfalso. apply Ha. apply size_zero_empty in H0.
  apply empty_union_L in H0 as [-> _]. apply size_empty.
Qed.

End NearDuplicates.

(** C8 (as amended). [isNearDuplicate] rejects a candidate exactly when its
    normalized text (lower case, every character outside [[a-z0-9 ]]
    REPLACED BY A SPACE, white space collapsed, trimmed) is empty, or is one
    of the existing normalized entries, or its set of words of at least three
    characters has Jaccard similarity at least 0.72 with some existing token
    set, the similarity of two empty sets being 0. Against the existing
    question [What is the capital of France?], the candidate
    [What's the capital city of France?] is rejected (its normalized text is
    [what s the capital city of france]) and [Name the longest river in
    Egypt] is accepted. *)
Theorem isNearDuplicate_iff :
  (forall (qText : jsstr) (existing : gset jsstr) (existingTokenSets : list (gset jsstr)),
     isNearDuplicate qText existing existingTokenSets = true
     <-> normText qText = []
         \/ normText qText ∈ existing
         \/ exists ex, ex ∈ existingTokenSets
              /\ (0.72 <=? jaccard_similarity (tokenSet (normText qText)) ex)%float = true)
  /\ (let old := js "What is the capital of France?" in
      normText (js "What's the capital city of France?")
      = js "what s the capital city of france"
      /\ isNearDuplicate (js "What's the capital city of France?")
           {[normText old]} [tokenSet old] = true
      /\ isNearDuplicate (js "Name the longest river in Egypt")
           {[normText old]} [tokenSet old] = false).
Proof.
  split; [|vm_compute; repeat split; reflexivity].
  intros qText existing sets. unfold isNearDuplicate.
  destruct (normText qText) as [|c n] eqn:En; [intuition|].
  destruct (bool_decide_reflect (c :: n ∈ existing)) as [Hin|Hin]; [intuition|].
  rewrite existsb_exists. split.
  - intros (ex & Hex & Hj). right. right. exists ex.
    rewrite <- jaccard_is_similarity. split; [apply list_elem_of_In; exact Hex | exact Hj].
  - intros [H | [H | (ex & Hex & Hj)]]; [discriminate | contradiction |].
    exists ex. rewrite jaccard_is_similarity.
    split; [apply list_elem_of_In; exact Hex | exact Hj].
Qed.

(** The claim as stated, with the characters outside [[a-z0-9 ]] stripped,
    fails on its own example: the normalized candidate would be
    [whats the capital city of france], which is not empty, is not the
    existing entry, and shares 3 of 6 words with it (similarity 0.5), while
    the code rejects the candidate. *)
Lemma isNearDuplicate_stripping_counterexample :
  let old := js "What is the capital of France?" in
  let candidate := js "What's the capital city of France?" in
  let n := normText_stripping candidate in
  isNearDuplicate candidate {[normText old]} [tokenSet old] = true
  /\ n = js "whats the capital city of france"
  /\ normText_stripping old = normText old
  /\ n <> normText old
  /\ jaccard_similarity (tokens_of n) (tokens_of (normText_stripping old)) = 0.5%float
  /\ (0.72 <=? 0.5)%float = false.
Proof. vm_compute. repeat split; try reflexivity. discriminate. Qed.

(** ** C9: grading *)

Section GradingCounts.

Lemma grade_question_spec a c q :
  grade_question (a, c) q
  = (if answered_question q then S a else a,
     if correct_question q then S c else c,
     {| isAnswered := answered_question q; isCorrect := correct_question q;
        ua := q_user_answer_index q; ca := q_answer_index q |}).
Proof.
  unfold grade_question, answered_question, correct_question.
  destruct (q_user_answer_index q); reflexivity.
Qed.

Lemma grade_questions_counts qs : forall a c,
  let '(a', c', ps) := grade_questions (a, c) qs in
  a' = (a + length (List.filter answered_question qs))%nat
  /\ c' = (c + length (List.filter correct_question qs))%nat
  /\ ps = map (fun q => {| isAnswered := answered_question q;
                           isCorrect := correct_question q;
                           ua := q_user_answer_index q;
                           ca := q_answer_index q |}) qs.
Proof.
  induction qs as [|q r IH]; intros a c.
  - simpl. repeat split; lia.
  - cbn [grade_questions]. rewrite grade_question_spec. cbn [List.filter map].
    destruct (answered_question q); destruct (correct_question q);
      match goal with
      | |- context [grade_questions (?x, ?y) r] =>
          specialize (IH x y); destruct (grade_questions (x, y) r) as [[a' c'] ps]
      end;
      destruct IH as (-> & -> & ->); cbn [length]; repeat split; lia.
Qed.

End GradingCounts.

(** The counts and the examples of C9 that hold: [total] is the number of
    questions, [answered] the number with a user answer, [correct] the number
    of answered questions whose user answer equals the answer index, and each
    accuracy is [Math.round] of the double [(correct / n) * 100], or 0 when
    [n] is 0. A quiz of 5 questions, 3 answered and 2 correct has
    accuracyAnswered 67 and accuracyTotal 40. *)
Theorem computeGrade_counts :
  (forall quiz : Quiz,
     let g := computeGrade quiz in
     let pct n := match n with
                  | O => 0%float
                  | _ => Math_round ((number_of_nat (correct g) / number_of_nat n) * 100)%float
                  end in
     total g = length (questions quiz)
     /\ answered g = length (List.filter answered_question (questions quiz))
     /\ correct g = length (List.filter correct_question (questions quiz))
     /\ accuracyAnswered g = pct (answered g)
     /\ accuracyTotal g = pct (total g))
  /\ (let g := computeGrade
                 (sample_quiz [sample_question 2 (Some 2); sample_question 2 (Some 2);
                               sample_question 2 (Some 0); sample_question 2 None;
                               sample_question 2 None]) in
      total g = 5%nat /\ answered g = 3%nat /\ correct g = 2%nat
      /\ accuracyAnswered g = 67%float /\ accuracyTotal g = 40%float).
Proof.
  split; [|vm_compute; repeat split; reflexivity].
  intros quiz. unfold computeGrade.
  pose proof (grade_questions_counts (questions quiz) 0 0) as H.
  destruct (grade_questions (0%nat, 0%nat) (questions quiz)) as [[a c] ps].
  destruct H as (-> & -> & ->). cbn [total answered correct accuracyAnswered accuracyTotal].
  repeat split.
Qed.

(** C9 (the code at the failing input). For a quiz of 40 questions, all
    answered and 23 of them correctly, the percentage is 57.5 and rounds half
    up to 58; the code returns 57 for both accuracies, because the double
    [(23 / 40) * 100] is 57.49999999999999. *)
Theorem computeGrade_rounds_23_of_40_down :
  let quiz := sample_quiz (repeat (sample_question 2 (Some 2)) 23
                             ++ repeat (sample_question 2 (Some 0)) 17) in
  let g := computeGrade quiz in
  total g = 40%nat /\ answered g = 40%nat /\ correct g = 23%nat
  /\ accuracyAnswered g = 57%float /\ accuracyTotal g = 57%float
  /\ ((number_of_nat 23 / number_of_nat 40) * 100)%float = 57.49999999999999%float
  /\ round_half_up_percent 23 40 = 58.
Proof. vm_compute. repeat split; reflexivity. Qed.

(** ** C5: the randomizer keeps the correct choice *)

Section Shuffle.

Context {T : Type}.

Lemma floor_times_below x n : (0 < n)%nat -> (floor_times x n < n)%nat.
Proof.
  intros Hn. unfold floor_times. destruct x as [a b Hab]. simpl.
  apply Nat.ltb_lt in Hab. apply Nat.Div0.div_lt_upper_bound. nia.
Qed.

Lemma shuffle_from_perm i : forall (arr : list T) w,
  fst (shuffle_from i arr w) ≡ₚ arr.
Proof.
  induction i as [|i IH]; intros arr w; [reflexivity|].
  cbn [shuffle_from]. destruct (Math_random w) as [x w'].
  etransitivity; [apply IH|].
  destruct (arr !! S i) as [tmp|] eqn:Ei; [|reflexivity].
  destruct (arr !! floor_times x (S i + 1)) as [aj|] eqn:Ej; [|reflexivity].
  apply Permutation_insert_swap; assumption.
Qed.

Lemma shuffleInPlace_perm (arr : list T) w : fst (shuffleInPlace arr w) ≡ₚ arr.
Proof. apply shuffle_from_perm. Qed.

(** Both indexes the loop swaps lie inside the array. *)
Lemma shuffle_indexes_in_range (arr : list T) i x :
  (S i < length arr)%nat ->
  is_Some (arr !! S i) /\ is_Some (arr !! floor_times x (S i + 1)).
Proof.
  intros Hi. split; apply lookup_lt_is_Some; [exact Hi|].
  pose proof (floor_times_below x (S i + 1)). lia.
Qed.

Lemma findIndex_from_found (p : T -> bool) arr : forall i,
  (exists y, y ∈ arr /\ p y = true) ->
  exists k y, findIndex_from p arr i = i + Z.of_nat k
              /\ arr !! k = Some y /\ p y = true.
Proof.
  induction arr as [|a arr IH]; intros i (y & Hy & Hp).
  - apply elem_of_nil in Hy. contradiction.
  - cbn [findIndex_from]. destruct (p a) eqn:Ea.
    + exists 0%nat, a. split; [lia|]. split; [reflexivity | exact Ea].
    + apply elem_of_cons in Hy as [-> | Hy]; [congruence|].
      destruct (IH (i + 1) (ex_intro _ y (conj Hy Hp))) as (k & z & Hk & Hz & Hpz).
      exists (S k), z. split; [lia|]. split; assumption.
Qed.

End Shuffle.

Section Randomize.

Lemma has_index_whole u k p :
  Qeq u (inject_Z (Z.of_nat k)) -> has_index u p = true -> snd p = k.
Proof.
  unfold has_index, number_eq. intros Hu Hp. apply Qeq_bool_iff in Hp.
  pose proof (Qeq_trans _ _ _ Hp Hu) as H.
  apply (proj1 (inject_Z_injective _ _)) in H. apply Nat2Z.inj in H. exact H.
Qed.

(** Where a whole-number index of a choice goes: to the position, in the
    shuffled pairs, of the pair that carries it, where the choice is too. *)
Lemma shuffled_position choices (pairs : list (jsstr * nat)) u (k : nat) :
  pairs ≡ₚ imap pair_with_index choices ->
  Qeq u (inject_Z (Z.of_nat k)) -> (k < length choices)%nat ->
  exists k' : nat,
    findIndex (has_index u) pairs = Z.of_nat k'
    /\ map fst pairs !! k' = choices !! k.
Proof.
  intros Hperm Hu Hk.
  destruct (lookup_lt_is_Some_2 choices k Hk) as [text Htext].
  assert (Hin : pair_with_index k text ∈ pairs).
  { rewrite Hperm. apply elem_of_lookup_imap_2. exact Htext. }
  destruct (findIndex_from_found (has_index u) pairs 0) as (k' & y & Hf & Hy & Hp).
  { exists (pair_with_index k text). split; [exact Hin|].
    unfold has_index, number_eq. apply Qeq_bool_iff. simpl. symmetry. exact Hu. }
  exists k'. split; [unfold findIndex; lia|].
  rewrite list_lookup_fmap, Hy. simpl.
  assert (Hy' : y ∈ imap pair_with_index choices).
  { rewrite <- Hperm. apply list_elem_of_lookup. eauto. }
  apply elem_of_lookup_imap_1 in Hy' as (i & t & -> & Hit).
  apply (has_index_whole u k) in Hp; [|exact Hu]. simpl in Hp. subst i.
  simpl. symmetry. exact Hit.
Qed.

Lemma randomizeQuestionChoices_follows q w :
  follows_choices q (fst (randomizeQuestionChoices q w)).
Proof.
  unfold randomizeQuestionChoices.
  pose proof (shuffleInPlace_perm (imap pair_with_index (q_choices q)) w) as Hperm.
  destruct (shuffleInPlace (imap pair_with_index (q_choices q)) w) as [pairs w'].
  cbn [fst] in *. unfold follows_choices, choice_at.
  cbn [q_id q_q q_explanation q_choices q_answer_index q_user_answer_index].
  split; [reflexivity|]. split; [reflexivity|]. split; [reflexivity|]. split.
  { change (map fst pairs) with (fst <$> pairs). rewrite Hperm.
    rewrite fmap_imap. rewrite <- (list_fmap_id (q_choices q)) at 2.
    rewrite <- imap_const. reflexivity. }
  split.
  - intros k Hk Hlt.
    destruct (shuffled_position (q_choices q) pairs _ k Hperm Hk Hlt) as (k' & Hf & Hc).
    exists k'. rewrite Hf. split; [f_equal; lia | exact Hc].
  - destruct (q_user_answer_index q) as [u|]; [|reflexivity].
    eexists. split; [reflexivity|]. intros k Hk Hlt.
    destruct (shuffled_position (q_choices q) pairs _ k Hperm Hk Hlt) as (k' & Hf & Hc).
    exists k'. rewrite Hf. split; [reflexivity | exact Hc].
Qed.

Lemma map_in_world_follows qs : forall w,
  Forall2 follows_choices qs (fst (map_in_world randomizeQuestionChoices qs w)).
Proof.
  induction qs as [|q r IH]; intros w; [constructor|].
  cbn [map_in_world].
  pose proof (randomizeQuestionChoices_follows q w) as Hq.
  destruct (randomizeQuestionChoices q w) as [q' w1].
  specialize (IH w1). destruct (map_in_world randomizeQuestionChoices r w1) as [r' w2].
  constructor; assumption.
Qed.

End Randomize.

(** C5. Whatever the random numbers, [randomizeQuestionChoices] reorders the
    choices and moves the answer index with them: for an answer index that
    is the index of a choice, the text at the new answer index is the text
    that was at the old one; a user answer index stays absent, or is moved
    in the same way. [randomizeQuestions] returns such questions, one for each
    question it was given, in some order. With the random numbers 2/3, 1/4,
    1/2, ... the sample question with Paris at index 2 and the user answer
    Rome at index 0 gets Paris at index 3, its new answer index, and Rome at
    index 2, its new user answer index. *)
Theorem randomize_keeps_correct_choice :
  (forall (q : QuizQuestion) (w : World),
     follows_choices q (fst (randomizeQuestionChoices q w)))
  /\ (forall (qs : list QuizQuestion) (w : World),
        exists qs', Forall2 follows_choices qs qs'
                    /\ fst (randomizeQuestions qs w) ≡ₚ qs')
  /\ (let q' := fst (randomizeQuestionChoices (sample_question 2 (Some 0)) turning_world) in
      q_choices q' = [js "Bern"; js "Oslo"; js "Rome"; js "Paris"]
      /\ q_answer_index q' = 3%Q
      /\ q_user_answer_index q' = Some 2%Q).
Proof.
  split; [exact randomizeQuestionChoices_follows|]. split.
  - intros qs w. unfold randomizeQuestions.
    pose proof (map_in_world_follows qs w) as H.
    destruct (map_in_world randomizeQuestionChoices qs w) as [qs' w'].
    exists qs'. split; [exact H | apply shuffleInPlace_perm].
  - vm_compute. repeat split; reflexivity.
Qed.

(** ** C2: the retry collector *)

Section Collecting.

Lemma accept_batch_bound desired en ets normalized : forall acc w,
  Z.of_nat (length (collected acc)) <= desired ->
  Z.of_nat (length (collected (fst (accept_batch desired en ets normalized acc w))))
  <= desired.
Proof.
  induction normalized as [|q r IH]; intros acc w Hle; [exact Hle|].
  cbn [accept_batch].
  destruct (Z.leb_spec desired (Z.of_nat (length (collected acc)))) as [Hfull|Hroom];
    [exact Hle|].
  destruct (isNearDuplicate (q_q q) en ets); [apply IH; exact Hle|].
  destruct (isNearDuplicate (q_q q) (collectedNorm acc) (collectedTokenSets acc));
    [apply IH; exact Hle|].
  destruct (randomizeQuestionChoices q w) as [q' w']. apply IH.
  cbn [collected]. rewrite length_app. simpl. lia.
Qed.

(** The loop ends by its own condition within three turns: with fuel for the
    attempts that remain it returns, having added at most that many requests
    to the trace, each with the batch size the specification gives. *)
Lemma collect_loop_ends fuel service v quiz src avoid en ets desired :
  forall acc attempts w trace,
    (3 - attempts <= fuel)%nat ->
    exists r acc' w' new,
      collect_loop fuel service v quiz src avoid en ets desired acc attempts w trace
      = Some (r, acc', w', trace ++ new)
      /\ (length new <= 3 - attempts)%nat
      /\ Forall (batch_size_ok desired) new
      /\ (Z.of_nat (length (collected acc)) <= desired ->
          Z.of_nat (length (collected acc')) <= desired)
      /\ (forall a, r = Return a -> a = acc')
      /\ (forall e, r = Throw e -> attempt_failure e /\ new <> [])
      /\ (Z.of_nat (length (collected acc)) < desired -> (attempts < 3)%nat ->
          new <> []).
Proof.
  induction fuel as [|fuel IH]; intros acc attempts w trace Hfuel.
  - cbn [collect_loop].
    destruct (Z.ltb_spec (Z.of_nat (length (collected acc))) desired) as [Hlt|Hge];
      [destruct (Nat.ltb_spec attempts 3) as [Ha|Ha]; [lia|]|];
      cbn [andb]; exists (Return acc), acc, w, []; rewrite app_nil_r;
      (split; [reflexivity|]; split; [simpl; lia|]; split; [constructor|];
       split; [auto|]; split; [intros a [= ->]; reflexivity|];
       split; [discriminate | intros; lia]).
  - cbn [collect_loop].
    destruct (Z.ltb_spec (Z.of_nat (length (collected acc))) desired) as [Hlt|Hge];
      [destruct (Nat.ltb_spec attempts 3) as [Ha|Ha]|]; cbn [andb].
    2,3: exists (Return acc), acc, w, []; rewrite app_nil_r;
         (split; [reflexivity|]; split; [simpl; lia|]; split; [constructor|];
          split; [auto|]; split; [intros x [= ->]; reflexivity|];
          split; [discriminate | intros; lia]).
    set (a := {| collected_before := length (collected acc);
                 reqCount := Z.min 12 (desired - Z.of_nat (length (collected acc)));
                 request := _ |}).
    assert (Hok : batch_size_ok desired a) by (split; [reflexivity | exact Hlt]).
    assert (Hone : forall (e : CollectError) (w1 : World),
              attempt_failure e ->
              exists (r : result CollectError Collected) (acc' : Collected)
                     (w' : World) (new : list Attempt),
                Some ((Throw e : result CollectError Collected), acc, w1, trace ++ [a])
                = Some (r, acc', w', trace ++ new)
                /\ (length new <= 3 - attempts)%nat
                /\ Forall (batch_size_ok desired) new
                /\ (Z.of_nat (length (collected acc)) <= desired ->
                    Z.of_nat (length (collected acc')) <= desired)
                /\ (forall x, r = Return x -> x = acc')
                /\ (forall e', r = Throw e' -> attempt_failure e' /\ new <> [])
                /\ (Z.of_nat (length (collected acc)) < desired ->
                    (attempts < 3)%nat -> new <> [])).
    { intros e w1 He. exists (Throw e), acc, w1, [a].
      split; [reflexivity|]. split; [simpl; lia|].
      split; [constructor; [exact Hok | constructor]|].
      split; [auto|]. split; [discriminate|].
      split; [|discriminate].
      intros x [= <-]. split; [exact He | discriminate]. }
    match goal with
    | |- context [service ?n ?b] => destruct (service n b) as [json|]
    end; [|apply Hone; exact I].
    destruct (safeParseJson (extractOutputText json)) as [parsed|e];
      [|apply Hone; exact I].
    destruct (normalize_all _ (choicesCount quiz) w) as [[normalized|e] w1];
      [|apply Hone; exact I].
    pose proof (accept_batch_bound desired en ets normalized acc w1) as Hbound.
    destruct (accept_batch desired en ets normalized acc w1) as [acc1 w2].
    cbn [fst] in Hbound.
    destruct (IH acc1 (S attempts) w2 (trace ++ [a]))
      as (r & acc' & w' & new & Hloop & Hlen & Hall & Hle & Hret & Hthrow & _); [lia|].
    exists r, acc', w', (a :: new). rewrite Hloop.
    rewrite <- app_assoc.
    split; [reflexivity|]. split; [simpl; lia|].
    split; [constructor; assumption|]. split; [auto|]. split; [exact Hret|].
    split; [|discriminate].
    intros e He. split; [apply (Hthrow e He) | discriminate].
Qed.

Lemma find_first_update_first i f (l : list Quiz) q :
  find_first (fun x => bool_decide (quiz_id x = i)) l = Some q ->
  quiz_id (f q) = i ->
  find_first (fun x => bool_decide (quiz_id x = i)) (update_first i f l) = Some (f q).
Proof.
  intros Hfind Hid. induction l as [|x l IH]; [discriminate|].
  cbn [find_first update_first] in *.
  destruct (bool_decide (quiz_id x = i)) eqn:E.
  - injection Hfind as ->. cbn [find_first].
    rewrite bool_decide_eq_true_2 by exact Hid. reflexivity.
  - cbn [find_first]. rewrite E. apply IH. exact Hfind.
Qed.

(** What [getCurrentQuiz] finds carries the identifier it looked for, which
    becomes the current one. *)
Lemma getCurrentQuiz_found p quiz p1 :
  getCurrentQuiz p = (Some quiz, p1) ->
  exists v, vaultPlain p = Some v
    /\ find_first (fun x => bool_decide (quiz_id x = quiz_id quiz)) (quizzes v) = Some quiz
    /\ p1 = {| vaultPlain := vaultPlain p; currentQuizId := Some (quiz_id quiz);
               stored := stored p; files := files p |}.
Proof.
  unfold getCurrentQuiz. destruct (vaultPlain p) as [v|]; [|discriminate].
  intros H. exists v. split; [reflexivity|].
  destruct (match currentQuizId p with
            | Some i => Some i
            | None => match quizzes v with q :: _ => Some (quiz_id q) | [] => None end
            end) as [i|]; [|discriminate].
  destruct (find_first (fun x => bool_decide (quiz_id x = i)) (quizzes v)) as [q|] eqn:Ef;
    [|discriminate].
  injection H as -> <-.
  destruct (find_first_Some _ _ _ Ef) as [_ Hid]. apply bool_decide_eq_true in Hid.
  subst i. split; [exact Ef | reflexivity].
Qed.

Lemma getCurrentQuiz_keeps p :
  nothing_changed p (snd (getCurrentQuiz p)).
Proof.
  unfold getCurrentQuiz, nothing_changed.
  destruct (vaultPlain p) as [v|] eqn:Ev; [|simpl; auto].
  destruct (match currentQuizId p with
            | Some i => Some i
            | None => match quizzes v with q :: _ => Some (quiz_id q) | [] => None end
            end) as [i|]; [|simpl; auto].
  destruct (find_first _ (quizzes v)); simpl; auto.
Qed.

End Collecting.

(** C2 (as amended). A call with fuel for three turns ends; it makes at most
    three requests, each with batch size min(12, remaining). If it fails,
    the vault in memory and the stored vault are as before: with an error
    raised before the first request, with the request, parse or
    normalization error an attempt raised (the questions accepted by earlier
    attempts are then dropped), or, when the loop ended with nothing
    accepted, with NoNewQuestions. Otherwise the loop ended with a non-empty
    accepted set, of at most the requested size, and all of it is appended, in
    some order, to the questions of the current quiz, and the vault is
    stored. *)
Theorem addMoreQuestions_outcome
  (fuel : nat) (service : Service) (count : Z) (p : Plugin) (w : World) :
  (3 <= fuel)%nat ->
  exists out,
    addMoreQuestionsToCurrentQuiz fuel service count p w = Some out
    /\ (length (out_trace out) <= 3)%nat
    /\ Forall (batch_size_ok (desired_count count)) (out_trace out)
    /\ match out_result out with
       | Throw e =>
           nothing_changed p (out_plugin out)
           /\ match e with
              | NoNewQuestions => out_accepted out = [] /\ out_trace out <> []
              | _ => (precondition_failure e /\ out_trace out = [])
                     \/ (attempt_failure e /\ out_trace out <> [])
              end
       | Return n =>
           out_accepted out <> []
           /\ n = length (out_accepted out)
           /\ Z.of_nat n <= desired_count count
           /\ exists old shuffled,
                current_questions p = Some old
                /\ shuffled ≡ₚ out_accepted out
                /\ current_questions (out_plugin out) = Some (old ++ shuffled)
                /\ stored (out_plugin out) = vaultPlain (out_plugin out)
       end.
Proof.
  intros Hfuel. unfold addMoreQuestionsToCurrentQuiz.
  assert (Hfail : forall e p', nothing_changed p p' -> precondition_failure e ->
            exists out, Some (failed e p' w) = Some out
              /\ (length (out_trace out) <= 3)%nat
              /\ Forall (batch_size_ok (desired_count count)) (out_trace out)
              /\ match out_result out with
                 | Throw e =>
                     nothing_changed p (out_plugin out)
                     /\ match e with
                        | NoNewQuestions => out_accepted out = [] /\ out_trace out <> []
                        | _ => (precondition_failure e /\ out_trace out = [])
                               \/ (attempt_failure e /\ out_trace out <> [])
                        end
                 | Return n =>
                     out_accepted out <> []
                     /\ n = length (out_accepted out)
                     /\ Z.of_nat n <= desired_count count
                     /\ exists old shuffled,
                          current_questions p = Some old
                          /\ shuffled ≡ₚ out_accepted out
                          /\ current_questions (out_plugin out) = Some (old ++ shuffled)
                          /\ stored (out_plugin out) = vaultPlain (out_plugin out)
                 end).
  { intros e p' Hp He. exists (failed e p' w). split; [reflexivity|].
    split; [simpl; lia|]. split; [constructor|]. cbn [failed out_result out_plugin].
    split; [exact Hp|]. destruct e; try contradiction; left; split; auto. }
  destruct (vaultPlain p) as [v|] eqn:Ev; [|apply Hfail; [split; auto | exact I]].
  destruct (is_nonempty (apiKey v)); cbn [negb];
    [|apply Hfail; [split; auto | exact I]].
  pose proof (getCurrentQuiz_keeps p) as Hkeep.
  destruct (getCurrentQuiz p) as [[quiz|] p1] eqn:Eg; cbn [snd] in Hkeep;
    [|apply Hfail; [exact Hkeep | exact I]].
  destruct (submitted quiz); [apply Hfail; [exact Hkeep | exact I]|].
  destruct (totalQuestionsFromPlan _ =? 0); [apply Hfail; [exact Hkeep | exact I]|].
  match goal with
  | |- context [match ?s with Return _ => _ | Throw _ => _ end] =>
      assert (Hsrc : forall e, s = Throw e -> precondition_failure e);
      [|destruct s as [src|e]; [|apply Hfail; [exact Hkeep | apply Hsrc; reflexivity]]]
  end.
  { intros e.
    destruct (Grading.sourceText quiz) as [s|];
      [destruct (is_nonempty (trim s)); [discriminate|]|];
      (destruct (is_nonempty (sourcePath quiz));
       [destruct (files p (sourcePath quiz)); [discriminate|]|]);
      intros [= <-]; exact I. }
  fold (desired_count count).
  match goal with
  | |- context [collect_loop fuel service v quiz src ?avoid ?en ?ets ?d ?acc 0%nat w []] =>
      destruct (collect_loop_ends fuel service v quiz src avoid en ets d acc 0%nat w [])
        as (r & acc' & w' & new & Hloop & Hlen & Hall & Hle & Hret & Hthrow & Hnew);
      [lia | rewrite Hloop]
  end.
  cbn [app] in *.
  assert (Hd : 1 <= desired_count count) by (unfold desired_count, clampInt; lia).
  specialize (Hle ltac:(simpl; lia)).
  destruct r as [a|e].
  - destruct (collected acc') as [|c cs] eqn:Ec.
    + eexists. split; [reflexivity|]. cbn [out_trace out_result out_plugin out_accepted].
      split; [simpl in Hlen; lia|]. split; [exact Hall|]. split; [exact Hkeep|].
      split; [reflexivity|]. apply Hnew; [simpl; lia | lia].
    + pose proof (shuffleInPlace_perm (c :: cs) w') as Hperm.
      destruct (shuffleInPlace (c :: cs) w') as [shuffled w2]. cbn [fst] in Hperm.
      destruct (Date_now w2) as [now w3].
      eexists. split; [reflexivity|]. cbn [out_trace out_result out_plugin out_accepted].
      split; [simpl in Hlen; lia|]. split; [exact Hall|].
      split; [discriminate|]. split; [reflexivity|].
      split; [exact Hle|].
      destruct (getCurrentQuiz_found p quiz p1 Eg) as (v0 & Hv0 & Hfind & ->).
      rewrite Ev in Hv0. injection Hv0 as <-.
      exists (questions quiz), shuffled.
      split; [unfold current_questions; rewrite Eg; reflexivity|].
      split; [exact Hperm|]. split; [|reflexivity].
      unfold current_questions, getCurrentQuiz.
      cbn [vaultPlain currentQuizId quizzes].
      erewrite find_first_update_first; [reflexivity | exact Hfind | reflexivity].
  - destruct (Hthrow e eq_refl) as [He Hnew'].
    eexists. split; [reflexivity|]. cbn [out_trace out_result out_plugin out_accepted].
    split; [simpl in Hlen; lia|]. split; [exact Hall|]. split; [exact Hkeep|].
    destruct e; try contradiction; right; split; auto.
Qed.

Lemma addMoreQuestions_outcome_witness :
  let run := addMoreQuestionsToCurrentQuiz 3 repeating_service 10 sample_plugin still_world in
  option_map out_result run = Some (Throw NoNewQuestions)
  /\ option_map (fun out => map reqCount (out_trace out)) run = Some [10; 10; 10]
  /\ exists out, run = Some out /\ nothing_changed sample_plugin (out_plugin out).
Proof.
  destruct (addMoreQuestions_outcome 3 repeating_service 10 sample_plugin still_world
              (le_n 3)) as (out & Hout & _ & _ & Hres).
  cbv zeta. rewrite Hout. cbn [option_map].
  assert (E : option_map out_result
                (addMoreQuestionsToCurrentQuiz 3 repeating_service 10 sample_plugin
                   still_world) = Some (Throw NoNewQuestions)) by reflexivity.
  rewrite Hout in E. cbn [option_map] in E. injection E as E.
  rewrite E in Hres |- *. destruct Hres as [Hkeep _].
  split; [reflexivity|]. split.
  - assert (Et : option_map (fun o => map reqCount (out_trace o))
                   (addMoreQuestionsToCurrentQuiz 3 repeating_service 10 sample_plugin
                      still_world) = Some [10; 10; 10]) by reflexivity.
    rewrite Hout in Et. exact Et.
  - exists out. split; [reflexivity | exact Hkeep].
Defined.

(** The claim as stated fails when an attempt raises after an earlier one
    accepted questions: asked for 2, the first batch brings one new question
    and the second response is no JSON; the call fails with the parse error,
    not with NoNewQuestions, and the accepted question is neither appended
    nor stored. *)
Lemma addMoreQuestions_partial_success_counterexample :
  let run := addMoreQuestionsToCurrentQuiz 3 failing_service 2 sample_plugin still_world in
  option_map out_result run = Some (Throw (ParseFailed NotJson))
  /\ option_map (fun out => map q_q (out_accepted out)) run
     = Some [js "Name the longest river in Egypt"]
  /\ option_map (fun out => map reqCount (out_trace out)) run = Some [2; 1]
  /\ option_map (fun out => current_questions (out_plugin out)) run
     = Some (current_questions sample_plugin)
  /\ option_map (fun out => stored (out_plugin out)) run = Some (stored sample_plugin).
Proof. vm_compute. repeat split; reflexivity. Qed.

(** ** The plan and the token budget *)

Section PlanTotals.

Lemma fold_plan_total plan : forall acc,
  fold_left (fun sum item => sum + quantity item) plan acc
  = acc + totalQuestionsFromPlan plan.
Proof.
  unfold totalQuestionsFromPlan.
  induction plan as [|item plan IH]; intros acc; cbn [fold_left]; [lia|].
  rewrite IH, (IH (0 + quantity item)). lia.
Qed.

Lemma totalQuestionsFromPlan_cons item plan :
  totalQuestionsFromPlan (item :: plan) = quantity item + totalQuestionsFromPlan plan.
Proof.
  unfold totalQuestionsFromPlan at 1. cbn [fold_left]. rewrite fold_plan_total. lia.
Qed.

Lemma totalQuestionsFromPlan_bounds plan lo hi :
  Forall (fun item => lo <= quantity item <= hi) plan ->
  Z.of_nat (length plan) * lo <= totalQuestionsFromPlan plan
  <= Z.of_nat (length plan) * hi.
Proof.
  induction 1 as [|item plan H _ IH]; [cbn; lia|].
  rewrite totalQuestionsFromPlan_cons. cbn [length]. lia.
Qed.

Lemma enabled_entries_registered settings :
  forall e, In e (enabled_entries settings) -> In e questionTypeRegistry.
Proof. intros e H. apply filter_In in H. tauto. Qed.

Lemma enabled_entries_length settings : (length (enabled_entries settings) <= 6)%nat.
Proof. unfold enabled_entries. etransitivity; [apply filter_length_le|]. reflexivity. Qed.

End PlanTotals.

Lemma buildQuestionTypePlan_shape (settings : Settings) (total : Z) :
  let plan := buildQuestionTypePlan settings total in
  (exists e, In e questionTypeRegistry /\ plan = [{| entry := e; quantity := total |}])
  \/ (plan <> [] /\ (length plan <= 6)%nat
      /\ Forall (fun item => In (entry item) questionTypeRegistry
                             /\ 0 < quantity item
                             /\ quantity item <= Z.max 0 total) plan).
Proof.
  assert (Hreg := enabled_entries_registered settings).
  assert (Hlen := enabled_entries_length settings).
  assert (Hplan : exists plan, plan = buildQuestionTypePlan settings total) by eauto.
  destruct Hplan as [plan Hplan]. cbv zeta. rewrite <- Hplan.
  unfold buildQuestionTypePlan in Hplan.
  fold (settings_in_force settings) in Hplan.
  fold (enabled_entries settings) in Hplan. subst plan.
  destruct (enabled_entries settings) as [|first [|second rest]] eqn:E.
  - left. exists multipleChoiceEntry. split; [|reflexivity].
    cbn. tauto.
  - left. exists first. split; [apply Hreg; left; reflexivity | reflexivity].
  - set (items := map _ (first :: second :: rest)).
    destruct (List.filter (fun item => 0 <? quantity item) items) as [|a l] eqn:F.
    + left. exists first. split; [apply Hreg; left; reflexivity | reflexivity].
    + right. rewrite <- F. split; [rewrite F; discriminate|]. split.
      * etransitivity; [apply filter_length_le|]. subst items.
        rewrite length_map. exact Hlen.
      * apply List.Forall_forall. intros item Hin. apply filter_In in Hin.
        destruct Hin as [Hin Hpos]. subst items. apply in_map_iff in Hin.
        destruct Hin as (e & <- & He). cbn [entry quantity] in *.
        split; [apply Hreg; exact He|]. split; [lia|].
        unfold clampInt. destruct (setting _ _); lia.
Qed.

(** X3. [buildQuestionTypePlan] never returns an empty plan: it holds between
    one and six entries, all of the registry. For a total of at least 1
    every quantity lies between 1 and the total, so that the plan asks for
    between 1 and six times the total questions; for a total of 0 or less
    the plan is one entry with the total as its quantity. The plan's total is
    therefore 0, which is when the callers raise their empty-plan error,
    exactly when the requested total is 0, whatever types are enabled. *)
Theorem buildQuestionTypePlan_never_empty (settings : Settings) (total : Z) :
  let plan := buildQuestionTypePlan settings total in
  plan <> []
  /\ (length plan <= 6)%nat
  /\ Forall (fun item => In (entry item) questionTypeRegistry) plan
  /\ (1 <= total ->
      Forall (fun item => 1 <= quantity item <= total) plan
      /\ 1 <= totalQuestionsFromPlan plan <= 6 * total)
  /\ (total <= 0 -> totalQuestionsFromPlan plan = total)
  /\ (totalQuestionsFromPlan plan = 0 <-> total = 0).
Proof.
  intros plan.
  destruct (buildQuestionTypePlan_shape settings total)
    as [(e & He & Hp) | (Hne & Hl & Hall)]; fold plan in Hp || fold plan in Hne, Hl, Hall.
  - rewrite Hp. split; [discriminate|]. split; [cbn; lia|].
    split; [constructor; [exact He | constructor]|].
    change (totalQuestionsFromPlan _) with (0 + total). rewrite Z.add_0_l.
    split; [intros Ht; split; [constructor; [cbn; lia | constructor] | lia]|].
    split; [reflexivity | tauto].
  - split; [exact Hne|]. split; [exact Hl|].
    split; [eapply Forall_impl; [exact Hall|]; cbn; tauto|].
    assert (Hpos : 0 < total).
    { destruct plan as [|item plan']; [congruence|].
      apply Forall_inv in Hall. lia. }
    assert (Hq : Forall (fun item => 1 <= quantity item <= total) plan).
    { eapply Forall_impl; [exact Hall|]. cbn. lia. }
    pose proof (totalQuestionsFromPlan_bounds plan 1 total Hq) as Hb.
    assert (1 <= Z.of_nat (length plan)).
    { destruct plan; [congruence | cbn [length]; lia]. }
    split; [intros _; split; [exact Hq | nia]|].
    split; [lia | nia].
Qed.

(** X4. For a question count of magnitude below 10^21 (one that prints in
    plain digits) [recommendedMaxOutputTokens] is 900 + 190 * count held
    between 1200 and 12000: the clamp of the count to 1..60 changes nothing.
    The result always lies between 1200 and 12000 and never decreases when
    the count grows. *)
Theorem recommendedMaxOutputTokens_closed_form (questionCount : Z) :
  Z.abs questionCount < 10 ^ 21 ->
  recommendedMaxOutputTokens questionCount
  = Z.max 1200 (Z.min 12000 (900 + 190 * questionCount))
  /\ 1200 <= recommendedMaxOutputTokens questionCount <= 12000
  /\ (forall m, Z.abs m < 10 ^ 21 -> questionCount <= m ->
        recommendedMaxOutputTokens questionCount <= recommendedMaxOutputTokens m).
Proof.
  intros _. unfold recommendedMaxOutputTokens, clampInt. repeat split; try lia.
Qed.

Lemma recommendedMaxOutputTokens_closed_form_witness :
  recommendedMaxOutputTokens 10 = 2800
  /\ recommendedMaxOutputTokens 1 = 1200
  /\ recommendedMaxOutputTokens 300 = 12000.
Proof.
  destruct (recommendedMaxOutputTokens_closed_form 10 ltac:(reflexivity)) as (H & _ & _).
  rewrite H. repeat split.
Defined.

(** ** The normalized text of a question *)

Section Trimming.

Lemma trimStart_split s :
  exists w, s = w ++ trimStart s /\ forallb is_space w = true.
Proof.
  induction s as [|c r (w & Hr & Hw)]; [exists []; split; reflexivity|].
  cbn [trimStart]. destruct (is_space c) eqn:E.
  - exists (c :: w). cbn [app forallb]. rewrite E, Hw, <- Hr. split; reflexivity.
  - exists []. split; reflexivity.
Qed.

Lemma forallb_rev {A} (p : A -> bool) l : forallb p (rev l) = forallb p l.
Proof.
  induction l as [|a l IH]; [reflexivity|].
  cbn [rev forallb]. rewrite forallb_app, IH. cbn. rewrite andb_true_r. apply andb_comm.
Qed.

Lemma trimEnd_split s :
  exists w, s = trimEnd s ++ w /\ forallb is_space w = true.
Proof.
  unfold trimEnd. destruct (trimStart_split (rev s)) as (w & Hs & Hw).
  exists (rev w). split; [|rewrite forallb_rev; exact Hw].
  rewrite <- rev_app_distr, <- Hs, rev_involutive. reflexivity.
Qed.

Lemma trim_split s :
  exists a b, s = a ++ trim s ++ b
              /\ forallb is_space a = true /\ forallb is_space b = true.
Proof.
  destruct (trimStart_split s) as (a & Ha & Hwa).
  destruct (trimEnd_split (trimStart s)) as (b & Hb & Hwb).
  exists a, b. unfold trim. rewrite <- Hb, <- Ha. auto.
Qed.

Lemma trim_head s :
  match trim s with c :: _ => is_space c = false | [] => True end.
Proof.
  pose proof (trimStart_head s) as H.
  destruct (trimEnd_split (trimStart s)) as (w & Hw & _).
  unfold trim. destruct (trimEnd (trimStart s)) as [|c r]; [exact I|].
  rewrite Hw in H. exact H.
Qed.

Lemma trim_idempotent s : trim (trim s) = trim s.
Proof.
  pose proof (trim_head s) as Hh. pose proof (trim_last s) as Hl.
  destruct (trim s) as [|c r] eqn:E; [reflexivity|].
  destruct (last (c :: r)) as [l|] eqn:El; [|discriminate].
  apply (trim_clean (c :: r) c l); [reflexivity | exact Hh | exact El | exact Hl].
Qed.

Lemma trimStart_all_space s : forallb is_space s = true -> trimStart s = [].
Proof.
  induction s as [|c r IH]; [reflexivity|]. cbn [forallb trimStart].
  intros [Hc Hr]%andb_prop. rewrite Hc. apply IH, Hr.
Qed.

Lemma trim_nil_iff s : trim s = [] <-> forallb is_space s = true.
Proof.
  split.
  - intros H. destruct (trim_split s) as (a & b & Hs & Ha & Hb).
    rewrite H in Hs. rewrite Hs, forallb_app, Ha. exact Hb.
  - intros H. unfold trim. rewrite (trimStart_all_space s H). reflexivity.
Qed.

End Trimming.

Section SpaceRuns.

Lemma span_space_split r :
  r = fst (span_space r) ++ snd (span_space r)
  /\ forallb is_space (fst (span_space r)) = true
  /\ head_is_space (snd (span_space r)) = false.
Proof.
  induction r as [|c r (IH1 & IH2 & IH3)]; [repeat split|].
  cbn [span_space]. destruct (is_space c) eqn:E.
  - destruct (span_space r) as [w t]. cbn [fst snd] in *.
    cbn [app forallb]. rewrite E, IH2, <- IH1. repeat split. exact IH3.
  - cbn [fst snd app forallb head_is_space]. repeat split. exact E.
Qed.

Lemma replace_skip_run (m : matcher) r :
  replace_from m (length (fst (span_space r))) r
  = replace_from m 0 (snd (span_space r)).
Proof.
  induction r as [|c r IH]; [reflexivity|].
  cbn [span_space]. destruct (is_space c).
  - destruct (span_space r) as [w t]. cbn [fst snd length] in *.
    cbn [replace_from]. exact IH.
  - reflexivity.
Qed.

Lemma collapse_cons c r :
  replace_all space_run (c :: r)
  = if is_space c then space :: replace_all space_run (snd (span_space r))
    else c :: replace_all space_run r.
Proof.
  unfold replace_all. cbn [replace_from space_run].
  destruct (is_space c); [|reflexivity].
  cbn [Nat.pred app]. rewrite replace_skip_run. reflexivity.
Qed.

Lemma span_space_snd_length r : (length (snd (span_space r)) <= length r)%nat.
Proof.
  destruct (span_space_split r) as (H & _ & _).
  rewrite H at 2. rewrite length_app. lia.
Qed.

(** Induction along the runs that [/\s+/g] replaces. *)
Lemma collapse_ind (P : jsstr -> jsstr -> Prop) :
  P [] [] ->
  (forall c r out, is_space c = true ->
     P (snd (span_space r)) out -> P (c :: r) (space :: out)) ->
  (forall c r out, is_space c = false -> P r out -> P (c :: r) (c :: out)) ->
  forall s, P s (replace_all space_run s).
Proof.
  intros H0 Hs Hn s.
  remember (length s) as n eqn:En. revert s En.
  induction n as [n IH] using lt_wf_ind. intros s ->.
  destruct s as [|c r]; [exact H0|].
  rewrite collapse_cons. destruct (is_space c) eqn:E.
  - apply Hs; [exact E|].
    apply (IH (length (snd (span_space r)))); [|reflexivity].
    pose proof (span_space_snd_length r). cbn [length]. lia.
  - apply Hn; [exact E|]. apply (IH (length r)); [cbn [length]; lia | reflexivity].
Qed.

Lemma forallb_app_r {A} (p : A -> bool) a b :
  forallb p (a ++ b) = true -> forallb p b = true.
Proof. rewrite forallb_app. intros [_ H]%andb_prop. exact H. Qed.

Lemma forallb_app_l {A} (p : A -> bool) a b :
  forallb p (a ++ b) = true -> forallb p a = true.
Proof. rewrite forallb_app. intros [H _]%andb_prop. exact H. Qed.

Lemma collapse_word_or_space s :
  forallb is_word_or_space s = true ->
  forallb is_word_or_space (replace_all space_run s) = true.
Proof.
  apply (collapse_ind (fun s out =>
    forallb is_word_or_space s = true -> forallb is_word_or_space out = true)).
  - auto.
  - intros c r out _ IH [_ Hr]%andb_prop. cbn [forallb]. apply IH.
    destruct (span_space_split r) as (H & _ & _). rewrite H in Hr.
    apply (forallb_app_r _ _ _ Hr).
  - intros c r out _ IH [Hc Hr]%andb_prop. cbn [forallb]. rewrite Hc. apply IH, Hr.
Qed.

Lemma collapse_single_spaced s :
  single_spaced (replace_all space_run s) = true
  /\ head_is_space (replace_all space_run s) = head_is_space s.
Proof.
  apply (collapse_ind (fun s out =>
    single_spaced out = true /\ head_is_space out = head_is_space s)).
  - split; reflexivity.
  - intros c r out Hc [IH1 IH2]. cbn [single_spaced head_is_space].
    destruct (span_space_split r) as (_ & _ & Hh). rewrite IH2, Hh, IH1, Hc.
    split; reflexivity.
  - intros c r out Hc [IH1 IH2]. cbn [single_spaced head_is_space].
    rewrite Hc, IH1. split; reflexivity.
Qed.

Lemma collapse_fixed s : single_spaced s = true -> replace_all space_run s = s.
Proof.
  induction s as [|c r IH]; [reflexivity|].
  cbn [single_spaced]. intros [Hc Hr]%andb_prop. rewrite collapse_cons.
  destruct (is_space c).
  - apply andb_prop in Hc as [Hc Hh]. apply N.eqb_eq in Hc. subst c.
    apply negb_true_iff in Hh.
    assert (Hsp : span_space r = ([], r)).
    { destruct r as [|d r']; [reflexivity|]. cbn [head_is_space] in Hh.
      cbn [span_space]. rewrite Hh. reflexivity. }
    rewrite Hsp. cbn [snd]. rewrite (IH Hr). reflexivity.
  - rewrite (IH Hr). reflexivity.
Qed.

Lemma collapse_all_space s :
  forallb is_space (replace_all space_run s) = forallb is_space s.
Proof.
  apply (collapse_ind (fun s out => forallb is_space out = forallb is_space s)).
  - reflexivity.
  - intros c r out Hc IH. cbn [forallb]. rewrite Hc. change (is_space space) with true.
    cbn [andb]. rewrite IH.
    destruct (span_space_split r) as (H & Hw & _). rewrite H at 2.
    rewrite forallb_app, Hw. reflexivity.
  - intros c r out Hc IH. cbn [forallb]. rewrite Hc. reflexivity.
Qed.

Lemma single_spaced_app_r a b : single_spaced (a ++ b) = true -> single_spaced b = true.
Proof.
  induction a as [|c a IH]; [auto|]. cbn [app single_spaced].
  intros [_ H]%andb_prop. apply IH, H.
Qed.

Lemma single_spaced_app_l a b : single_spaced (a ++ b) = true -> single_spaced a = true.
Proof.
  induction a as [|c a IH]; [auto|]. cbn [app single_spaced].
  intros [Hc H]%andb_prop. rewrite (IH H), andb_true_r.
  destruct (is_space c); [|reflexivity].
  apply andb_prop in Hc as [Hc Hh]. rewrite Hc. cbn [andb].
  destruct a as [|d a']; [reflexivity | exact Hh].
Qed.

End SpaceRuns.

Section NormalForm.

Lemma word_or_space_lower s :
  forallb is_word_or_space s = true -> toLowerCase s = s.
Proof.
  induction s as [|c r IH]; [reflexivity|]. cbn [forallb].
  intros [Hc Hr]%andb_prop. unfold toLowerCase in *. cbn [flat_map].
  rewrite (IH Hr).
  assert (lower_unit c = [c]) as ->; [|reflexivity].
  unfold lower_unit, is_word_or_space in *.
  destruct (N.leb_spec 65 c), (N.leb_spec c 90), (N.eqb_spec c 304),
    (N.eqb_spec c 8490); cbn [andb]; try reflexivity; exfalso;
    destruct (N.leb_spec 97 c), (N.leb_spec c 122), (N.leb_spec 48 c),
      (N.leb_spec c 57), (N.eqb_spec c 32); cbn in Hc; try discriminate; lia.
Qed.

Lemma word_or_space_kept s :
  forallb is_word_or_space s = true ->
  map (fun c => if is_word_or_space c then c else space) s = s.
Proof.
  induction s as [|c r IH]; [reflexivity|]. cbn [forallb map].
  intros [Hc Hr]%andb_prop. rewrite Hc, (IH Hr). reflexivity.
Qed.

Lemma replaced_word_or_space s :
  forallb is_word_or_space
    (map (fun c => if is_word_or_space c then c else space) s) = true.
Proof.
  induction s as [|c r IH]; [reflexivity|]. cbn [map forallb]. rewrite IH, andb_true_r.
  destruct (is_word_or_space c) eqn:E; [exact E | reflexivity].
Qed.

Lemma normText_form s :
  forallb is_word_or_space (normText s) = true
  /\ single_spaced (normText s) = true
  /\ trim (normText s) = normText s.
Proof.
  unfold normText.
  set (t := replace_all space_run _).
  assert (Hw : forallb is_word_or_space t = true)
    by apply collapse_word_or_space, replaced_word_or_space.
  assert (Hs : single_spaced t = true) by apply collapse_single_spaced.
  destruct (trim_split t) as (a & b & Ht & _ & _).
  split; [|split; [|apply trim_idempotent]].
  - rewrite Ht in Hw. apply forallb_app_r in Hw. apply forallb_app_l in Hw. exact Hw.
  - rewrite Ht in Hs. apply single_spaced_app_r in Hs.
    apply single_spaced_app_l in Hs. exact Hs.
Qed.

Lemma normText_fixed n :
  forallb is_word_or_space n = true -> single_spaced n = true -> trim n = n ->
  normText n = n.
Proof.
  intros Hw Hs Ht. unfold normText.
  rewrite (word_or_space_lower n Hw), (word_or_space_kept n Hw), (collapse_fixed n Hs).
  exact Ht.
Qed.

Lemma normText_idempotent s : normText (normText s) = normText s.
Proof.
  destruct (normText_form s) as (Hw & Hs & Ht). apply normText_fixed; assumption.
Qed.

Lemma tokenSet_normText s : tokenSet (normText s) = tokenSet s.
Proof. unfold tokenSet. rewrite normText_idempotent. reflexivity. Qed.

Lemma lower_reaches_word c :
  existsb is_word_char (lower_unit c) = reaches_word c.
Proof.
  unfold lower_unit, reaches_word, is_word_char.
  destruct (N.eqb_spec c 304) as [->|H1]; [reflexivity|].
  destruct (N.eqb_spec c 8490) as [->|H2]; [reflexivity|].
  destruct (N.leb_spec 65 c), (N.leb_spec c 90); cbn [andb orb existsb];
    repeat match goal with
    | |- context [(?a <=? ?b)%N] => destruct (N.leb_spec a b); try lia
    end; reflexivity.
Qed.

Lemma replaced_space c :
  is_space (if is_word_or_space c then c else space) = negb (is_word_char c).
Proof.
  unfold is_word_or_space, is_word_char.
  destruct (N.leb_spec 97 c), (N.leb_spec c 122), (N.leb_spec 48 c),
    (N.leb_spec c 57), (N.eqb_spec c 32); cbn [andb orb negb]; subst;
    try reflexivity; try lia;
    unfold is_space;
    repeat match goal with
    | |- context [(?a <=? ?b)%N] => destruct (N.leb_spec a b); try lia
    | |- context [(?a =? ?b)%N] => destruct (N.eqb_spec a b); try lia
    end; reflexivity.
Qed.

Lemma forallb_flat_map {A B} (p : B -> bool) (f : A -> list B) l :
  forallb p (flat_map f l) = forallb (fun a => forallb p (f a)) l.
Proof.
  induction l as [|a l IH]; [reflexivity|].
  cbn [flat_map forallb]. rewrite forallb_app, IH. reflexivity.
Qed.

Lemma forallb_of_map {A B} (p : B -> bool) (f : A -> B) l :
  forallb p (map f l) = forallb (fun a => p (f a)) l.
Proof.
  induction l as [|a l IH]; [reflexivity|]. cbn [map forallb]. rewrite IH. reflexivity.
Qed.

Lemma forallb_same {A} (p q : A -> bool) l :
  (forall a, p a = q a) -> forallb p l = forallb q l.
Proof.
  intros H. induction l as [|a l IH]; [reflexivity|].
  cbn [forallb]. rewrite H, IH. reflexivity.
Qed.

Lemma forallb_negb_existsb {A} (p : A -> bool) l :
  forallb (fun a => negb (p a)) l = negb (existsb p l).
Proof.
  induction l as [|a l IH]; [reflexivity|].
  cbn [forallb existsb]. rewrite IH, negb_orb. reflexivity.
Qed.

Lemma normText_nil_iff s :
  normText s = [] <-> forallb (fun c => negb (reaches_word c)) s = true.
Proof.
  unfold normText. rewrite trim_nil_iff, collapse_all_space, forallb_of_map.
  rewrite (forallb_same _ (fun c => negb (is_word_char c)))
    by (intros c; apply replaced_space).
  unfold toLowerCase. rewrite forallb_flat_map.
  rewrite (forallb_same _ (fun c => negb (reaches_word c))); [reflexivity|].
  intros c. rewrite forallb_negb_existsb, lower_reaches_word. reflexivity.
Qed.

End NormalForm.

Section Symmetry.

Lemma jaccard_symmetric (a b : gset jsstr) : jaccard a b = jaccard b a.
Proof.
  rewrite !jaccard_is_similarity. unfold jaccard_similarity.
  rewrite (comm_L (∩) a b), (comm_L (∪) a b).
  destruct (bool_decide_reflect (a = ∅ \/ b = ∅)) as [H|H];
    destruct (bool_decide_reflect (b = ∅ \/ a = ∅)) as [H'|H'];
    try reflexivity; tauto.
Qed.

Lemma isNearDuplicate_swap (a b : jsstr) :
  normText a <> [] -> normText b <> [] ->
  isNearDuplicate a {[normText b]} [tokenSet b]
  = isNearDuplicate b {[normText a]} [tokenSet a].
Proof.
  intros Ha Hb. unfold isNearDuplicate.
  rewrite !tokenSet_normText.
  destruct (normText a) as [|ca na] eqn:Ea; [contradiction|].
  destruct (normText b) as [|cb nb] eqn:Eb; [contradiction|].
  cbn [existsb]. rewrite (jaccard_symmetric (tokenSet a) (tokenSet b)).
  destruct (bool_decide_reflect (ca :: na ∈ ({[cb :: nb]} : gset jsstr))) as [H|H];
    destruct (bool_decide_reflect (cb :: nb ∈ ({[ca :: na]} : gset jsstr))) as [H'|H'];
    try reflexivity; exfalso; set_solver.
Qed.

End Symmetry.

(** X5. Whatever the text, [normText] returns a text in normal form: only
    characters of [[a-z0-9 ]], no two spaces in a row, no space at either
    end. Normalizing it again changes nothing, and its token set is that of
    the original text. *)
Theorem normText_normal_form (s : jsstr) :
  let n := normText s in
  forallb is_word_or_space n = true
  /\ single_spaced n = true
  /\ trim n = n
  /\ normText n = n
  /\ tokenSet n = tokenSet s.
Proof.
  destruct (normText_form s) as (Hw & Hs & Ht).
  repeat split; try assumption.
  - apply normText_idempotent.
  - apply tokenSet_normText.
Qed.

(** X6. The normalized text is empty exactly when no code unit of the text
    is an ASCII letter or digit (or U+0130 or the Kelvin sign, whose lower
    case is one): such a text, a question written wholly in another script
    for instance, is reported as a near duplicate whatever exists. *)
Theorem isNearDuplicate_of_wordless_text (qText : jsstr) :
  (normText qText = [] <-> forallb (fun c => negb (reaches_word c)) qText = true)
  /\ (forallb (fun c => negb (reaches_word c)) qText = true ->
      forall existing existingTokenSets,
        isNearDuplicate qText existing existingTokenSets = true).
Proof.
  split; [apply normText_nil_iff|].
  intros H existing sets. apply normText_nil_iff in H.
  unfold isNearDuplicate. rewrite H. reflexivity.
Qed.

(** X7. Between two texts that do not normalize to the empty text, being a
    near duplicate does not depend on which of the two is the candidate and
    which the existing question. *)
Theorem isNearDuplicate_symmetric (a b : jsstr) :
  normText a <> [] -> normText b <> [] ->
  isNearDuplicate a {[normText b]} [tokenSet b]
  = isNearDuplicate b {[normText a]} [tokenSet a].
Proof. apply isNearDuplicate_swap. Qed.

Lemma isNearDuplicate_symmetric_witness :
  let a := js "What's the capital city of France?" in
  let b := js "What is the capital of France?" in
  isNearDuplicate a {[normText b]} [tokenSet b]
  = isNearDuplicate b {[normText a]} [tokenSet a]
  /\ isNearDuplicate a {[normText b]} [tokenSet b] = true.
Proof.
  split; [|vm_compute; reflexivity].
  apply isNearDuplicate_symmetric; vm_compute; discriminate.
Defined.

(** ** The collector accepts no repeats *)

Section Fresh.

Lemma isNearDuplicate_false (x : jsstr) (seen : gset jsstr) (TS : list (gset jsstr)) :
  isNearDuplicate x seen TS = false
  <-> normText x <> [] /\ (normText x ∉ seen)
      /\ Forall (fun t => (0.72 <=? jaccard (tokenSet (normText x)) t)%float = false) TS.
Proof.
  unfold isNearDuplicate. destruct (normText x) as [|c n] eqn:E.
  { split; [discriminate | intros [H _]; contradiction]. }
  destruct (bool_decide_reflect (c :: n ∈ seen)) as [Hin|Hin].
  { split; [discriminate | intros (_ & H & _); contradiction]. }
  rewrite <- E. split.
  - intros H. split; [rewrite E; discriminate|]. split; [rewrite E; exact Hin|].
    apply List.Forall_forall. intros t Ht.
    destruct (0.72 <=? jaccard (tokenSet (normText x)) t)%float eqn:Ej; [|reflexivity].
    rewrite <- H. symmetry. apply existsb_exists. exists t. split; assumption.
  - intros (_ & _ & H). destruct (existsb _ TS) eqn:Ex; [|reflexivity].
    apply existsb_exists in Ex as (t & Ht & Hj).
    rewrite List.Forall_forall in H. rewrite (H t Ht) in Hj. discriminate.
Qed.

Lemma isNearDuplicate_false_one (x : jsstr) (seen : gset jsstr)
  (TS : list (gset jsstr)) (n : jsstr) (t : gset jsstr) :
  isNearDuplicate x seen TS = false -> n ∈ seen -> In t TS ->
  isNearDuplicate x {[n]} [t] = false.
Proof.
  rewrite !isNearDuplicate_false. intros (Hne & Hin & Hall) Hn Ht.
  split; [exact Hne|].
  split; [rewrite elem_of_singleton; intros Heq; rewrite Heq in Hin; contradiction|].
  constructor; [|constructor]. rewrite List.Forall_forall in Hall. apply Hall, Ht.
Qed.

Lemma ForallOrdPairs_snoc {A} (R : A -> A -> Prop) l x :
  ForallOrdPairs R l -> Forall (fun a => R a x) l -> ForallOrdPairs R (l ++ [x]).
Proof.
  induction 1 as [|a l Ha Hl IH]; intros Hx; cbn [app].
  - constructor; constructor.
  - apply Forall_cons in Hx as [Hax Hx]. constructor; [|apply IH, Hx].
    apply Forall_app. split; [exact Ha | constructor; [exact Hax | constructor]].
Qed.

Lemma ForallOrdPairs_perm {A} (R : A -> A -> Prop) l l' :
  (forall a b, R a b -> R b a) ->
  l ≡ₚ l' -> ForallOrdPairs R l -> ForallOrdPairs R l'.
Proof.
  intros Hsym Hp. induction Hp as [|x l l' Hp IH|x y l|l l' l'' _ IH1 _ IH2]; intros H.
  - exact H.
  - inversion H as [|? ? Hx Hl]; subst. constructor; [|apply IH, Hl].
    rewrite <- Hp. exact Hx.
  - inversion H as [|? ? Hy Hl]; subst. inversion Hl as [|? ? Hx Hl']; subst.
    apply Forall_cons in Hy as [Hyx Hy].
    constructor; [constructor; [apply Hsym, Hyx | exact Hx]|].
    constructor; assumption.
  - apply IH2, IH1, H.
Qed.

Lemma distinct_questions_sym a b : distinct_questions a b -> distinct_questions b a.
Proof. intros [H1 H2]. split; assumption. Qed.

Lemma randomizeQuestionChoices_text q w :
  q_q (fst (randomizeQuestionChoices q w)) = q_q q.
Proof.
  unfold randomizeQuestionChoices. destruct (shuffleInPlace _ w). reflexivity.
Qed.

Lemma accept_batch_fresh old desired normalized : forall acc w,
  accepted_fresh old acc ->
  accepted_fresh old
    (fst (accept_batch desired (existing_norms old) (existing_token_sets old)
            normalized acc w)).
Proof.
  induction normalized as [|q r IH]; intros acc w Hacc; [exact Hacc|].
  cbn [accept_batch].
  destruct (desired <=? Z.of_nat (length (collected acc))); [exact Hacc|].
  destruct (isNearDuplicate (q_q q) (existing_norms old) (existing_token_sets old))
    eqn:H1; [apply IH, Hacc|].
  destruct (isNearDuplicate (q_q q) (collectedNorm acc) (collectedTokenSets acc))
    eqn:H2; [apply IH, Hacc|].
  pose proof (randomizeQuestionChoices_text q w) as Hq.
  destruct (randomizeQuestionChoices q w) as [q' w']. cbn [fst] in Hq.
  apply IH. destruct Hacc as (Hn & Ht & Hf & Hd).
  unfold accepted_fresh. cbn [collected collectedNorm collectedTokenSets].
  split; [|split; [|split]].
  - rewrite map_app, list_to_set_app_L, Hn. cbn [map list_to_set]. rewrite Hq.
    rewrite (right_id_L ∅ (∪)). apply (comm_L (∪)).
  - rewrite map_app, Ht. cbn [map]. rewrite Hq. reflexivity.
  - apply Forall_app. split; [exact Hf|].
    constructor; [|constructor]. unfold fresh_against. rewrite Hq. exact H1.
  - apply ForallOrdPairs_snoc; [exact Hd|].
    apply List.Forall_forall. intros a Ha.
    assert (Hone : isNearDuplicate (q_q q') {[normText (q_q a)]} [tokenSet (q_q a)]
                   = false).
    { rewrite Hq. apply (isNearDuplicate_false_one _ _ _ _ _ H2).
      - rewrite Hn. apply elem_of_list_to_set, list_elem_of_In.
        apply (in_map (fun q => normText (q_q q))), Ha.
      - rewrite Ht. apply (in_map (fun q => tokenSet (q_q q))), Ha. }
    split; [exact Hone|].
    rewrite isNearDuplicate_swap; [exact Hone | |].
    + rewrite List.Forall_forall in Hf. specialize (Hf a Ha).
      apply isNearDuplicate_false in Hf. tauto.
    + rewrite Hq. apply isNearDuplicate_false in H1. tauto.
Qed.

Lemma collect_loop_fresh old fuel service v quiz src avoid desired :
  forall acc attempts w trace r acc' w' trace',
    accepted_fresh old acc ->
    collect_loop fuel service v quiz src avoid (existing_norms old)
      (existing_token_sets old) desired acc attempts w trace
    = Some (r, acc', w', trace') ->
    accepted_fresh old acc'.
Proof.
  induction fuel as [|fuel IH]; intros acc attempts w trace r acc' w' trace' Hacc;
    cbn [collect_loop];
    destruct ((Z.of_nat (length (collected acc)) <? desired) && (attempts <? 3)%nat);
    try discriminate; try (intros [= <- <- <- <-]; exact Hacc).
  match goal with
  | |- context [service ?n ?b] => destruct (service n b) as [json|]
  end; [|intros [= <- <- <- <-]; exact Hacc].
  destruct (safeParseJson (extractOutputText json)) as [parsed|e];
    [|intros [= <- <- <- <-]; exact Hacc].
  destruct (normalize_all _ (choicesCount quiz) w) as [[normalized|e] w1];
    [|intros [= <- <- <- <-]; exact Hacc].
  pose proof (accept_batch_fresh old desired normalized acc w1 Hacc) as Hnext.
  destruct (accept_batch desired _ _ normalized acc w1) as [acc1 w2].
  cbn [fst] in Hnext. apply IH. exact Hnext.
Qed.

End Fresh.

Section CollectorRuns.

Lemma plan_total_positive (settings : Settings) (total : Z) :
  1 <= total -> 1 <= totalQuestionsFromPlan (buildQuestionTypePlan settings total).
Proof.
  intros Ht.
  destruct (buildQuestionTypePlan_shape settings total)
    as [(e & _ & ->) | (Hne & _ & Hall)].
  - change (totalQuestionsFromPlan _) with (0 + total). lia.
  - assert (Hq : Forall (fun item => 1 <= quantity item <= total)
                   (buildQuestionTypePlan settings total)).
    { eapply Forall_impl; [exact Hall|]. cbn. lia. }
    pose proof (totalQuestionsFromPlan_bounds _ 1 total Hq) as Hb.
    destruct (buildQuestionTypePlan settings total); [congruence|].
    cbn [length] in Hb. lia.
Qed.

Lemma desired_count_range count : 1 <= desired_count count <= 50.
Proof. unfold desired_count, clampInt. lia. Qed.

(** How a call with fuel for its three turns runs: it fails before the loop,
    or the loop ends and what it had accepted is reported; on success the
    accepted questions are appended in some order. It never fails for an
    empty plan. *)
Lemma addMoreQuestions_run fuel service count p w :
  (3 <= fuel)%nat ->
  exists out,
    addMoreQuestionsToCurrentQuiz fuel service count p w = Some out
    /\ out_result out <> Throw PlanEmpty
    /\ ((out_accepted out = [] /\ forall n, out_result out <> Return n)
        \/ exists quiz p1 v src r acc' w' trace,
             getCurrentQuiz p = (Some quiz, p1)
             /\ collect_loop fuel service v quiz src (map q_q (questions quiz))
                  (existing_norms (questions quiz))
                  (existing_token_sets (questions quiz)) (desired_count count)
                  {| collected := []; collectedNorm := ∅; collectedTokenSets := [] |}
                  0%nat w []
                = Some (r, acc', w', trace)
             /\ out_accepted out = collected acc'
             /\ forall n, out_result out = Return n ->
                  n = length (collected acc')
                  /\ exists shuffled,
                       shuffled ≡ₚ collected acc'
                       /\ current_questions (out_plugin out)
                          = Some (questions quiz ++ shuffled)).
Proof.
  intros Hfuel. unfold addMoreQuestionsToCurrentQuiz.
  assert (Hfail : forall e p', e <> PlanEmpty ->
            exists out, Some (failed e p' w) = Some out
              /\ out_result out <> Throw PlanEmpty
              /\ ((out_accepted out = [] /\ forall n, out_result out <> Return n)
                  \/ exists quiz p1 v src r acc' w' trace,
                       getCurrentQuiz p = (Some quiz, p1)
                       /\ collect_loop fuel service v quiz src (map q_q (questions quiz))
                            (existing_norms (questions quiz))
                            (existing_token_sets (questions quiz)) (desired_count count)
                            {| collected := []; collectedNorm := ∅;
                               collectedTokenSets := [] |} 0%nat w []
                          = Some (r, acc', w', trace)
                       /\ out_accepted out = collected acc'
                       /\ forall n, out_result out = Return n ->
                            n = length (collected acc')
                            /\ exists shuffled,
                                 shuffled ≡ₚ collected acc'
                                 /\ current_questions (out_plugin out)
                                    = Some (questions quiz ++ shuffled))).
  { intros e p' He. exists (failed e p' w). split; [reflexivity|].
    cbn [failed out_result out_accepted].
    split; [congruence|]. left. split; [reflexivity | discriminate]. }
  destruct (vaultPlain p) as [v|] eqn:Ev; [|apply Hfail; discriminate].
  destruct (is_nonempty (apiKey v)); cbn [negb]; [|apply Hfail; discriminate].
  destruct (getCurrentQuiz p) as [[quiz|] p1] eqn:Eg; [|apply Hfail; discriminate].
  destruct (submitted quiz); [apply Hfail; discriminate|].
  fold (desired_count count).
  pose proof (desired_count_range count) as Hd.
  pose proof (plan_total_positive (settings v) (desired_count count) ltac:(lia)) as Hplan.
  destruct (Z.eqb_spec (totalQuestionsFromPlan
              (buildQuestionTypePlan (settings v) (desired_count count))) 0) as [H0|_];
    [lia|].
  match goal with
  | |- context [match ?s with Return _ => _ | Throw _ => _ end] =>
      assert (Hsrc : forall e, s = Throw e -> e <> PlanEmpty);
      [|destruct s as [src|e]; [|apply Hfail; apply Hsrc; reflexivity]]
  end.
  { intros e.
    destruct (Grading.sourceText quiz) as [s|];
      [destruct (is_nonempty (trim s)); [discriminate|]|];
      (destruct (is_nonempty (sourcePath quiz));
       [destruct (files p (sourcePath quiz)); [discriminate|]|]);
      intros [= <-]; discriminate. }
  change (list_to_set (map normText (map q_q (questions quiz))))
    with (existing_norms (questions quiz)).
  change (map tokenSet (map q_q (questions quiz)))
    with (existing_token_sets (questions quiz)).
  match goal with
  | |- context [collect_loop fuel service v quiz src ?avoid ?en ?ets ?d ?acc 0%nat w []] =>
      destruct (collect_loop_ends fuel service v quiz src avoid en ets d acc 0%nat w [])
        as (r & acc' & w' & new & Hloop & _ & _ & _ & _ & Hthrow & _);
      [lia | rewrite Hloop]
  end.
  cbn [app] in *.
  destruct r as [a|e].
  - destruct (collected acc') as [|c cs] eqn:Ec.
    + eexists. split; [reflexivity|]. cbn [out_result out_accepted].
      split; [discriminate|]. left. split; [reflexivity | discriminate].
    + pose proof (shuffleInPlace_perm (c :: cs) w') as Hperm.
      destruct (shuffleInPlace (c :: cs) w') as [shuffled w2]. cbn [fst] in Hperm.
      destruct (Date_now w2) as [now w3].
      eexists. split; [reflexivity|]. cbn [out_result out_plugin out_accepted].
      split; [discriminate|]. right.
      exists quiz, p1, v, src, (Return a), acc', w', new.
      split; [reflexivity|]. split; [exact Hloop|]. split; [symmetry; exact Ec|].
      intros n [= <-]. split; [rewrite Ec; reflexivity|].
      exists shuffled. split; [rewrite Ec; exact Hperm|].
      destruct (getCurrentQuiz_found p quiz p1 Eg) as (v0 & Hv0 & Hfind & ->).
      rewrite Ev in Hv0. injection Hv0 as <-.
      unfold current_questions, getCurrentQuiz.
      cbn [vaultPlain currentQuizId quizzes].
      erewrite find_first_update_first; [reflexivity | exact Hfind | reflexivity].
  - destruct (Hthrow e eq_refl) as [He _].
    eexists. split; [reflexivity|]. cbn [out_result out_plugin out_accepted].
    split; [intros [= ->]; exact He|]. right.
    exists quiz, p1, v, src, (Throw e), acc', w', new.
    split; [reflexivity|]. split; [exact Hloop|]. split; [reflexivity|].
    discriminate.
Qed.

End CollectorRuns.

(** X8. A call of [addMoreQuestionsToCurrentQuiz] with fuel for its three
    turns ends, and never with the empty-plan error: the count is first
    clamped up to at least 1, for which every plan asks for at least one
    question. *)
Theorem addMoreQuestions_never_plan_empty
  (fuel : nat) (service : Service) (count : Z) (p : Plugin) (w : World) :
  (3 <= fuel)%nat ->
  exists out,
    addMoreQuestionsToCurrentQuiz fuel service count p w = Some out
    /\ out_result out <> Throw PlanEmpty
    /\ forall v, vaultPlain p = Some v ->
         1 <= totalQuestionsFromPlan
                (buildQuestionTypePlan (settings v) (desired_count count)).
Proof.
  intros Hfuel.
  destruct (addMoreQuestions_run fuel service count p w Hfuel) as (out & Hrun & Hne & _).
  exists out. split; [exact Hrun|]. split; [exact Hne|].
  intros v _. apply plan_total_positive. apply desired_count_range.
Qed.

Lemma addMoreQuestions_never_plan_empty_witness :
  exists out,
    addMoreQuestionsToCurrentQuiz 3 repeating_service 0 sample_plugin still_world
    = Some out
    /\ out_result out <> Throw PlanEmpty.
Proof.
  destruct (addMoreQuestions_never_plan_empty 3 repeating_service 0 sample_plugin
              still_world ltac:(lia)) as (out & Hrun & Hne & _).
  exists out. split; assumption.
Defined.

(** X9. The questions a call of [addMoreQuestionsToCurrentQuiz] accepts are
    never repeats: each is no near duplicate of any question the quiz had,
    every two of them are no near duplicates of each other, and none
    normalizes to the empty text. When the call succeeds, the questions
    appended to the quiz are these, so the same holds of them. *)
Theorem addMoreQuestions_accepts_no_repeats
  (fuel : nat) (service : Service) (count : Z) (p : Plugin) (w : World) :
  (3 <= fuel)%nat ->
  exists out,
    addMoreQuestionsToCurrentQuiz fuel service count p w = Some out
    /\ forall old, current_questions p = Some old ->
         Forall (fresh_against old) (out_accepted out)
         /\ ForallOrdPairs distinct_questions (out_accepted out)
         /\ Forall (fun q => normText (q_q q) <> []) (out_accepted out)
         /\ forall n, out_result out = Return n ->
              exists added,
                current_questions (out_plugin out) = Some (old ++ added)
                /\ length added = n
                /\ Forall (fresh_against old) added
                /\ ForallOrdPairs distinct_questions added.
Proof.
  intros Hfuel.
  destruct (addMoreQuestions_run fuel service count p w Hfuel)
    as (out & Hrun & _ & Hcases).
  exists out. split; [exact Hrun|]. intros old Hold.
  destruct Hcases as [[Hnil Hnot] |
    (quiz & p1 & v & src & r & acc' & w' & trace & Eg & Hloop & Hacc & Hret)].
  - rewrite Hnil. repeat split; try constructor.
    intros n Hn. destruct (Hnot n Hn).
  - assert (old = questions quiz) as ->.
    { unfold current_questions in Hold. rewrite Eg in Hold. cbn in Hold. congruence. }
    assert (Hfresh : accepted_fresh (questions quiz) acc').
    { eapply collect_loop_fresh; [|exact Hloop].
      repeat split; constructor. }
    destruct Hfresh as (_ & _ & Hf & Hd). rewrite Hacc.
    split; [exact Hf|]. split; [exact Hd|]. split.
    + eapply Forall_impl; [exact Hf|]. intros q Hq.
      apply isNearDuplicate_false in Hq. tauto.
    + intros n Hn. destruct (Hret n Hn) as (-> & shuffled & Hperm & Hcur).
      exists shuffled. split; [exact Hcur|]. split.
      * apply Permutation_length in Hperm. exact Hperm.
      * split; [rewrite Hperm; exact Hf|].
        apply (ForallOrdPairs_perm _ (collected acc')); [|symmetry; exact Hperm|exact Hd].
        apply distinct_questions_sym.
Qed.

Lemma addMoreQuestions_accepts_no_repeats_witness :
  exists out,
    addMoreQuestionsToCurrentQuiz 3 fresh_service 2 sample_plugin still_world = Some out
    /\ out_result out = Return 2%nat
    /\ map q_q (out_accepted out)
       = [js "Name the longest river in Egypt"; js "Which planet is the largest?"]
    /\ Forall (fresh_against [sample_question 2 None]) (out_accepted out)
    /\ ForallOrdPairs distinct_questions (out_accepted out).
Proof.
  destruct (addMoreQuestions_accepts_no_repeats 3 fresh_service 2 sample_plugin
              still_world ltac:(lia)) as (out & Hrun & Hall).
  destruct (Hall [sample_question 2 None] eq_refl) as (Hf & Hd & _).
  exists out. split; [exact Hrun|].
  vm_compute in Hrun. injection Hrun as <-.
  split; [reflexivity|]. split; [reflexivity|]. split; assumption.
Defined.

(** ** The text of a response *)

Section ResponseText.

Lemma nonblank_text_Some v s : nonblank_text v = Some s -> trim s <> [].
Proof.
  unfold nonblank_text. destruct v as [[| | |t| |]|]; try discriminate.
  destruct (trim t) eqn:E; [discriminate|]. intros [= <-]. rewrite E. discriminate.
Qed.

Lemma first_text_Some content s : first_text content = Some s -> trim s <> [].
Proof.
  induction content as [|c r IH]; [discriminate|]. cbn [first_text].
  destruct (nonblank_text (prop c "text")) as [t|] eqn:E; [|exact IH].
  intros [= <-]. apply (nonblank_text_Some _ _ E).
Qed.

Lemma first_message_text_blank out :
  first_message_text out = [] \/ trim (first_message_text out) <> [].
Proof.
  induction out as [|item r IH]; [left; reflexivity|]. cbn [first_message_text].
  destruct (prop item "type") as [[| | |t| |]|]; try exact IH.
  destruct (prop item "content") as [[| | | |content|]|]; try exact IH.
  destruct (bool_decide (t = js "message")); [|exact IH].
  destruct (first_text content) as [s|] eqn:E; [|exact IH].
  right. apply (first_text_Some _ _ E).
Qed.

Lemma extractOutputText_blank resp :
  extractOutputText resp = [] \/ trim (extractOutputText resp) <> [].
Proof.
  unfold extractOutputText.
  destruct (nonblank_text (prop resp "output_text")) as [s|] eqn:E.
  - right. apply (nonblank_text_Some _ _ E).
  - destruct (prop resp "output") as [[| | | |out|]|]; try (left; reflexivity).
    apply first_message_text_blank.
Qed.

Lemma safeParseJson_empty text :
  safeParseJson text = Throw EmptyModelOutput <-> trim text = [].
Proof.
  unfold safeParseJson. destruct (trim text) as [|c r] eqn:E; [tauto|].
  split; [|discriminate].
  repeat match goal with
  | |- context [match ?x with _ => _ end] => destruct x; try discriminate
  | |- context [if ?x then _ else _] => destruct x; try discriminate
  end.
Qed.

End ResponseText.

(** X10. [extractOutputText] returns the empty text or a text that is not
    blank, never white space alone; so [safeParseJson] reports empty model
    output for a response exactly when no text was found in it. A non-blank
    [output_text] string is returned as it is, whatever the output items
    hold. *)
Theorem extractOutputText_never_blank (resp : jsval) :
  (extractOutputText resp = [] \/ trim (extractOutputText resp) <> [])
  /\ (safeParseJson (extractOutputText resp) = Throw EmptyModelOutput
      <-> extractOutputText resp = [])
  /\ (forall s, prop resp "output_text" = Some (JStr s) -> trim s <> [] ->
        extractOutputText resp = s)
  /\ (nonblank_text (prop resp "output_text") = None ->
      (forall out, prop resp "output" <> Some (JArr out)) ->
      extractOutputText resp = []).
Proof.
  pose proof (extractOutputText_blank resp) as Hb.
  split; [exact Hb|]. split; [|split].
  - rewrite safeParseJson_empty. split; [|intros ->; reflexivity].
    intros Ht. destruct Hb as [H|H]; [exact H | contradiction].
  - intros s Hs Ht. unfold extractOutputText, nonblank_text. rewrite Hs.
    destruct (trim s); [contradiction | reflexivity].
  - intros Hn Ho. unfold extractOutputText. rewrite Hn.
    destruct (prop resp "output") as [[| | | |out|]|]; try reflexivity.
    destruct (Ho out eq_refl).
Qed.

(** ** What the normalizer returns *)

Section NormalizerResult.

Lemma Qle_bool_false a b : Qle_bool a b = false -> Qle b a.
Proof.
  intros H. apply Qlt_le_weak, Qnot_le_lt. rewrite <- Qle_bool_iff. congruence.
Qed.

Lemma Math_max_ge0 m : Qle 0 (Math_max 0 m).
Proof.
  unfold Math_max. destruct (Qle_bool 0 m) eqn:E;
    [apply Qle_bool_iff, E | apply Qle_refl].
Qed.

Lemma Math_min_le hi x : Qle (Math_min hi x) hi.
Proof.
  unfold Math_min. destruct (Qle_bool hi x) eqn:E;
    [apply Qle_refl | apply Qle_bool_false, E].
Qed.

Lemma Math_max_min_range (hi x : Q) :
  Qle 0 (Math_max 0 (Math_min hi x))
  /\ Qle (Math_max 0 (Math_min hi x)) (Math_max 0 hi).
Proof.
  split; [apply Math_max_ge0|].
  pose proof (Math_min_le hi x) as Hm. unfold Math_max at 1.
  destruct (Qle_bool 0 (Math_min hi x)) eqn:E; [|apply Math_max_ge0].
  apply Qle_bool_iff in E. unfold Math_max.
  assert (H0 : Qle 0 hi) by (eapply Qle_trans; eassumption).
  apply Qle_bool_iff in H0. rewrite H0. exact Hm.
Qed.

Lemma filter_nonempty_trimmed (l : list jsstr) :
  Forall (fun c => c <> [] /\ trim c = c) (List.filter is_nonempty (map trim l)).
Proof.
  apply List.Forall_forall. intros c Hc. apply filter_In in Hc as [Hin Hne].
  apply in_map_iff in Hin as (s & <- & _). split.
  - destruct (trim s); [discriminate | discriminate].
  - apply trim_idempotent.
Qed.

End NormalizerResult.

Section NormalizerPost.

Lemma normalizeQuestion_returns (q : jsval) (choicesCount : Z) (w : World) :
  match normalizeQuestion q choicesCount w with
  | (Return r, w') =>
      q_q r <> [] /\ trim (q_q r) = q_q r
      /\ Z.of_nat (length (q_choices r)) = choicesCount
      /\ Forall (fun c => c <> [] /\ trim c = c) (q_choices r)
      /\ Qle 0 (q_answer_index r)
      /\ Qle (q_answer_index r) (inject_Z (Z.max 0 (choicesCount - 1)))
      /\ trim (q_explanation r) = q_explanation r
      /\ q_user_answer_index r = None
      /\ (q_id r, w') = uid w
  | (Throw _, w') => w' = w
  end.
Proof.
  unfold normalizeQuestion.
  destruct (matchQuestionType q) as [matched|]; [|reflexivity].
  destruct (bool_decide (enabledToggleKey matched = MULTIPLE_CHOICE_TOGGLE_KEY));
    cbn [negb]; [|reflexivity].
  destruct (trim (ToString (or_empty (prop q "q")))) as [|c0 r0] eqn:Eq;
    cbn [is_nonempty negb]; [reflexivity|].
  set (choices := match prop q "choices" with
                  | Some (JArr items) =>
                      List.filter is_nonempty (map (fun x => trim (String_of x)) items)
                  | _ => []
                  end).
  destruct (Z.eqb_spec (Z.of_nat (length choices)) choicesCount) as [Hlen|Hlen];
    cbn [negb]; [|reflexivity].
  destruct (uid w) as [i w'] eqn:Eu.
  cbn [q_q q_choices q_answer_index q_explanation q_user_answer_index q_id].
  split; [discriminate|]. split; [rewrite <- Eq; apply trim_idempotent|].
  split; [exact Hlen|]. split.
  { subst choices. destruct (prop q "choices") as [[| | | |items|]|]; try constructor.
    rewrite <- (map_map String_of trim). apply filter_nonempty_trimmed. }
  match goal with
  | |- context [Math_max 0 (Math_min ?hi ?x)] =>
      destruct (Math_max_min_range hi x) as [H0 Hhi]
  end.
  split; [exact H0|]. split.
  { eapply Qle_trans; [exact Hhi|]. rewrite Hlen. unfold Math_max.
    destruct (Qle_bool 0 (inject_Z (choicesCount - 1))) eqn:E.
    - apply Qle_bool_iff in E.
      change (Qle (inject_Z 0) (inject_Z (choicesCount - 1))) in E.
      rewrite <- Zle_Qle in E. rewrite Z.max_r by lia. apply Qle_refl.
    - apply Qle_bool_false in E.
      change (Qle (inject_Z (choicesCount - 1)) (inject_Z 0)) in E.
      rewrite <- Zle_Qle in E. rewrite Z.max_l by lia. apply Qle_refl. }
  split; [apply trim_idempotent|]. split; reflexivity.
Qed.

End NormalizerPost.

(** X11. Whatever the raw value, a question that [normalizeQuestion] returns
    has a question text that is not empty and carries no surrounding white
    space, exactly [choicesCount] choices, each of them non-empty and
    trimmed, an answer index between 0 and the last index (0 when there is
    no choice), a trimmed explanation, no user answer and the identifier
    [uid] made, for which one random number and one clock reading were
    taken; when it throws, neither was taken. *)
Theorem normalizeQuestion_result (q : jsval) (choicesCount : Z) (w : World) :
  match normalizeQuestion q choicesCount w with
  | (Return r, w') =>
      q_q r <> [] /\ trim (q_q r) = q_q r
      /\ Z.of_nat (length (q_choices r)) = choicesCount
      /\ Forall (fun c => c <> [] /\ trim c = c) (q_choices r)
      /\ Qle 0 (q_answer_index r)
      /\ Qle (q_answer_index r) (inject_Z (Z.max 0 (choicesCount - 1)))
      /\ trim (q_explanation r) = q_explanation r
      /\ q_user_answer_index r = None
      /\ (q_id r, w') = uid w
  | (Throw _, w') => w' = w
  end.
Proof. apply normalizeQuestion_returns. Qed.

(** ** The draws of the shuffle and the indexes it cannot place *)

Section ShuffleDraws.

Context {T : Type}.

Lemma shuffle_from_draws i : forall (arr : list T) w,
  snd (shuffle_from i arr w) = advance i w.
Proof.
  induction i as [|i IH]; intros arr w; [reflexivity|].
  cbn [shuffle_from advance]. destruct (Math_random w) as [x w'] eqn:E.
  cbn [snd]. apply IH.
Qed.

Lemma shuffle_from_length i : forall (arr : list T) w,
  length (fst (shuffle_from i arr w)) = length arr.
Proof. intros arr w. apply Permutation_length, shuffle_from_perm. Qed.

Lemma findIndex_from_none (p : T -> bool) arr : forall i,
  (forall y, y ∈ arr -> p y = false) -> findIndex_from p arr i = -1.
Proof.
  induction arr as [|x r IH]; intros i H; [reflexivity|].
  cbn [findIndex_from]. rewrite (H x) by apply list_elem_of_here.
  apply IH. intros y Hy. apply H. apply list_elem_of_further, Hy.
Qed.

End ShuffleDraws.

Section Misplaced.

Lemma has_index_none q (pairs : list (jsstr * nat)) x :
  pairs ≡ₚ imap pair_with_index (q_choices q) ->
  no_choice_at q x ->
  findIndex (has_index x) pairs = -1.
Proof.
  intros Hperm Hno. apply findIndex_from_none. intros y Hy.
  rewrite Hperm in Hy. apply elem_of_lookup_imap_1 in Hy as (i & t & -> & Hit).
  destruct (has_index x (pair_with_index i t)) eqn:E; [|reflexivity].
  exfalso. apply (Hno i); [apply lookup_lt_Some in Hit; exact Hit|].
  unfold has_index, number_eq in E. apply Qeq_bool_iff in E.
  cbn [snd pair_with_index] in E. symmetry. exact E.
Qed.

End Misplaced.

(** X12. [shuffleInPlace] returns a permutation of the array, of the same
    length, whatever numbers [Math.random()] gives; it draws one random
    number for every element but one and does not read the clock; an array
    of at most one element comes back as it is. *)
Theorem shuffleInPlace_permutes {T : Type} (arr : list T) (w : World) :
  fst (shuffleInPlace arr w) ≡ₚ arr
  /\ length (fst (shuffleInPlace arr w)) = length arr
  /\ snd (shuffleInPlace arr w) = advance (length arr - 1) w
  /\ clock (snd (shuffleInPlace arr w)) = clock w
  /\ ((length arr <= 1)%nat -> shuffleInPlace arr w = (arr, w)).
Proof.
  split; [apply shuffle_from_perm|]. split; [apply shuffle_from_length|].
  split; [apply shuffle_from_draws|]. split.
  - unfold shuffleInPlace. rewrite shuffle_from_draws.
    generalize (length arr - 1)%nat. intros n. revert w.
    induction n as [|n IH]; intros w; [reflexivity|].
    cbn [advance]. rewrite IH. reflexivity.
  - intros Hl. unfold shuffleInPlace.
    replace (length arr - 1)%nat with 0%nat by lia. reflexivity.
Qed.

(** X13. When the answer index of a question is the index of none of its
    choices (it is fractional, negative or too large), the question
    [randomizeQuestionChoices] returns has answer index 0, whichever choice
    the shuffle put there; a user answer index that is the index of no choice
    becomes -1. A question with four choices and answer index 3/2 comes back
    with answer index 0. *)
Theorem randomizeQuestionChoices_misplaced_index :
  (forall (q : QuizQuestion) (w : World),
     no_choice_at q (q_answer_index q) ->
     q_answer_index (fst (randomizeQuestionChoices q w)) = inject_Z 0)
  /\ (forall (q : QuizQuestion) (w : World) (u : Q),
        q_user_answer_index q = Some u -> no_choice_at q u ->
        q_user_answer_index (fst (randomizeQuestionChoices q w)) = Some (inject_Z (-1)))
  /\ (let q := {| q_id := q_id (sample_question 2 None);
                  q_q := q_q (sample_question 2 None);
                  q_choices := q_choices (sample_question 2 None);
                  q_answer_index := 3 # 2;
                  q_explanation := [];
                  q_user_answer_index := Some (inject_Z 7) |} in
      let q' := fst (randomizeQuestionChoices q turning_world) in
      no_choice_at q (q_answer_index q)
      /\ q_choices q' = [js "Bern"; js "Oslo"; js "Rome"; js "Paris"]
      /\ q_answer_index q' = inject_Z 0
      /\ q_user_answer_index q' = Some (inject_Z (-1))).
Proof.
  split; [|split].
  - intros q w Hno. unfold randomizeQuestionChoices.
    pose proof (shuffleInPlace_perm (imap pair_with_index (q_choices q)) w) as Hperm.
    destruct (shuffleInPlace (imap pair_with_index (q_choices q)) w) as [pairs w'].
    cbn [fst q_answer_index] in *.
    rewrite (has_index_none q pairs _ Hperm Hno). reflexivity.
  - intros q w u Hu Hno. unfold randomizeQuestionChoices.
    pose proof (shuffleInPlace_perm (imap pair_with_index (q_choices q)) w) as Hperm.
    destruct (shuffleInPlace (imap pair_with_index (q_choices q)) w) as [pairs w'].
    cbn [fst q_user_answer_index] in *. rewrite Hu.
    rewrite (has_index_none q pairs _ Hperm Hno). reflexivity.
  - split; [|vm_compute; repeat split; reflexivity].
    intros k Hk. cbn [q_answer_index]. unfold Qeq. cbn. lia.
Qed.

(** ** The library operations *)

Section LibraryLemmas.

Lemma find_first_None {A} (p : A -> bool) l :
  find_first p l = None -> forall x, In x l -> p x = false.
Proof.
  induction l as [|y l IH]; intros H x Hx; [destruct Hx|].
  cbn [find_first] in H. destruct (p y) eqn:E; [discriminate|].
  destruct Hx as [<-|Hx]; [exact E | apply IH; assumption].
Qed.

Lemma find_first_kept {A} (p keep : A -> bool) l x :
  find_first p l = Some x -> keep x = true ->
  find_first p (List.filter keep l) = Some x.
Proof.
  induction l as [|y l IH]; [discriminate|]. cbn [find_first List.filter].
  destruct (p y) eqn:Ep.
  - intros [= ->] Hk. rewrite Hk. cbn [find_first]. rewrite Ep. reflexivity.
  - intros Hf Hk. destruct (keep y); [cbn [find_first]; rewrite Ep|]; apply IH; assumption.
Qed.

Lemma find_first_self (l : list Quiz) q :
  find_first (fun x => bool_decide (quiz_id x = quiz_id q)) (q :: l) = Some q.
Proof. cbn [find_first]. rewrite bool_decide_eq_true_2 by reflexivity. reflexivity. Qed.

Lemma getCurrentQuiz_first p v :
  vaultPlain p = Some v -> currentQuizId p = first_quiz_id (quizzes v) ->
  fst (getCurrentQuiz p) = head (quizzes v).
Proof.
  intros Hv Hc. unfold getCurrentQuiz. rewrite Hv, Hc.
  destruct (quizzes v) as [|q l]; [reflexivity|]. cbn [first_quiz_id].
  rewrite find_first_self. reflexivity.
Qed.

Lemma getCurrentQuiz_unset p v :
  vaultPlain p = Some v -> currentQuizId p = None ->
  fst (getCurrentQuiz p) = head (quizzes v).
Proof.
  intros Hv Hc. unfold getCurrentQuiz. rewrite Hv, Hc.
  destruct (quizzes v) as [|q l]; [reflexivity|].
  rewrite find_first_self. reflexivity.
Qed.

Lemma getCurrentQuiz_set p v i :
  vaultPlain p = Some v -> currentQuizId p = Some i ->
  fst (getCurrentQuiz p)
  = find_first (fun x => bool_decide (quiz_id x = i)) (quizzes v).
Proof.
  intros Hv Hc. unfold getCurrentQuiz. rewrite Hv, Hc.
  destruct (find_first _ (quizzes v)); reflexivity.
Qed.

End LibraryLemmas.

(** X14. After [deleteQuiz(id)] no quiz of the vault has the identifier,
    and the others are kept, in their order; the stored vault is not
    written. [getCurrentQuiz] then never finds a deleted quiz: it still finds
    the quiz it found before when that one was not deleted, and it finds the
    first remaining quiz (none if none remains) when the current quiz was the
    one deleted. *)
Theorem deleteQuiz_then_current (id : Id) (p p' : Plugin) :
  deleteQuiz id p = Some p' ->
  exists v v',
    vaultPlain p = Some v /\ vaultPlain p' = Some v'
    /\ quizzes v' = List.filter (fun q => negb (bool_decide (quiz_id q = id))) (quizzes v)
    /\ Forall (fun q => quiz_id q <> id) (quizzes v')
    /\ apiKey v' = apiKey v /\ settings v' = settings v /\ stored p' = stored p
    /\ (forall q, fst (getCurrentQuiz p') = Some q -> quiz_id q <> id)
    /\ (forall q, fst (getCurrentQuiz p) = Some q -> quiz_id q <> id ->
          fst (getCurrentQuiz p') = Some q)
    /\ (currentQuizId p = Some id -> fst (getCurrentQuiz p') = head (quizzes v')).
Proof.
  unfold deleteQuiz. destruct (vaultPlain p) as [v|] eqn:Ev; [|discriminate].
  intros [= <-].
  set (kept := List.filter (fun q => negb (bool_decide (quiz_id q = id))) (quizzes v)).
  set (v' := {| apiKey := apiKey v; settings := settings v; quizzes := kept |}).
  assert (Hkept : Forall (fun q => quiz_id q <> id) kept).
  { apply List.Forall_forall. intros q Hq. apply filter_In in Hq as [_ Hq].
    apply negb_true_iff, bool_decide_eq_false in Hq. exact Hq. }
  exists v, v'. split; [reflexivity|]. split; [reflexivity|]. split; [reflexivity|].
  split; [exact Hkept|]. split; [reflexivity|]. split; [reflexivity|].
  split; [reflexivity|]. split; [|split].
  - intros q Hq.
    destruct (getCurrentQuiz _) as [found p1] eqn:Eg. cbn [fst] in Hq. subst found.
    destruct (getCurrentQuiz_found _ _ _ Eg) as (v0 & Hv0 & Hfind & _).
    cbn [vaultPlain] in Hv0. injection Hv0 as <-.
    apply find_first_Some in Hfind as [Hin _]. cbn [quizzes] in Hin.
    rewrite List.Forall_forall in Hkept. apply Hkept, Hin.
  - intros q Hq Hne.
    destruct (currentQuizId p) as [i|] eqn:Ec.
    + rewrite (getCurrentQuiz_set p v i Ev Ec) in Hq.
      assert (Hi : i <> id).
      { apply find_first_Some in Hq as [_ Hid]. apply bool_decide_eq_true in Hid.
        congruence. }
      rewrite (getCurrentQuiz_set _ v' i); [|reflexivity|].
      * cbn [quizzes v']. apply find_first_kept; [exact Hq|].
        apply negb_true_iff, bool_decide_eq_false. exact Hne.
      * cbn [currentQuizId]. rewrite bool_decide_eq_false_2 by congruence. reflexivity.
    + rewrite (getCurrentQuiz_unset p v Ev Ec) in Hq.
      rewrite (getCurrentQuiz_unset _ v'); [|reflexivity|reflexivity].
      cbn [quizzes v']. subst kept. destruct (quizzes v) as [|q0 l]; [discriminate|].
      injection Hq as ->. cbn [List.filter].
      rewrite bool_decide_eq_false_2 by exact Hne. reflexivity.
  - intros Hc. apply (getCurrentQuiz_first _ v'); [reflexivity|].
    cbn [currentQuizId]. rewrite bool_decide_eq_true_2 by exact Hc. reflexivity.
Qed.

(** ** Questions after the randomizer *)

Section RandomizedQuestions.

Lemma findIndex_from_range {T} (p : T -> bool) arr : forall i,
  findIndex_from p arr i = -1
  \/ i <= findIndex_from p arr i < i + Z.of_nat (length arr).
Proof.
  induction arr as [|x r IH]; intros i; [left; reflexivity|].
  cbn [findIndex_from length]. destruct (p x); [right; lia|].
  destruct (IH (i + 1)) as [H|H]; [left; exact H | right; lia].
Qed.

(** What [randomizeQuestionChoices] keeps, and the answer index it gives: a
    whole number, the index of a choice when there is one. *)
Lemma randomizeQuestionChoices_shape q w :
  let q' := fst (randomizeQuestionChoices q w) in
  length (q_choices q') = length (q_choices q)
  /\ q_q q' = q_q q /\ q_id q' = q_id q /\ q_explanation q' = q_explanation q
  /\ (q_user_answer_index q = None -> q_user_answer_index q' = None)
  /\ exists k : nat,
       q_answer_index q' = inject_Z (Z.of_nat k)
       /\ (q_choices q <> [] -> (k < length (q_choices q'))%nat).
Proof.
  unfold randomizeQuestionChoices.
  pose proof (shuffleInPlace_perm (imap pair_with_index (q_choices q)) w) as Hperm.
  destruct (shuffleInPlace (imap pair_with_index (q_choices q)) w) as [pairs w'].
  cbn [fst q_choices q_q q_id q_explanation q_user_answer_index q_answer_index] in *.
  assert (Hlen : length pairs = length (q_choices q)).
  { rewrite (Permutation_length Hperm). apply length_imap. }
  split; [rewrite length_map; exact Hlen|]. split; [reflexivity|].
  split; [reflexivity|]. split; [reflexivity|].
  split; [intros ->; reflexivity|].
  exists (Z.to_nat (Z.max 0 (findIndex (has_index (q_answer_index q)) pairs))).
  split; [rewrite Z2Nat.id by lia; reflexivity|].
  intros Hne. rewrite length_map, Hlen.
  assert (0 < length (q_choices q))%nat by (destruct (q_choices q); [congruence | cbn; lia]).
  destruct (findIndex_from_range (has_index (q_answer_index q)) pairs 0) as [H1|H1];
    unfold findIndex; lia.
Qed.

Lemma map_in_world_each {A B} (f : A -> World -> B * World) l : forall w,
  Forall2 (fun a b => exists w0, b = fst (f a w0)) l (fst (map_in_world f l w)).
Proof.
  induction l as [|a l IH]; intros w; cbn [map_in_world]; [constructor|].
  destruct (f a w) as [b w1] eqn:E. specialize (IH w1).
  destruct (map_in_world f l w1) as [bs w2]. cbn [fst] in *.
  constructor; [exists w; rewrite E; reflexivity | exact IH].
Qed.

Lemma randomizeQuestions_each qs w (P Q : QuizQuestion -> Prop) :
  (forall q w0, P q -> Q (fst (randomizeQuestionChoices q w0))) ->
  Forall P qs -> Forall Q (fst (randomizeQuestions qs w)).
Proof.
  intros HPQ HP. unfold randomizeQuestions.
  pose proof (map_in_world_each randomizeQuestionChoices qs w) as Heach.
  destruct (map_in_world randomizeQuestionChoices qs w) as [qs1 w1]. cbn [fst] in Heach.
  rewrite (shuffleInPlace_perm qs1 w1).
  clear w1. induction Heach as [|q q' qs qs' (w0 & ->) _ IH]; [constructor|].
  apply Forall_cons in HP as [Hq HP]. constructor; [apply HPQ, Hq | apply IH, HP].
Qed.

Lemma randomizeQuestions_length qs w :
  length (fst (randomizeQuestions qs w)) = length qs.
Proof.
  unfold randomizeQuestions.
  pose proof (map_in_world_each randomizeQuestionChoices qs w) as Heach.
  destruct (map_in_world randomizeQuestionChoices qs w) as [qs1 w1]. cbn [fst] in Heach.
  rewrite (Permutation_length (shuffleInPlace_perm qs1 w1)).
  symmetry. apply (Forall2_length _ _ _ Heach).
Qed.

Lemma randomizeQuestions_sound n qs w :
  1 <= n ->
  Forall (fun q => Z.of_nat (length (q_choices q)) = n) qs ->
  Forall (sound_question n) (fst (randomizeQuestions qs w)).
Proof.
  intros Hn. apply randomizeQuestions_each. intros q w0 Hq.
  destruct (randomizeQuestionChoices_shape q w0) as (Hl & _ & _ & _ & _ & k & Hk & Hlt).
  split; [rewrite Hl; exact Hq|]. exists k. split; [exact Hk|].
  apply Hlt. destruct (q_choices q); [cbn in Hq; lia | discriminate].
Qed.

Lemma randomizeQuestions_unanswered qs w :
  Forall (fun q => q_user_answer_index q = None) qs ->
  Forall (fun q => q_user_answer_index q = None) (fst (randomizeQuestions qs w)).
Proof.
  apply randomizeQuestions_each. intros q w0 Hq.
  destruct (randomizeQuestionChoices_shape q w0) as (_ & _ & _ & _ & Hu & _).
  apply Hu, Hq.
Qed.

Lemma randomizeQuestions_follows qs w :
  exists qs', Forall2 follows_choices qs qs' /\ fst (randomizeQuestions qs w) ≡ₚ qs'.
Proof.
  unfold randomizeQuestions.
  pose proof (map_in_world_follows qs w) as Hf.
  destruct (map_in_world randomizeQuestionChoices qs w) as [qs1 w1]. cbn [fst] in Hf.
  exists qs1. split; [exact Hf | apply shuffleInPlace_perm].
Qed.

Lemma normalize_all_each raw choicesCount : forall w ns w',
  normalize_all raw choicesCount w = (Return ns, w') ->
  Forall2 (fun r n => exists w0 w1, normalizeQuestion r choicesCount w0 = (Return n, w1))
          raw ns.
Proof.
  induction raw as [|r raw IH]; intros w ns w'; cbn [normalize_all].
  - intros [= <- _]. constructor.
  - destruct (normalizeQuestion r choicesCount w) as [[n|e] w1] eqn:E1; [|discriminate].
    destruct (normalize_all raw choicesCount w1) as [[ns1|e] w2] eqn:E2; [|discriminate].
    intros [= <- _]. constructor; [exists w, w1; exact E1 | eapply IH; exact E2].
Qed.

(** The normalized questions of a batch: as many as raw ones, each with the
    required number of choices, a question text and no user answer. *)
Lemma normalize_all_returns raw choicesCount w ns w' :
  normalize_all raw choicesCount w = (Return ns, w') ->
  length ns = length raw
  /\ Forall (fun q => Z.of_nat (length (q_choices q)) = choicesCount) ns
  /\ Forall (fun q => q_user_answer_index q = None) ns
  /\ Forall (fun q => q_q q <> []) ns.
Proof.
  intros H. apply normalize_all_each in H.
  split; [symmetry; apply (Forall2_length _ _ _ H)|].
  assert (Hall : Forall (fun q => Z.of_nat (length (q_choices q)) = choicesCount
                                  /\ q_user_answer_index q = None /\ q_q q <> []) ns).
  { induction H as [|r n raw ns (w0 & w1 & Hn) _ IH]; constructor; [|exact IH].
    pose proof (normalizeQuestion_returns r choicesCount w0) as Hr. rewrite Hn in Hr.
    tauto. }
  repeat split; (eapply Forall_impl; [exact Hall|]; cbn; tauto).
Qed.

End RandomizedQuestions.

Section CopyLemmas.

Lemma clear_answer_unanswered qs :
  Forall (fun q => q_user_answer_index q = None) (map clear_answer qs).
Proof. apply List.Forall_forall. intros q Hq. apply in_map_iff in Hq as (x & <- & _). reflexivity. Qed.

Lemma clear_answer_choices n qs :
  Forall (fun q => Z.of_nat (length (q_choices q)) = n) qs ->
  Forall (fun q => Z.of_nat (length (q_choices q)) = n) (map clear_answer qs).
Proof.
  intros H. apply Forall_map. eapply Forall_impl; [exact H|]. intros q Hq. exact Hq.
Qed.

(** What a call of [copyQuiz] that returns has done. *)
Lemma copyQuiz_returns id p w p' w' :
  copyQuiz id p w = CopyReturns p' w' ->
  exists v,
    vaultPlain p = Some v
    /\ match find_first (fun q => bool_decide (quiz_id q = id)) (quizzes v) with
       | None => p' = p /\ w' = w
       | Some orig =>
           exists clone,
             vaultPlain p'
             = Some {| apiKey := apiKey v; settings := settings v;
                       quizzes := quizzes v ++ [clone] |}
             /\ currentQuizId p' = Some (quiz_id clone)
             /\ stored p' = stored p /\ files p' = files p
             /\ quiz_id clone = fst (uid w)
             /\ title clone = title orig ++ js " (copy)"
             /\ sourcePath clone = sourcePath orig
             /\ sourceText clone = sourceText orig
             /\ difficulty clone = difficulty orig
             /\ choicesCount clone = choicesCount orig
             /\ currentIndex clone = 0 /\ submitted clone = false
             /\ submittedAt clone = None /\ grade clone = None
             /\ questions clone
                = fst (randomizeQuestions (map clear_answer (questions orig))
                         (snd (Date_now (snd (Date_now (snd (uid w)))))))
       end.
Proof.
  unfold copyQuiz. destruct (vaultPlain p) as [v|] eqn:Ev; [|discriminate].
  intros H. exists v. split; [reflexivity|].
  destruct (find_first _ (quizzes v)) as [orig|]; [|injection H as <- <-; auto].
  destruct (isFinite (quiz_temperature orig)); cbn [negb] in H; [|discriminate].
  destruct (uid w) as [i w1]. cbn [fst snd].
  destruct (Date_now w1) as [created w2]. cbn [snd].
  destruct (Date_now w2) as [updated w3]. cbn [snd].
  destruct (randomizeQuestions _ w3) as [qs w4]. injection H as <- <-.
  eexists. cbn [vaultPlain currentQuizId stored files].
  split; [reflexivity|]. repeat split.
Qed.

End CopyLemmas.

(** X15. A call of [copyQuiz] that returns leaves everything as it was when
    no quiz has the identifier. Otherwise it appends one quiz to the vault,
    keeping the others, and makes it the current one, without writing the
    stored vault: the copy has a new identifier, the title of the original
    followed by [ (copy)], its source, difficulty and number of choices, no
    submission and no grade; its questions are those of the original in some
    order, all unanswered, each with its choices in some order and its
    answer index following the correct choice. *)
Theorem copyQuiz_makes_an_unanswered_copy (id : Id) (p : Plugin) (w : World)
  (p' : Plugin) (w' : World) :
  copyQuiz id p w = CopyReturns p' w' ->
  exists v,
    vaultPlain p = Some v
    /\ match find_first (fun q => bool_decide (quiz_id q = id)) (quizzes v) with
       | None => p' = p /\ w' = w
       | Some orig =>
           exists clone,
             vaultPlain p'
             = Some {| apiKey := apiKey v; settings := settings v;
                       quizzes := quizzes v ++ [clone] |}
             /\ currentQuizId p' = Some (quiz_id clone)
             /\ stored p' = stored p
             /\ quiz_id clone = fst (uid w)
             /\ title clone = title orig ++ js " (copy)"
             /\ sourcePath clone = sourcePath orig
             /\ sourceText clone = sourceText orig
             /\ difficulty clone = difficulty orig
             /\ choicesCount clone = choicesCount orig
             /\ currentIndex clone = 0 /\ submitted clone = false
             /\ submittedAt clone = None /\ grade clone = None
             /\ length (questions clone) = length (questions orig)
             /\ Forall (fun q => q_user_answer_index q = None) (questions clone)
             /\ exists qs',
                  Forall2 follows_choices (map clear_answer (questions orig)) qs'
                  /\ questions clone ≡ₚ qs'
       end.
Proof.
  intros H. destruct (copyQuiz_returns id p w p' w' H) as (v & Hv & Hcase).
  exists v. split; [exact Hv|].
  destruct (find_first _ (quizzes v)) as [orig|]; [|exact Hcase].
  destruct Hcase as (clone & H1 & H2 & H3 & _ & H4 & H5 & H6 & H7 & H8 & H9 & H10 & H11
                     & H12 & H13 & Hq).
  exists clone. repeat (split; [assumption|]). rewrite Hq.
  split; [rewrite randomizeQuestions_length, length_map; reflexivity|].
  split; [apply randomizeQuestions_unanswered, clear_answer_unanswered|].
  apply randomizeQuestions_follows.
Qed.

(** ** Generating a quiz *)

Section GeneratorLemmas.

Lemma quiz_title_trimmed parsed title :
  quiz_title parsed title <> [] /\ trim (quiz_title parsed title) = quiz_title parsed title.
Proof.
  unfold quiz_title.
  match goal with |- context [trim ?c] => generalize c end. intros chosen.
  destruct (trim chosen) as [|c r] eqn:E; cbn [is_nonempty].
  - split; [discriminate | reflexivity].
  - split; [discriminate|]. rewrite <- E. apply trim_idempotent.
Qed.

(** What a call of [generateFromText] that returns a quiz has done. *)
Lemma generateFromText_returns service sourceText count title diff choicesCount
  sourcePath p w quiz :
  gen_result (generateFromText service sourceText count title diff choicesCount
                sourcePath p w) = Return quiz ->
  exists v body json parsed raw normalized w3 w4,
    vaultPlain p = Some v
    /\ apiKey v <> [] /\ trim sourceText <> []
    /\ totalQuestionsFromPlan (buildQuestionTypePlan (settings v) count) <> 0
    /\ gen_request (generateFromText service sourceText count title diff choicesCount
                      sourcePath p w) = Some body
    /\ req_sourceText body = trim sourceText
    /\ req_plan body = buildQuestionTypePlan (settings v) count
    /\ service 0%nat body = Some json
    /\ safeParseJson (extractOutputText json) = Return parsed
    /\ prop parsed "questions" = Some (JArr raw) /\ raw <> []
    /\ normalize_all raw choicesCount w3 = (Return normalized, w4)
    /\ questions quiz = fst (randomizeQuestions normalized w4)
    /\ quiz_id quiz = fst (uid w)
    /\ Grading.title quiz = quiz_title parsed title
    /\ Grading.sourcePath quiz = match sourcePath with Some s => s | None => [] end
    /\ Grading.sourceText quiz
       = (if is_nonempty (match sourcePath with Some s => s | None => [] end)
          then None else Some (trim sourceText))
    /\ difficulty quiz = diff /\ Grading.choicesCount quiz = choicesCount
    /\ currentIndex quiz = 0 /\ submitted quiz = false
    /\ submittedAt quiz = None /\ grade quiz = None
    /\ gen_plugin (generateFromText service sourceText count title diff choicesCount
                     sourcePath p w)
       = {| vaultPlain := Some {| apiKey := apiKey v; settings := settings v;
                                  quizzes := quizzes v ++ [quiz] |};
            currentQuizId := Some (quiz_id quiz);
            stored := Some {| apiKey := apiKey v; settings := settings v;
                              quizzes := quizzes v ++ [quiz] |};
            files := files p |}.
Proof.
  unfold generateFromText.
  destruct (vaultPlain p) as [v|] eqn:Ev; [|discriminate].
  destruct (apiKey v) as [|k0 k] eqn:Ek; cbn [is_nonempty negb]; [discriminate|].
  destruct (trim sourceText) as [|t0 t] eqn:Et; cbn [is_nonempty negb]; [discriminate|].
  destruct (Z.eqb_spec (totalQuestionsFromPlan
              (buildQuestionTypePlan (settings v) count)) 0) as [H0|H0]; [discriminate|].
  match goal with
  | |- context [service 0%nat ?b] => set (body := b); destruct (service 0%nat body) as [json|] eqn:Es
  end; [|discriminate].
  destruct (safeParseJson (extractOutputText json)) as [parsed|e] eqn:Ep; [|discriminate].
  destruct (prop parsed "questions") as [[| | | |[|first rest]|]|] eqn:Eq; try discriminate.
  destruct (uid w) as [i w1]. destruct (Date_now w1) as [created w2].
  destruct (Date_now w2) as [updated w3].
  destruct (normalize_all (first :: rest) choicesCount w3) as [[normalized|e] w4] eqn:En;
    [|discriminate].
  destruct (randomizeQuestions normalized w4) as [qs w5] eqn:Er.
  cbn [gen_result gen_plugin gen_request]. intros [= <-].
  exists v, body, json, parsed, (first :: rest), normalized, w3, w4.
  cbn [questions quiz_id Grading.title Grading.sourcePath Grading.sourceText
       difficulty Grading.choicesCount currentIndex submitted submittedAt grade fst].
  rewrite Ek. repeat split; try reflexivity; try discriminate; try assumption.
  rewrite Er. reflexivity.
Qed.

Lemma generateFromText_throws service sourceText count title diff choicesCount
  sourcePath p w e :
  gen_result (generateFromText service sourceText count title diff choicesCount
                sourcePath p w) = Throw e ->
  gen_plugin (generateFromText service sourceText count title diff choicesCount
                sourcePath p w) = p
  /\ (e = GenPlanEmpty ->
      exists v, vaultPlain p = Some v
        /\ totalQuestionsFromPlan (buildQuestionTypePlan (settings v) count) = 0)
  /\ (gen_request (generateFromText service sourceText count title diff choicesCount
                     sourcePath p w) = None
      <-> e = GenLocked \/ e = GenApiKeyMissing \/ e = GenSourceEmpty \/ e = GenPlanEmpty)
  /\ (forall v, vaultPlain p = Some v -> apiKey v <> [] -> trim sourceText <> [] ->
        totalQuestionsFromPlan (buildQuestionTypePlan (settings v) count) = 0 ->
        e = GenPlanEmpty).
Proof.
  unfold generateFromText.
  destruct (vaultPlain p) as [v|] eqn:Ev;
    [|cbn; intros [= <-]; split; [reflexivity|]; split; [discriminate|];
      split; [tauto | discriminate]].
  destruct (apiKey v) as [|k0 k] eqn:Ek; cbn [is_nonempty negb];
    [cbn; intros [= <-]; split; [reflexivity|]; split; [discriminate|];
     split; [tauto|]; intros v0 [= <-] Hk; rewrite Ek in Hk; contradiction|].
  destruct (trim sourceText) as [|t0 t] eqn:Et; cbn [is_nonempty negb];
    [cbn; intros [= <-]; split; [reflexivity|]; split; [discriminate|];
     split; [tauto|]; intros v0 _ _ Ht; contradiction|].
  destruct (Z.eqb_spec (totalQuestionsFromPlan
              (buildQuestionTypePlan (settings v) count)) 0) as [H0|H0];
    [cbn; intros [= <-]; split; [reflexivity|]; split; [eauto|];
     split; [tauto | reflexivity]|].
  assert (Hlate : forall e' (body : Request),
            e' <> GenLocked -> e' <> GenApiKeyMissing -> e' <> GenSourceEmpty ->
            e' <> GenPlanEmpty ->
            Throw e' = (Throw e : result GenerateError Quiz) ->
            p = p
            /\ (e = GenPlanEmpty -> exists v0, Some v = Some v0
                 /\ totalQuestionsFromPlan (buildQuestionTypePlan (settings v0) count) = 0)
            /\ (Some body = (None : option Request)
                <-> e = GenLocked \/ e = GenApiKeyMissing \/ e = GenSourceEmpty
                    \/ e = GenPlanEmpty)
            /\ (forall v0, Some v = Some v0 -> apiKey v0 <> [] -> t0 :: t <> [] ->
                  totalQuestionsFromPlan (buildQuestionTypePlan (settings v0) count) = 0 ->
                  e = GenPlanEmpty)).
  { intros e' body H1 H2 H3 H4 [= <-]. split; [reflexivity|].
    split; [intros ->; contradiction|]. split.
    - split; [discriminate|]. intros [->|[->|[->| ->]]]; contradiction.
    - intros v0 [= <-] _ _ Hz. contradiction. }
  match goal with
  | |- context [service 0%nat ?b] => set (body := b); destruct (service 0%nat body) as [json|]
  end; [|cbn [gen_result gen_plugin gen_request]; apply Hlate; discriminate].
  destruct (safeParseJson (extractOutputText json)) as [parsed|e1];
    [|cbn [gen_result gen_plugin gen_request]; apply Hlate; discriminate].
  destruct (prop parsed "questions") as [[| | | |[|first rest]|]|];
    try (cbn [gen_result gen_plugin gen_request]; apply Hlate; discriminate).
  destruct (uid w) as [i w1]. destruct (Date_now w1) as [created w2].
  destruct (Date_now w2) as [updated w3].
  destruct (normalize_all (first :: rest) choicesCount w3) as [[normalized|e1] w4];
    [|cbn [gen_result gen_plugin gen_request]; apply Hlate; discriminate].
  destruct (randomizeQuestions normalized w4) as [qs w5]. discriminate.
Qed.

End GeneratorLemmas.

Section PlanZero.

Lemma plan_total_zero (settings : Settings) (total : Z) :
  totalQuestionsFromPlan (buildQuestionTypePlan settings total) = 0 <-> total = 0.
Proof.
  destruct (Z_lt_le_dec total 1) as [Hlt|Hge].
  - destruct (buildQuestionTypePlan_shape settings total)
      as [(e & _ & ->) | (Hne & _ & Hall)].
    + change (totalQuestionsFromPlan _) with (0 + total). lia.
    + exfalso. destruct (buildQuestionTypePlan settings total) as [|item l];
        [congruence|]. apply Forall_inv in Hall. lia.
  - pose proof (plan_total_positive settings total Hge). lia.
Qed.

End PlanZero.

(** X16. When [generateFromText] returns a quiz, the requested count was not
    0, one request was sent, and the quiz is appended to the vault, made the
    current one and stored. The quiz has as many questions as the model's
    answer holds, at least one and whatever count was asked for; each has
    the required number of choices, a question text and no user answer, and,
    for at least one choice, an answer index that is the whole-number index
    of one of its choices. Its title is neither empty nor padded. It keeps
    the source path, or, when there is none, the trimmed source text. *)
Theorem generateFromText_makes_the_quiz
  (service : Service) (src : jsstr) (count : Z) (wanted : jsstr) (diff : Difficulty)
  (choices : Z) (path : option jsstr) (p : Plugin) (w : World) (quiz : Quiz) :
  let g := generateFromText service src count wanted diff choices path p w in
  gen_result g = Return quiz ->
  count <> 0
  /\ (exists v,
        vaultPlain p = Some v
        /\ vaultPlain (gen_plugin g)
           = Some {| apiKey := apiKey v; settings := settings v;
                     quizzes := quizzes v ++ [quiz] |})
  /\ stored (gen_plugin g) = vaultPlain (gen_plugin g)
  /\ currentQuizId (gen_plugin g) = Some (quiz_id quiz)
  /\ (exists body json parsed raw,
        gen_request g = Some body /\ service 0%nat body = Some json
        /\ safeParseJson (extractOutputText json) = Return parsed
        /\ prop parsed "questions" = Some (JArr raw)
        /\ length (questions quiz) = length raw)
  /\ questions quiz <> []
  /\ Forall (fun q => Z.of_nat (length (q_choices q)) = choices
                      /\ q_user_answer_index q = None /\ q_q q <> [])
            (questions quiz)
  /\ (1 <= choices -> Forall (sound_question choices) (questions quiz))
  /\ title quiz <> [] /\ trim (title quiz) = title quiz
  /\ choicesCount quiz = choices /\ difficulty quiz = diff
  /\ currentIndex quiz = 0 /\ submitted quiz = false /\ grade quiz = None
  /\ match path with
     | Some (c :: r) => sourcePath quiz = c :: r /\ sourceText quiz = None
     | _ => sourcePath quiz = [] /\ sourceText quiz = Some (trim src)
     end.
Proof.
  intros g Hret.
  destruct (generateFromText_returns _ _ _ _ _ _ _ _ _ _ Hret)
    as (v & body & json & parsed & raw & normalized & w3 & w4 & Hv & _ & _ & Htot & Hreq
        & _ & _ & Hs & Hp & Hq & Hraw & Hn & Hqs & _ & Ht & Hpath & Htext & Hd & Hc & Hi
        & Hsub & _ & Hg & Hplug).
  fold g in Hreq, Hplug.
  destruct (normalize_all_returns _ _ _ _ _ Hn) as (Hlen & Hch & Hun & Hqq).
  split; [intros ->; apply Htot, plan_total_zero; reflexivity|].
  split; [exists v; split; [exact Hv | rewrite Hplug; reflexivity]|].
  split; [rewrite Hplug; reflexivity|]. split; [rewrite Hplug; reflexivity|].
  split.
  { exists body, json, parsed, raw. repeat (split; [assumption|]).
    rewrite Hqs, randomizeQuestions_length. exact Hlen. }
  split.
  { intros Hnil. apply (f_equal (@length _)) in Hnil.
    rewrite Hqs, randomizeQuestions_length, Hlen in Hnil.
    destruct raw; [congruence | discriminate]. }
  split.
  { rewrite Hqs.
    apply (randomizeQuestions_each normalized w4
             (fun q => Z.of_nat (length (q_choices q)) = choices
                       /\ q_user_answer_index q = None /\ q_q q <> [])).
    - intros q w0 (H1 & H2 & H3).
      destruct (randomizeQuestionChoices_shape q w0) as (Hl & Hq' & _ & _ & Hu & _).
      rewrite Hl, Hq'. auto.
    - apply List.Forall_forall. intros q Hin. rewrite List.Forall_forall in Hch, Hun, Hqq.
      auto. }
  split; [intros H1; rewrite Hqs; apply randomizeQuestions_sound; assumption|].
  rewrite Ht. destruct (quiz_title_trimmed parsed wanted) as [Hne Htrim].
  split; [exact Hne|]. split; [exact Htrim|].
  repeat (split; [assumption|]).
  rewrite Hpath, Htext. destruct path as [[|c r]|]; cbn [is_nonempty]; auto.
Qed.

(** X17. When [generateFromText] throws, the plugin is left exactly as it
    was: no quiz is added, the current quiz is not changed and nothing is
    stored, also when the model's answer had parsed and one of its questions
    failed normalization. No request has been sent exactly when the error is
    one of the four raised before it. With the vault unlocked, an API key
    and a source text that is not blank, the empty-plan error is raised
    exactly when the requested count is 0. *)
Theorem generateFromText_fails_cleanly
  (service : Service) (src : jsstr) (count : Z) (wanted : jsstr) (diff : Difficulty)
  (choices : Z) (path : option jsstr) (p : Plugin) (w : World) (e : GenerateError) :
  let g := generateFromText service src count wanted diff choices path p w in
  gen_result g = Throw e ->
  gen_plugin g = p
  /\ (gen_request g = None
      <-> e = GenLocked \/ e = GenApiKeyMissing \/ e = GenSourceEmpty \/ e = GenPlanEmpty)
  /\ (forall v, vaultPlain p = Some v -> apiKey v <> [] -> trim src <> [] ->
        (e = GenPlanEmpty <-> count = 0)).
Proof.
  intros g Hthrow.
  destruct (generateFromText_throws _ _ _ _ _ _ _ _ _ _ Hthrow) as (Hp & Hplan & Hreq & Hz).
  split; [exact Hp|]. split; [exact Hreq|].
  intros v Hv Hk Ht. split.
  - intros He. destruct (Hplan He) as (v0 & Hv0 & H0).
    rewrite Hv in Hv0. injection Hv0 as <-. apply plan_total_zero in H0. exact H0.
  - intros ->. apply (Hz v Hv Hk Ht). apply plan_total_zero. reflexivity.
Qed.

(** ** Sound vaults *)

Section SoundVaults.

Lemma accept_batch_each (Q : QuizQuestion -> Prop) n desired en ets normalized :
  (forall q w0, Z.of_nat (length (q_choices q)) = n ->
                Q (fst (randomizeQuestionChoices q w0))) ->
  Forall (fun q => Z.of_nat (length (q_choices q)) = n) normalized ->
  forall acc w,
    Forall Q (collected acc) ->
    Forall Q (collected (fst (accept_batch desired en ets normalized acc w))).
Proof.
  intros HQ Hn. induction Hn as [|q r Hq _ IH]; intros acc w Hacc; [exact Hacc|].
  cbn [accept_batch].
  destruct (desired <=? Z.of_nat (length (collected acc))); [exact Hacc|].
  destruct (isNearDuplicate (q_q q) en ets); [apply IH, Hacc|].
  destruct (isNearDuplicate (q_q q) (collectedNorm acc) (collectedTokenSets acc));
    [apply IH, Hacc|].
  pose proof (HQ q w Hq) as Hq'.
  destruct (randomizeQuestionChoices q w) as [q' w']. apply IH. cbn [collected].
  apply Forall_app. split; [exact Hacc | constructor; [exact Hq' | constructor]].
Qed.

Lemma collect_loop_each (Q : QuizQuestion -> Prop) fuel service v quiz src avoid en ets
  desired :
  (forall q w0, Z.of_nat (length (q_choices q)) = choicesCount quiz ->
                Q (fst (randomizeQuestionChoices q w0))) ->
  forall acc attempts w trace r acc' w' trace',
    Forall Q (collected acc) ->
    collect_loop fuel service v quiz src avoid en ets desired acc attempts w trace
    = Some (r, acc', w', trace') ->
    Forall Q (collected acc').
Proof.
  intros HQ.
  induction fuel as [|fuel IH]; intros acc attempts w trace r acc' w' trace' Hacc;
    cbn [collect_loop];
    destruct ((Z.of_nat (length (collected acc)) <? desired) && (attempts <? 3)%nat);
    try discriminate; try (intros [= <- <- <- <-]; exact Hacc).
  match goal with
  | |- context [service ?n ?b] => destruct (service n b) as [json|]
  end; [|intros [= <- <- <- <-]; exact Hacc].
  destruct (safeParseJson (extractOutputText json)) as [parsed|e];
    [|intros [= <- <- <- <-]; exact Hacc].
  destruct (normalize_all _ (choicesCount quiz) w) as [[normalized|e] w1] eqn:En;
    [|intros [= <- <- <- <-]; exact Hacc].
  destruct (normalize_all_returns _ _ _ _ _ En) as (_ & Hch & _ & _).
  pose proof (accept_batch_each Q (choicesCount quiz) desired en ets normalized HQ Hch
                acc w1 Hacc) as Hnext.
  destruct (accept_batch desired en ets normalized acc w1) as [acc1 w2].
  cbn [fst] in Hnext. apply IH. exact Hnext.
Qed.

Lemma update_first_Forall (S : Quiz -> Prop) i f l q :
  find_first (fun x => bool_decide (quiz_id x = i)) l = Some q ->
  Forall S l -> S (f q) -> Forall S (update_first i f l).
Proof.
  intros Hf Hall Hq. induction Hall as [|x l Hx Hl IH]; [discriminate|].
  cbn [find_first update_first] in *.
  destruct (bool_decide (quiz_id x = i)).
  - injection Hf as ->. constructor; assumption.
  - constructor; [exact Hx | apply IH, Hf].
Qed.

(** The vault a call of [addMoreQuestionsToCurrentQuiz] leaves: the one it
    found, or that one with accepted questions appended to the current
    quiz. *)
Lemma addMoreQuestions_vault fuel service count p w out :
  addMoreQuestionsToCurrentQuiz fuel service count p w = Some out ->
  vaultPlain (out_plugin out) = vaultPlain p
  \/ exists v quiz src r acc' w' trace shuffled now,
       vaultPlain p = Some v
       /\ find_first (fun x => bool_decide (quiz_id x = quiz_id quiz)) (quizzes v)
          = Some quiz
       /\ collect_loop fuel service v quiz src (map q_q (questions quiz))
            (existing_norms (questions quiz)) (existing_token_sets (questions quiz))
            (desired_count count)
            {| collected := []; collectedNorm := ∅; collectedTokenSets := [] |}
            0%nat w []
          = Some (r, acc', w', trace)
       /\ shuffled ≡ₚ collected acc'
       /\ vaultPlain (out_plugin out)
          = Some {| apiKey := apiKey v; settings := settings v;
                    quizzes := update_first (quiz_id quiz) (with_added shuffled now)
                                 (quizzes v) |}.
Proof.
  unfold addMoreQuestionsToCurrentQuiz.
  destruct (vaultPlain p) as [v|] eqn:Ev; [|intros [= <-]; left; exact Ev].
  destruct (is_nonempty (apiKey v)); cbn [negb]; [|intros [= <-]; left; exact Ev].
  pose proof (getCurrentQuiz_keeps p) as [Hkeep _].
  destruct (getCurrentQuiz p) as [[quiz|] p1] eqn:Eg; cbn [snd] in Hkeep;
    [|intros [= <-]; left; cbn [failed out_plugin]; etransitivity; [exact Hkeep | exact Ev]].
  destruct (submitted quiz); [intros [= <-]; left; cbn [failed out_plugin]; etransitivity; [exact Hkeep | exact Ev]|].
  destruct (totalQuestionsFromPlan _ =? 0); [intros [= <-]; left; cbn [failed out_plugin]; etransitivity; [exact Hkeep | exact Ev]|].
  match goal with
  | |- context [match ?s with Return _ => _ | Throw _ => _ end] =>
      destruct s as [src|e]; [|intros [= <-]; left; cbn [failed out_plugin]; etransitivity; [exact Hkeep | exact Ev]]
  end.
  fold (desired_count count).
  change (list_to_set (map normText (map q_q (questions quiz))))
    with (existing_norms (questions quiz)).
  change (map tokenSet (map q_q (questions quiz)))
    with (existing_token_sets (questions quiz)).
  destruct (collect_loop fuel service v quiz src _ _ _ _ _ 0%nat w [])
    as [[[[r acc'] w'] trace]|] eqn:Hloop; [|discriminate].
  destruct r as [a|e]; [|intros [= <-]; left; cbn [failed out_plugin]; etransitivity; [exact Hkeep | exact Ev]].
  destruct (collected acc') as [|c cs] eqn:Ec; [intros [= <-]; left; cbn [failed out_plugin]; etransitivity; [exact Hkeep | exact Ev]|].
  pose proof (shuffleInPlace_perm (c :: cs) w') as Hperm.
  destruct (shuffleInPlace (c :: cs) w') as [shuffled w2]. cbn [fst] in Hperm.
  destruct (Date_now w2) as [now w3]. intros [= <-]. right.
  destruct (getCurrentQuiz_found p quiz p1 Eg) as (v0 & Hv0 & Hfind & _).
  rewrite Ev in Hv0. injection Hv0 as <-.
  exists v, quiz, src, (Return a), acc', w', trace, shuffled, now.
  split; [reflexivity|]. split; [exact Hfind|]. split; [exact Hloop|].
  split; [rewrite Ec; exact Hperm | reflexivity].
Qed.

Lemma sound_quiz_shown quiz :
  sound_quiz quiz ->
  exists r q (k : nat) text,
    renderQuiz quiz = Some (r, q)
    /\ questions r = questions quiz
    /\ 0 <= currentIndex r < Z.of_nat (length (questions quiz))
    /\ questions quiz !! Z.to_nat (currentIndex r) = Some q
    /\ q_answer_index q = inject_Z (Z.of_nat k)
    /\ q_choices q !! k = Some text.
Proof.
  intros (Hc & Hne & Hall). unfold renderQuiz.
  assert (Hlen : (0 < length (questions quiz))%nat)
    by (destruct (questions quiz); [congruence | cbn; lia]).
  assert (Hidx : 0 <= shown_index quiz < Z.of_nat (length (questions quiz)))
    by (unfold shown_index, clampInt; lia).
  destruct (lookup_lt_is_Some_2 (questions quiz) (Z.to_nat (shown_index quiz)) ltac:(lia))
    as [q Hq].
  rewrite Hq.
  rewrite List.Forall_forall in Hall.
  destruct (Hall q) as (_ & k & Hk & Hlt).
  { apply list_elem_of_In, list_elem_of_lookup. eauto. }
  destruct (lookup_lt_is_Some_2 (q_choices q) k Hlt) as [text Htext].
  exists (with_index quiz (shown_index quiz)), q, k, text.
  cbn [with_index questions currentIndex].
  split; [reflexivity|]. split; [reflexivity|]. split; [exact Hidx|].
  split; [exact Hq|]. split; [exact Hk | exact Htext].
Qed.

End SoundVaults.

(** X18. Soundness of the vault (every quiz has a question, and every
    question has the quiz's number of choices, at least one, and an answer
    index that is the whole-number index of one of them) is kept by every
    operation on quizzes: loading, deleting and copying a quiz, generating
    one with at least one choice per question, and adding questions. In a
    sound vault the current quiz can always be shown: [renderQuiz] finds the
    question at the index it stores, and that question has a correct
    choice. *)
Theorem sound_vault_is_kept (p : Plugin) :
  sound_vault p ->
  (forall id, sound_vault (setCurrentQuiz id p))
  /\ (forall id p', deleteQuiz id p = Some p' -> sound_vault p')
  /\ (forall id w p' w', copyQuiz id p w = CopyReturns p' w' -> sound_vault p')
  /\ (forall service src count wanted diff choices path w,
        1 <= choices ->
        sound_vault
          (gen_plugin (generateFromText service src count wanted diff choices path p w)))
  /\ (forall fuel service count w out,
        addMoreQuestionsToCurrentQuiz fuel service count p w = Some out ->
        sound_vault (out_plugin out))
  /\ (forall quiz,
        fst (getCurrentQuiz p) = Some quiz ->
        exists r q (k : nat) text,
          renderQuiz quiz = Some (r, q)
          /\ questions quiz !! Z.to_nat (currentIndex r) = Some q
          /\ q_answer_index q = inject_Z (Z.of_nat k)
          /\ q_choices q !! k = Some text).
Proof.
  intros Hsound. split; [|split; [|split; [|split; [|split]]]].
  - intros id v Hv. apply Hsound. exact Hv.
  - intros id p' Hdel v' Hv'. unfold deleteQuiz in Hdel.
    destruct (vaultPlain p) as [v|] eqn:Ev; [|discriminate].
    injection Hdel as <-. cbn [vaultPlain] in Hv'. injection Hv' as <-. cbn [quizzes].
    specialize (Hsound v Ev). apply List.Forall_forall. intros q Hq.
    apply filter_In in Hq as [Hq _]. rewrite List.Forall_forall in Hsound. auto.
  - intros id w p' w' Hcopy v' Hv'.
    destruct (copyQuiz_returns id p w p' w' Hcopy) as (v & Hv & Hcase).
    specialize (Hsound v Hv).
    destruct (find_first _ (quizzes v)) as [orig|] eqn:Ef.
    + destruct Hcase as (clone & H1 & _ & _ & _ & _ & _ & _ & _ & _ & Hc & _ & _ & _ & _ & Hq).
      rewrite H1 in Hv'. injection Hv' as <-. cbn [quizzes].
      apply Forall_app. split; [exact Hsound|]. constructor; [|constructor].
      apply find_first_Some in Ef as [Hin _].
      rewrite List.Forall_forall in Hsound. destruct (Hsound orig Hin) as (Hcc & Hne & Hall).
      unfold sound_quiz. rewrite Hc, Hq. split; [exact Hcc|]. split.
      * intros Hnil. apply (f_equal (@length _)) in Hnil.
        rewrite randomizeQuestions_length, length_map in Hnil.
        destruct (questions orig); [congruence | discriminate].
      * apply randomizeQuestions_sound; [exact Hcc|]. apply clear_answer_choices.
        eapply Forall_impl; [exact Hall|]. intros q [Hq' _]. exact Hq'.
    + destruct Hcase as [-> _]. rewrite Hv in Hv'. injection Hv' as <-. exact Hsound.
  - intros service src count wanted diff choices path w Hch v' Hv'.
    destruct (gen_result (generateFromText service src count wanted diff choices path p w))
      as [quiz|e] eqn:Er.
    + destruct (generateFromText_returns _ _ _ _ _ _ _ _ _ _ Er)
        as (v & body & json & parsed & raw & normalized & w3 & w4 & Hv & _ & _ & _ & _
            & _ & _ & _ & _ & _ & Hraw & Hn & Hqs & _ & _ & _ & _ & _ & Hc & _
            & _ & _ & _ & Hplug).
      rewrite Hplug in Hv'. cbn [vaultPlain] in Hv'. injection Hv' as <-. cbn [quizzes].
      apply Forall_app. split; [apply Hsound, Hv|]. constructor; [|constructor].
      destruct (normalize_all_returns _ _ _ _ _ Hn) as (Hlen & Hchs & _ & _).
      unfold sound_quiz. rewrite Hc, Hqs. split; [exact Hch|]. split.
      * intros Hnil. apply (f_equal (@length _)) in Hnil.
        rewrite randomizeQuestions_length, Hlen in Hnil.
        destruct raw; [congruence | discriminate].
      * apply randomizeQuestions_sound; assumption.
    + destruct (generateFromText_throws _ _ _ _ _ _ _ _ _ _ Er) as (Hp & _).
      rewrite Hp in Hv'. apply Hsound, Hv'.
  - intros fuel service count w out Hrun v' Hv'.
    destruct (addMoreQuestions_vault _ _ _ _ _ _ Hrun)
      as [Hsame | (v & quiz & src & r & acc' & w' & trace & shuffled & now & Hv & Hfind
                   & Hloop & Hperm & Hnew)].
    + rewrite Hsame in Hv'. apply Hsound, Hv'.
    + rewrite Hnew in Hv'. injection Hv' as <-. cbn [quizzes].
      specialize (Hsound v Hv).
      apply (update_first_Forall sound_quiz _ _ _ quiz Hfind Hsound).
      pose proof Hfind as Hin. apply find_first_Some in Hin as [Hin _].
      rewrite List.Forall_forall in Hsound. destruct (Hsound quiz Hin) as (Hcc & Hne & Hall).
      unfold sound_quiz, with_added. cbn [choicesCount questions].
      split; [exact Hcc|]. split; [destruct (questions quiz); [congruence | discriminate]|].
      apply Forall_app. split; [exact Hall|]. rewrite Hperm.
      assert (HQ : forall q w0,
                Z.of_nat (length (q_choices q)) = choicesCount quiz ->
                sound_question (choicesCount quiz) (fst (randomizeQuestionChoices q w0))).
      { intros q w0 Hq.
        destruct (randomizeQuestionChoices_shape q w0)
          as (Hl & _ & _ & _ & _ & k & Hk & Hlt).
        split; [rewrite Hl; exact Hq|]. exists k. split; [exact Hk|].
        apply Hlt. destruct (q_choices q); [cbn in Hq; lia | discriminate]. }
      eapply (collect_loop_each _ _ _ _ _ _ _ _ _ _ HQ); [|exact Hloop].
      constructor.
  - intros quiz Hcur.
    destruct (getCurrentQuiz p) as [found p1] eqn:Eg. cbn [fst] in Hcur. subst found.
    destruct (getCurrentQuiz_found p quiz p1 Eg) as (v & Hv & Hfind & _).
    apply find_first_Some in Hfind as [Hin _].
    specialize (Hsound v Hv). rewrite List.Forall_forall in Hsound.
    destruct (sound_quiz_shown quiz (Hsound quiz Hin))
      as (r & q & k & text & H1 & _ & _ & H2 & H3 & H4).
    exists r, q, k, text. split; [exact H1|]. split; [exact H2|].
    split; [exact H3 | exact H4].
Qed.

(** ** The quiz view *)

Section ViewLemmas.

Lemma renderQuiz_in_range quiz i :
  0 <= i < Z.of_nat (length (questions quiz)) ->
  exists q,
    questions quiz !! Z.to_nat i = Some q
    /\ renderQuiz (with_index quiz i) = Some (with_index quiz i, q).
Proof.
  intros Hi.
  destruct (lookup_lt_is_Some_2 (questions quiz) (Z.to_nat i) ltac:(lia)) as [q Hq].
  exists q. split; [exact Hq|]. unfold renderQuiz, shown_index, clampInt.
  cbn [with_index questions currentIndex].
  replace (Z.max 0 (Z.min (Z.of_nat (length (questions quiz)) - 1) i)) with i by lia.
  rewrite Hq. reflexivity.
Qed.

Lemma computeGrade_per quiz :
  per (computeGrade quiz)
  = map (fun q => {| isAnswered := answered_question q;
                     isCorrect := correct_question q;
                     ua := q_user_answer_index q;
                     ca := q_answer_index q |}) (questions quiz).
Proof.
  unfold computeGrade.
  pose proof (grade_questions_counts (questions quiz) 0 0) as H.
  destruct (grade_questions (0%nat, 0%nat) (questions quiz)) as [[a c] ps].
  cbn [per]. tauto.
Qed.

Lemma shown_index_range quiz :
  questions quiz <> [] ->
  0 <= shown_index quiz < Z.of_nat (length (questions quiz)).
Proof.
  intros Hne. assert (0 < length (questions quiz))%nat
    by (destruct (questions quiz); [congruence | cbn; lia]).
  unfold shown_index, clampInt. lia.
Qed.

Lemma renderQuiz_shows quiz r q :
  renderQuiz quiz = Some (r, q) ->
  r = with_index quiz (shown_index quiz)
  /\ 0 <= shown_index quiz < Z.of_nat (length (questions quiz))
  /\ questions quiz !! Z.to_nat (shown_index quiz) = Some q.
Proof.
  unfold renderQuiz.
  destruct (questions quiz !! Z.to_nat (shown_index quiz)) as [q0|] eqn:Hq;
    [|discriminate].
  intros [= <- <-]. split; [reflexivity|]. split; [|reflexivity].
  apply shown_index_range. intros E. rewrite E in Hq. discriminate.
Qed.

End ViewLemmas.

(** X19. [renderQuiz] fails, reading the text of an undefined question,
    exactly when the quiz has no question. Otherwise it shows the question
    at the index it stores, which lies among the questions whatever
    [currentIndex] was; showing the quiz again changes nothing; after Prev,
    Next or the dot of an existing question the quiz is shown at the index
    the handler set, which for Prev is the index before or the first and for
    Next the index after or the last. *)
Theorem renderQuiz_navigation (quiz : Quiz) :
  (renderQuiz quiz = None <-> questions quiz = [])
  /\ forall r q,
       renderQuiz quiz = Some (r, q) ->
       let n := Z.of_nat (length (questions quiz)) in
       questions r = questions quiz
       /\ 0 <= currentIndex r < n
       /\ questions quiz !! Z.to_nat (currentIndex r) = Some q
       /\ renderQuiz r = Some (r, q)
       /\ (exists q', renderQuiz (click_prev r) = Some (click_prev r, q')
                      /\ currentIndex (click_prev r) = Z.max 0 (currentIndex r - 1))
       /\ (exists q', renderQuiz (click_next r) = Some (click_next r, q')
                      /\ currentIndex (click_next r) = Z.min (n - 1) (currentIndex r + 1))
       /\ (forall i : nat, Z.of_nat i < n ->
             exists q', renderQuiz (click_dot i r) = Some (click_dot i r, q')
                        /\ questions quiz !! i = Some q').
Proof.
  split.
  - unfold renderQuiz. split.
    + destruct (questions quiz) as [|q0 l] eqn:E; [reflexivity|]. intros H. exfalso.
      pose proof (shown_index_range quiz) as Hidx. rewrite E in Hidx.
      specialize (Hidx ltac:(discriminate)).
      destruct (lookup_lt_is_Some_2 (q0 :: l) (Z.to_nat (shown_index quiz)) ltac:(lia))
        as [q Hq].
      rewrite Hq in H. discriminate.
    + intros ->. destruct (Z.to_nat (shown_index quiz)); reflexivity.
  - intros r q Hr n. destruct (renderQuiz_shows quiz r q Hr) as (-> & Hidx & Hq).
    cbn [with_index questions currentIndex]. fold n in Hidx.
    split; [reflexivity|]. split; [exact Hidx|]. split; [exact Hq|].
    split.
    { destruct (renderQuiz_in_range quiz (shown_index quiz) Hidx) as (q1 & Hq1 & Hr1).
      rewrite Hr1. congruence. }
    split.
    { destruct (renderQuiz_in_range quiz (Z.max 0 (shown_index quiz - 1)) ltac:(lia))
        as (q1 & _ & Hr1).
      exists q1. split; [exact Hr1 | reflexivity]. }
    split.
    { destruct (renderQuiz_in_range quiz (Z.min (n - 1) (shown_index quiz + 1)) ltac:(lia))
        as (q1 & _ & Hr1).
      exists q1. split; [exact Hr1 | reflexivity]. }
    intros i Hi.
    destruct (renderQuiz_in_range quiz (Z.of_nat i) ltac:(lia)) as (q1 & Hq1 & Hr1).
    exists q1. split; [exact Hr1|]. rewrite Nat2Z.id in Hq1. exact Hq1.
Qed.

(** X20. On a quiz that is shown and not submitted, the button of choice [i]
    stores [i] as the user answer of the question shown and leaves the other
    questions as they are; Submit then grades the quiz as it stands, and in
    the grade the question shown is answered, and correct exactly when [i]
    is its answer index, so never when that index is the index of no choice;
    once the quiz is submitted the choice buttons change nothing. *)
Theorem click_choice_is_graded (quiz r : Quiz) (q : QuizQuestion) (i : nat) (w : World) :
  renderQuiz quiz = Some (r, q) ->
  submitted r = false ->
  let r1 := fst (click_choice i r w) in
  let r2 := fst (click_submit r1 (snd (click_choice i r w))) in
  let idx := Z.to_nat (currentIndex r) in
  questions r1 !! idx = Some (answer_with i q)
  /\ (forall j, j <> idx -> questions r1 !! j = questions r !! j)
  /\ submitted r2 = true /\ questions r2 = questions r1
  /\ grade r2 = Some (computeGrade r1)
  /\ per (computeGrade r1) !! idx
     = Some {| isAnswered := true;
               isCorrect := number_eq (inject_Z (Z.of_nat i)) (q_answer_index q);
               ua := Some (inject_Z (Z.of_nat i));
               ca := q_answer_index q |}
  /\ (no_choice_at q (q_answer_index q) -> (i < length (q_choices q))%nat ->
      number_eq (inject_Z (Z.of_nat i)) (q_answer_index q) = false)
  /\ (forall j w0, click_choice j r2 w0 = (r2, w0)).
Proof.
  intros Hr Hsub r1 r2 idx.
  destruct (renderQuiz_shows quiz r q Hr) as (Hrq & Hidx & Hq).
  assert (Hlook : questions r !! idx = Some q).
  { subst idx. rewrite Hrq. exact Hq. }
  assert (Hr1 : questions r1 = <[idx := answer_with i q]> (questions r)).
  { subst r1. unfold click_choice. rewrite Hsub. fold idx. rewrite Hlook.
    destruct (Date_now w) as [now w']. reflexivity. }
  assert (Hlt : (idx < length (questions r))%nat) by (apply lookup_lt_Some in Hlook; exact Hlook).
  split; [rewrite Hr1; apply list_lookup_insert_eq; exact Hlt|].
  split; [intros j Hj; rewrite Hr1; apply list_lookup_insert_ne; congruence|].
  assert (Hr2 : submitted r2 = true /\ questions r2 = questions r1
                /\ grade r2 = Some (computeGrade r1)).
  { subst r2. unfold click_submit.
    destruct (Date_now (snd (click_choice i r w))) as [t1 w1].
    destruct (Date_now w1) as [t2 w2]. repeat split. }
  destruct Hr2 as (H1 & H2 & H3).
  split; [exact H1|]. split; [exact H2|]. split; [exact H3|].
  split.
  { rewrite computeGrade_per, list_lookup_fmap, Hr1.
    rewrite list_lookup_insert_eq by exact Hlt. reflexivity. }
  split.
  { intros Hno Hi. destruct (number_eq _ _) eqn:E; [|reflexivity]. exfalso.
    apply (Hno i Hi). unfold number_eq in E. apply Qeq_bool_iff in E.
    symmetry. exact E. }
  intros j w0. unfold click_choice. rewrite H1. reflexivity.
Qed.

(** ** Worked examples of the library, the generator and the view *)

Lemma deleteQuiz_then_current_witness :
  exists p',
    deleteQuiz (quiz_id (sample_quiz [])) library_plugin = Some p'
    /\ fst (getCurrentQuiz library_plugin) = Some (sample_quiz [sample_question 2 None])
    /\ fst (getCurrentQuiz p') = Some other_quiz.
Proof.
  eexists. split; [reflexivity|]. split; [reflexivity|].
  destruct (deleteQuiz_then_current (quiz_id (sample_quiz [])) library_plugin _ eq_refl)
    as (v & v' & _ & Hv' & Hkept & _ & _ & _ & _ & _ & _ & Hcur).
  rewrite (Hcur eq_refl). injection Hv' as <-. reflexivity.
Defined.

Lemma copyQuiz_makes_an_unanswered_copy_witness :
  exists p' w' clone,
    copyQuiz (quiz_id other_quiz) library_plugin turning_world = CopyReturns p' w'
    /\ option_map quizzes (vaultPlain p')
       = Some [sample_quiz [sample_question 2 None]; other_quiz; clone]
    /\ title clone = js "Rivers (copy)"
    /\ length (questions clone) = 2%nat
    /\ Forall (fun q => q_user_answer_index q = None) (questions clone).
Proof.
  destruct (copyQuiz (quiz_id other_quiz) library_plugin turning_world)
    as [| |p' w'] eqn:E; try (vm_compute in E; discriminate).
  destruct (copyQuiz_makes_an_unanswered_copy _ _ _ _ _ E) as (v & Hv & Hcase).
  injection Hv as <-. cbn in Hcase.
  destruct Hcase as (clone & H1 & _ & _ & _ & H2 & _ & _ & _ & _ & _ & _ & _ & _ & H3 & H4 & _).
  exists p', w', clone. split; [reflexivity|]. rewrite H1.
  split; [reflexivity|]. split; [exact H2|]. split; [exact H3 | exact H4].
Defined.

Lemma generateFromText_makes_the_quiz_witness :
  exists quiz,
    gen_result (generateFromText fresh_service (js " Egypt and the planets. ") 2 []
                  medium 4 None sample_plugin turning_world) = Return quiz
    /\ length (questions quiz) = 4%nat
    /\ title quiz = js "t"
    /\ sourceText quiz = Some (js "Egypt and the planets.")
    /\ Forall (sound_question 4) (questions quiz).
Proof.
  destruct (gen_result (generateFromText fresh_service (js " Egypt and the planets. ") 2 []
                          medium 4 None sample_plugin turning_world))
    as [quiz|e] eqn:E; [|vm_compute in E; discriminate].
  destruct (generateFromText_makes_the_quiz _ _ _ _ _ _ _ _ _ _ E)
    as (_ & _ & _ & _ & _ & _ & _ & Hsound & _ & _ & _ & _ & _ & _ & _ & _ & Hsrc).
  exists quiz. split; [reflexivity|].
  specialize (Hsound ltac:(lia)).
  vm_compute in E. injection E as <-.
  split; [reflexivity|]. split; [reflexivity|]. split; [reflexivity | exact Hsound].
Defined.

Lemma generateFromText_fails_cleanly_witness :
  let g := generateFromText short_service (js "Egypt and the planets.") 2 []
             medium 4 None sample_plugin turning_world in
  gen_result g = Throw (GenNormalizeFailed (ChoiceCountMismatch 4))
  /\ gen_plugin g = sample_plugin
  /\ gen_request g <> None.
Proof.
  intros g.
  assert (E : gen_result g = Throw (GenNormalizeFailed (ChoiceCountMismatch 4)))
    by (vm_compute; reflexivity).
  destruct (generateFromText_fails_cleanly _ _ _ _ _ _ _ _ _ _ E) as (Hp & Hreq & _).
  split; [exact E|]. split; [exact Hp|].
  intros Hnone. apply Hreq in Hnone as [H|[H|[H|H]]]; discriminate.
Defined.

Lemma sound_vault_is_kept_witness :
  sound_vault library_plugin
  /\ sound_vault
       (gen_plugin (generateFromText fresh_service (js "Egypt and the planets.") 2 []
                      medium 4 None library_plugin turning_world)).
Proof.
  assert (Hs : sound_vault library_plugin).
  { intros v [= <-]. cbn [quizzes].
    assert (Hq : forall a u, (0 <= a < 4)%Z -> sound_question 4 (sample_question a u)).
    { intros a u Ha. split; [reflexivity|]. exists (Z.to_nat a).
      cbn [sample_question q_answer_index q_choices length].
      rewrite Z2Nat.id by lia. split; [reflexivity | lia]. }
    repeat constructor; try discriminate; try apply Hq; cbn; lia. }
  split; [exact Hs|].
  destruct (sound_vault_is_kept library_plugin Hs) as (_ & _ & _ & Hgen & _).
  apply Hgen. lia.
Defined.

Lemma click_choice_is_graded_witness :
  exists r q,
    renderQuiz other_quiz = Some (r, q)
    /\ currentIndex r = 1
    /\ per (computeGrade (fst (click_choice 3 r still_world))) !! 1%nat
       = Some {| isAnswered := true; isCorrect := true;
                 ua := Some (inject_Z 3); ca := inject_Z 3 |}.
Proof.
  eexists. eexists. split; [reflexivity|]. split; [reflexivity|].
  destruct (click_choice_is_graded other_quiz _ _ 3 still_world eq_refl eq_refl)
    as (_ & _ & _ & _ & _ & Hper & _).
  exact Hper.
Defined.

(** ** JSON texts under the bracket scan *)

Section ScanOfJson.

Lemma balanced_nil : balanced [].
Proof. intros d. reflexivity. Qed.

Lemma balanced_app a b : balanced a -> balanced b -> balanced (a ++ b).
Proof. intros Ha Hb d. rewrite fold_left_app, Ha. apply Hb. Qed.

Lemma plain_scan c d : plain_char c = true -> scan_char (outside d) c = outside d.
Proof.
  unfold plain_char, scan_char, outside. cbn [inStr esc depth].
  intros [[H1 H2]%andb_prop H3]%andb_prop.
  apply negb_true_iff in H1, H2, H3. rewrite H1, H2, H3. reflexivity.
Qed.

Lemma plain_balanced m : forallb plain_char m = true -> balanced m.
Proof.
  induction m as [|c m IH]; [intros _; apply balanced_nil|].
  cbn [forallb]. intros [Hc Hm]%andb_prop d. cbn [fold_left].
  rewrite (plain_scan c d Hc). apply IH, Hm.
Qed.

Lemma json_ws_plain c : is_json_ws c = true -> plain_char c = true.
Proof.
  unfold is_json_ws, plain_char, is_opener, is_closer, dquote, lbrace, lbracket,
    rbrace, rbracket.
  intros H.
  repeat match goal with
  | |- context [(?a =? ?b)%N] => destruct (N.eqb_spec a b); subst; try discriminate
  end; reflexivity.
Qed.

Lemma json_ws_balanced w : forallb is_json_ws w = true -> balanced w.
Proof.
  intros H. apply plain_balanced. rewrite forallb_forall in *.
  intros c Hc. apply json_ws_plain, H, Hc.
Qed.

Lemma skip_ws_split s :
  exists w, s = w ++ skip_ws s /\ forallb is_json_ws w = true.
Proof.
  induction s as [|c r (w & Hr & Hw)]; [exists []; split; reflexivity|].
  cbn [skip_ws]. destruct (is_json_ws c) eqn:E.
  - exists (c :: w). cbn [app forallb]. rewrite E, Hw, <- Hr. split; reflexivity.
  - exists []. split; reflexivity.
Qed.

Lemma hex_value_scan h d v :
  hex_value h = Some v -> scan_char (inside d) h = inside d.
Proof.
  unfold hex_value, is_digit, scan_char, inside, backslash, dquote.
  cbn [inStr esc depth].
  intros H.
  destruct (N.eqb_spec h 92) as [->|_]; [discriminate|].
  destruct (N.eqb_spec h 34) as [->|_]; [discriminate|]. reflexivity.
Qed.

(** A string literal after its opening quote: the scan, inside the literal,
    is still inside it before the closing quote. *)
Lemma parse_chars_split s : forall acc str r',
  parse_chars s acc = Some (str, r') ->
  exists body, s = body ++ dquote :: r'
    /\ forall d, fold_left scan_char body (inside d) = inside d.
Proof.
  remember (length s) as n eqn:Hn. revert s Hn.
  induction n as [n IH] using lt_wf_ind. intros s -> acc str r' H.
  destruct s as [|c s]; [discriminate|]. cbn [parse_chars] in H.
  destruct (N.eqb_spec c dquote) as [->|Hq].
  { injection H as _ Hr; subst r'. exists []. split; reflexivity. }
  assert (Hrec : forall t acc', (length t < length (c :: s))%nat ->
            parse_chars t acc' = Some (str, r') ->
            exists body, t = body ++ dquote :: r'
              /\ forall d, fold_left scan_char body (inside d) = inside d).
  { intros t acc' Hlt Ht. apply (IH (length t) Hlt t eq_refl acc' str r' Ht). }
  destruct (N.eqb_spec c backslash) as [->|Hb].
  - destruct s as [|e s']; [discriminate|].
    assert (Hesc : forall t acc', (length t <= length s')%nat ->
              parse_chars t acc' = Some (str, r') ->
              forall skipped,
                s' = skipped ++ t ->
                (forall d, fold_left scan_char skipped (inside d) = inside d) ->
                exists body, backslash :: e :: s' = body ++ dquote :: r'
                  /\ forall d, fold_left scan_char body (inside d) = inside d).
    { intros t acc' Hlt Ht skipped Hs Hsk.
      destruct (Hrec t acc' ltac:(cbn [length]; lia) Ht) as (body & -> & Hbody).
      exists (backslash :: e :: skipped ++ body). split.
      - rewrite Hs. cbn [app]. rewrite <- app_assoc. reflexivity.
      - intros d. cbn [fold_left].
        change (scan_char (inside d) backslash) with (Scan true true d).
        change (scan_char (Scan true true d) e) with (inside d).
        rewrite fold_left_app, Hsk. apply Hbody. }
    repeat match type of H with
    | (if ?b then _ else _) = _ =>
        destruct b eqn:?;
        [try exact (Hesc s' _ (le_n _) H [] eq_refl (fun _ => eq_refl))|]
    end; try discriminate.
    destruct s' as [|h1 [|h2 [|h3 [|h4 s'']]]]; try discriminate.
    destruct (hex_value h1) eqn:E1; [|cbn in H; discriminate].
    destruct (hex_value h2) eqn:E2; [|cbn in H; discriminate].
    destruct (hex_value h3) eqn:E3; [|cbn in H; discriminate].
    destruct (hex_value h4) eqn:E4; [|cbn in H; discriminate].
    apply (Hesc s'' _ ltac:(cbn [length]; lia) H [h1; h2; h3; h4]); [reflexivity|].
    intros d. cbn [fold_left].
    rewrite (hex_value_scan _ _ _ E1), (hex_value_scan _ _ _ E2),
      (hex_value_scan _ _ _ E3), (hex_value_scan _ _ _ E4). reflexivity.
  - destruct (c <? 32)%N; [discriminate|].
    destruct (Hrec s _ ltac:(cbn [length]; lia) H) as (body & -> & Hbody).
    exists (c :: body). split; [reflexivity|]. intros d. cbn [fold_left].
    assert (scan_char (inside d) c = inside d) as ->; [|apply Hbody].
    unfold scan_char, inside. cbn [inStr esc depth].
    apply N.eqb_neq in Hq, Hb. rewrite Hq, Hb. reflexivity.
Qed.

Lemma string_literal_balanced body :
  (forall d, fold_left scan_char body (inside d) = inside d) ->
  balanced (dquote :: body ++ [dquote]).
Proof.
  intros H d. cbn [fold_left].
  change (scan_char (outside d) dquote) with (inside d).
  rewrite fold_left_app, H. reflexivity.
Qed.

Lemma plain_reach_refl s : plain_reach s s.
Proof. exists []. split; reflexivity. Qed.

Lemma plain_reach_cons c s r :
  plain_char c = true -> plain_reach s r -> plain_reach (c :: s) r.
Proof.
  intros Hc (pre & -> & Hp). exists (c :: pre). cbn [app forallb].
  rewrite Hc, Hp. split; reflexivity.
Qed.

Lemma plain_reach_trans s t r : plain_reach s t -> plain_reach t r -> plain_reach s r.
Proof.
  intros (p1 & -> & H1) (p2 & -> & H2). exists (p1 ++ p2).
  rewrite forallb_app, H1, H2, app_assoc. split; reflexivity.
Qed.

Lemma digit_plain c : is_digit c = true -> plain_char c = true.
Proof.
  unfold is_digit, plain_char, is_opener, is_closer, dquote, lbrace, lbracket,
    rbrace, rbracket.
  intros [H1 H2]%andb_prop. apply N.leb_le in H1, H2.
  repeat match goal with
  | |- context [(?a =? ?b)%N] => destruct (N.eqb_spec a b); try lia
  end; reflexivity.
Qed.

Lemma span_digits_reach s : forall v n v' n' t,
  span_digits s v n = (v', n', t) -> plain_reach s t.
Proof.
  induction s as [|c r IH]; intros v n v' n' t; cbn [span_digits].
  - intros [= _ _ <-]. apply plain_reach_refl.
  - destruct (is_digit c) eqn:E.
    + intros H. apply plain_reach_cons; [apply digit_plain, E | eapply IH, H].
    + intros [= _ _ <-]. apply plain_reach_refl.
Qed.

Lemma parse_number_reach s x r' :
  parse_number s = Some (x, r') -> plain_reach s r'.
Proof.
  unfold parse_number. intros H.
  repeat case_match; simplify_eq;
    repeat match goal with
    | H : span_digits _ _ _ = _ |- _ => apply span_digits_reach in H
    | H : is_digit _ = true |- _ => apply digit_plain in H
    | H : (_ =? _)%N = true |- _ => apply N.eqb_eq in H; subst
    | H : (_ || _) = true |- _ => apply orb_prop in H as [H|H]
    end;
    repeat first
      [ apply plain_reach_refl
      | assumption
      | eapply plain_reach_trans; [eassumption|]
      | apply plain_reach_cons; [first [assumption | reflexivity]|] ].
Qed.

Lemma plain_reach_balanced s r :
  plain_reach s r -> exists pre, s = pre ++ r /\ balanced pre.
Proof. intros (pre & Hs & Hp). exists pre. split; [exact Hs | apply plain_balanced, Hp]. Qed.

Lemma starts_with_split p s : starts_with p s = true -> s = p ++ drop (length p) s.
Proof.
  revert s. induction p as [|a p IH]; intros s; [reflexivity|].
  destruct s as [|b s]; [discriminate|]. cbn [starts_with length drop app].
  intros [Hab Hs]%andb_prop. apply N.eqb_eq in Hab. subst b. f_equal. apply IH, Hs.
Qed.

Lemma balanced_reach_refl s : balanced_reach s s.
Proof. exists []. split; [reflexivity | apply balanced_nil]. Qed.

Lemma balanced_reach_trans s t r :
  balanced_reach s t -> balanced_reach t r -> balanced_reach s r.
Proof.
  intros (m1 & -> & H1) (m2 & -> & H2). exists (m1 ++ m2).
  split; [apply app_assoc | apply balanced_app; assumption].
Qed.

Lemma balanced_reach_plain s r : plain_reach s r -> balanced_reach s r.
Proof. apply plain_reach_balanced. Qed.

Lemma balanced_reach_cons c s r :
  plain_char c = true -> balanced_reach s r -> balanced_reach (c :: s) r.
Proof.
  intros Hc H. apply (balanced_reach_trans _ s); [|exact H].
  apply balanced_reach_plain, plain_reach_cons; [exact Hc | apply plain_reach_refl].
Qed.

Lemma balanced_reach_skip_ws s : balanced_reach s (skip_ws s).
Proof.
  destruct (skip_ws_split s) as (w & Hs & Hw). exists w.
  split; [exact Hs | apply json_ws_balanced, Hw].
Qed.

Lemma balanced_reach_skipped s t : skip_ws s = t -> balanced_reach s t.
Proof. intros <-. apply balanced_reach_skip_ws. Qed.

Lemma balanced_reach_string r acc k r1 :
  parse_chars r acc = Some (k, r1) -> balanced_reach (dquote :: r) r1.
Proof.
  intros H. destruct (parse_chars_split r acc k r1 H) as (body & -> & Hbody).
  exists (dquote :: body ++ [dquote]). split.
  - cbn [app]. rewrite <- app_assoc. reflexivity.
  - apply string_literal_balanced, Hbody.
Qed.

Lemma closer_scan c d : is_closer c = true -> scan_char (outside (d + 1)) c = outside d.
Proof.
  intros Hc. unfold scan_char, outside. cbn [inStr esc depth].
  assert (N.eqb c dquote = false /\ is_opener c = false) as [-> ->].
  { unfold is_closer, is_opener, rbrace, rbracket, lbrace, lbracket, dquote in *.
    apply orb_prop in Hc as [Hc|Hc]; apply N.eqb_eq in Hc; subst c; split; reflexivity. }
  rewrite Hc. f_equal. lia.
Qed.

Lemma opener_scan o d : is_opener o = true -> scan_char (outside d) o = outside (d + 1).
Proof.
  intros Ho. unfold scan_char, outside. cbn [inStr esc depth].
  assert (N.eqb o dquote = false) as ->.
  { unfold is_opener, lbrace, lbracket, dquote in *.
    apply orb_prop in Ho as [Ho|Ho]; apply N.eqb_eq in Ho; subst o; reflexivity. }
  rewrite Ho. reflexivity.
Qed.

Lemma container_balanced o mid c :
  is_opener o = true -> is_closer c = true -> balanced mid ->
  balanced (o :: mid ++ [c]).
Proof.
  intros Ho Hc Hm d. cbn [fold_left]. rewrite (opener_scan o d Ho).
  rewrite fold_left_app, Hm. cbn [fold_left]. apply closer_scan, Hc.
Qed.

Lemma bracketed_reach s rest : bracketed s rest -> balanced_reach s rest.
Proof.
  intros (w & o & mid & c & -> & Hw & Ho & Hc & Hm).
  exists (w ++ o :: mid ++ [c]). split.
  - rewrite <- app_assoc. cbn [app]. rewrite <- app_assoc. reflexivity.
  - apply balanced_app; [apply json_ws_balanced, Hw | apply container_balanced; assumption].
Qed.

Lemma bracketed_skipped s o t c rest :
  skip_ws s = o :: t -> is_opener o = true -> is_closer c = true ->
  balanced_reach t (c :: rest) -> bracketed s rest.
Proof.
  intros Hs Ho Hc (mid & -> & Hm).
  destruct (skip_ws_split s) as (w & Hw & Hws). rewrite Hs in Hw.
  exists w, o, mid, c. auto.
Qed.

Lemma comma_plain : plain_char comma = true.
Proof. reflexivity. Qed.

(** The members of an object, and the elements of an array, up to the
    closer: a balanced text. *)
Lemma parse_members_split fuel pv :
  value_balanced pv ->
  forall s acc v rest,
    parse_members fuel pv s acc = Some (v, rest) ->
    is_container v = true
    /\ exists c, is_closer c = true /\ balanced_reach s (c :: rest).
Proof.
  intros Hpv. induction fuel as [|fuel IH]; intros s acc v rest H; [discriminate|].
  cbn [parse_members] in H.
  destruct (skip_ws s) as [|q r] eqn:E0; [discriminate|].
  destruct (N.eqb_spec q dquote) as [->|_]; [|discriminate].
  destruct (parse_chars r []) as [[k r1]|] eqn:E1; [|discriminate].
  destruct (skip_ws r1) as [|c r2] eqn:E2; [discriminate|].
  destruct (N.eqb_spec c (ch ":")) as [->|_]; [|discriminate].
  destruct (pv r2) as [[v1 r3]|] eqn:E3; [|discriminate].
  destruct (skip_ws r3) as [|d r4] eqn:E4; [discriminate|].
  assert (Hto : balanced_reach s (d :: r4)).
  { apply (balanced_reach_trans _ _ _ (balanced_reach_skipped _ _ E0)).
    apply (balanced_reach_trans _ _ _ (balanced_reach_string _ _ _ _ E1)).
    apply (balanced_reach_trans _ _ _ (balanced_reach_skipped _ _ E2)).
    apply balanced_reach_cons; [reflexivity|].
    apply (balanced_reach_trans _ r3); [apply (Hpv _ _ _ E3)|].
    apply (balanced_reach_skipped _ _ E4). }
  destruct (N.eqb_spec d comma) as [->|_].
  - destruct (IH _ _ _ _ H) as (Hv & c & Hc & Hr). split; [exact Hv|].
    exists c. split; [exact Hc|].
    apply (balanced_reach_trans _ _ _ Hto).
    apply balanced_reach_cons; [apply comma_plain | exact Hr].
  - destruct (N.eqb_spec d rbrace) as [->|_]; [|discriminate].
    injection H as <- <-. split; [reflexivity|].
    exists rbrace. split; [reflexivity | exact Hto].
Qed.

Lemma parse_elements_split fuel pv :
  value_balanced pv ->
  forall s acc v rest,
    parse_elements fuel pv s acc = Some (v, rest) ->
    is_container v = true
    /\ exists c, is_closer c = true /\ balanced_reach s (c :: rest).
Proof.
  intros Hpv. induction fuel as [|fuel IH]; intros s acc v rest H; [discriminate|].
  cbn [parse_elements] in H.
  destruct (pv s) as [[v1 r]|] eqn:E1; [|discriminate].
  destruct (skip_ws r) as [|d r'] eqn:E2; [discriminate|].
  assert (Hto : balanced_reach s (d :: r')).
  { apply (balanced_reach_trans _ r); [apply (Hpv _ _ _ E1)|].
    apply (balanced_reach_skipped _ _ E2). }
  destruct (N.eqb_spec d comma) as [->|_].
  - destruct (IH _ _ _ _ H) as (Hv & c & Hc & Hr). split; [exact Hv|].
    exists c. split; [exact Hc|].
    apply (balanced_reach_trans _ _ _ Hto).
    apply balanced_reach_cons; [apply comma_plain | exact Hr].
  - destruct (N.eqb_spec d rbracket) as [->|_]; [|discriminate].
    injection H as <- <-. split; [reflexivity|].
    exists rbracket. split; [reflexivity | exact Hto].
Qed.

Lemma literal_reach lit s :
  forallb plain_char lit = true -> starts_with lit s = true ->
  plain_reach s (drop (length lit) s).
Proof.
  intros Hp Hs. exists lit. split; [apply starts_with_split, Hs | exact Hp].
Qed.

(** What [parse_value] consumes is balanced; for an object or an array it
    is bracketed. *)
Lemma parse_value_split fuel :
  forall s v rest,
    parse_value fuel s = Some (v, rest) ->
    balanced_reach s rest /\ (is_container v = true -> bracketed s rest).
Proof.
  induction fuel as [|fuel IH]; intros s v rest H; [discriminate|].
  assert (Hpv : value_balanced (parse_value fuel)).
  { intros s0 v0 rest0 H0. apply (IH _ _ _ H0). }
  cbn [parse_value] in H.
  destruct (skip_ws s) as [|c r] eqn:E0; [discriminate|].
  assert (Hbr : forall c0, is_opener c = true -> is_closer c0 = true ->
            balanced_reach r (c0 :: rest) ->
            balanced_reach s rest /\ (is_container v = true -> bracketed s rest)).
  { intros c0 Ho Hc Hr.
    pose proof (bracketed_skipped s c r c0 rest E0 Ho Hc Hr) as Hb.
    split; [apply bracketed_reach, Hb | intros _; exact Hb]. }
  destruct (N.eqb_spec c lbrace) as [->|_].
  { destruct (skip_ws r) as [|d r'] eqn:E1; [discriminate|].
    destruct (N.eqb_spec d rbrace) as [->|_].
    - injection H as <- <-. apply (Hbr rbrace); [reflexivity | reflexivity|].
      apply (balanced_reach_skipped _ _ E1).
    - destruct (parse_members_split fuel _ Hpv _ _ _ _ H) as (_ & c0 & Hc & Hr).
      apply (Hbr c0); [reflexivity | exact Hc | exact Hr]. }
  destruct (N.eqb_spec c lbracket) as [->|_].
  { destruct (skip_ws r) as [|d r'] eqn:E1; [discriminate|].
    destruct (N.eqb_spec d rbracket) as [->|_].
    - injection H as <- <-. apply (Hbr rbracket); [reflexivity | reflexivity|].
      apply (balanced_reach_skipped _ _ E1).
    - destruct (parse_elements_split fuel _ Hpv _ _ _ _ H) as (_ & c0 & Hc & Hr).
      apply (Hbr c0); [reflexivity | exact Hc | exact Hr]. }
  assert (Hscalar : is_container v = false -> balanced_reach (c :: r) rest ->
            balanced_reach s rest /\ (is_container v = true -> bracketed s rest)).
  { intros Hv Hr. split; [|rewrite Hv; discriminate].
    apply (balanced_reach_trans _ _ _ (balanced_reach_skipped _ _ E0) Hr). }
  destruct (N.eqb_spec c dquote) as [->|_].
  { destruct (parse_chars r []) as [[str r']|] eqn:E1; [|discriminate].
    injection H as <- <-. apply Hscalar; [reflexivity|].
    apply (balanced_reach_string _ _ _ _ E1). }
  destruct (starts_with (js "true") (c :: r)) eqn:Et.
  { injection H as <- <-. apply Hscalar; [reflexivity|].
    apply balanced_reach_plain. apply (literal_reach (js "true") (c :: r) eq_refl Et). }
  destruct (starts_with (js "false") (c :: r)) eqn:Ef.
  { injection H as <- <-. apply Hscalar; [reflexivity|].
    apply balanced_reach_plain. apply (literal_reach (js "false") (c :: r) eq_refl Ef). }
  destruct (starts_with (js "null") (c :: r)) eqn:En.
  { injection H as <- <-. apply Hscalar; [reflexivity|].
    apply balanced_reach_plain. apply (literal_reach (js "null") (c :: r) eq_refl En). }
  destruct (parse_number (c :: r)) as [[x r']|] eqn:Ex; [|discriminate].
  injection H as <- <-. apply Hscalar; [reflexivity|].
  apply balanced_reach_plain, (parse_number_reach _ _ _ Ex).
Qed.

End ScanOfJson.

(** ** What [JSON.parse] accepts, under the bracket scans *)

Section ParsedTexts.

Lemma json_ws_space c : is_json_ws c = true -> is_space c = true.
Proof.
  unfold is_json_ws, is_space. intros H.
  repeat (apply orb_prop in H as [H|H]); apply N.eqb_eq in H; subst c; reflexivity.
Qed.

Lemma json_ws_spaces w : forallb is_json_ws w = true -> forallb is_space w = true.
Proof.
  induction w as [|c w IH]; [reflexivity|]. cbn [forallb].
  intros [Hc Hw]%andb_prop. rewrite (json_ws_space c Hc). apply IH, Hw.
Qed.

Lemma opener_not_space o : is_opener o = true -> is_space o = false.
Proof.
  unfold is_opener, lbrace, lbracket. intros H.
  apply orb_prop in H as [H|H]; apply N.eqb_eq in H; subst o; reflexivity.
Qed.

Lemma closer_not_opener c : is_closer c = true -> is_opener c = false.
Proof.
  unfold is_closer, is_opener, rbrace, rbracket, lbrace, lbracket. intros H.
  apply orb_prop in H as [H|H]; apply N.eqb_eq in H; subst c; reflexivity.
Qed.

Lemma trimStart_spaces a x : forallb is_space a = true -> trimStart (a ++ x) = trimStart x.
Proof.
  induction a as [|c a IH]; [reflexivity|]. cbn [forallb app trimStart].
  intros [Hc Ha]%andb_prop. rewrite Hc. apply IH, Ha.
Qed.

Lemma trimEnd_spaces x b : forallb is_space b = true -> trimEnd (x ++ b) = trimEnd x.
Proof.
  intros Hb. unfold trimEnd. rewrite rev_app_distr, trimStart_spaces; [reflexivity|].
  rewrite forallb_rev. exact Hb.
Qed.

(** Trimming a text that white space surrounds. *)
Lemma padded_trim a core b h l :
  forallb is_space a = true -> forallb is_space b = true ->
  head core = Some h -> is_space h = false ->
  last core = Some l -> is_space l = false ->
  trim (a ++ core ++ b) = core /\ trimEnd (a ++ core ++ b) = a ++ core.
Proof.
  intros Ha Hb Hh Hhs Hl Hls. split.
  - unfold trim. rewrite (trimStart_spaces a _ Ha).
    rewrite (trimStart_clean (core ++ b) h); [| |exact Hhs].
    + rewrite (trimEnd_spaces _ _ Hb). apply (trimEnd_clean core l Hl Hls).
    + destruct core; [discriminate | exact Hh].
  - rewrite app_assoc, (trimEnd_spaces _ _ Hb).
    apply (trimEnd_clean _ l); [|exact Hls].
    destruct core as [|x core] using rev_ind; [discriminate|].
    rewrite last_snoc in Hl. rewrite app_assoc, last_snoc. exact Hl.
Qed.

(** The text of an object or an array, as [JSON.parse] accepts it: white
    space, an opener, a balanced text, a closer, white space. *)
Lemma JSON_parse_container s v :
  JSON_parse s = Some v -> is_container v = true ->
  exists w o mid c rest,
    s = w ++ (o :: mid ++ [c]) ++ rest
    /\ forallb is_json_ws w = true /\ forallb is_json_ws rest = true
    /\ is_opener o = true /\ is_closer c = true /\ balanced mid.
Proof.
  unfold JSON_parse. intros H Hv.
  destruct (parse_value (S (length s)) s) as [[v' rest]|] eqn:E; [|discriminate].
  destruct (skip_ws rest) eqn:Er; [|discriminate]. injection H as ->.
  destruct (parse_value_split _ _ _ _ E) as [_ Hb].
  destruct (Hb Hv) as (w & o & mid & c & -> & Hw & Ho & Hc & Hm).
  destruct (skip_ws_split rest) as (w' & Hrest & Hw'). rewrite Er, app_nil_r in Hrest.
  subst w'. exists w, o, mid, c, rest. split; [|auto 6].
  cbn [app]. rewrite <- app_assoc. reflexivity.
Qed.

Lemma container_ends o mid c :
  is_opener o = true -> is_closer c = true ->
  head (o :: mid ++ [c]) = Some o /\ is_space o = false
  /\ last (o :: mid ++ [c]) = Some c /\ is_space c = false.
Proof.
  intros Ho Hc. split; [reflexivity|]. split; [apply opener_not_space, Ho|].
  split; [|apply (closer_chars c Hc)].
  change (o :: mid ++ [c]) with ((o :: mid) ++ [c]). apply last_snoc.
Qed.

(** Where the scan of a bracketed text returns to depth zero for the last
    time, when no closer follows it. *)
Lemma closes_rel_bracketed w o mid c post :
  balanced w -> is_opener o = true -> is_closer c = true -> balanced mid ->
  forallb (fun x => negb (is_closer x)) post = true ->
  let cs := w ++ (o :: mid ++ [c]) ++ post in
  let k := (length w + S (length mid))%nat in
  closes_rel scan0 cs k = true
  /\ forall j, (k < j)%nat -> closes_rel scan0 cs j = false.
Proof.
  intros Hw Ho Hc Hm Hpost cs k.
  assert (Ecs : cs = (w ++ o :: mid) ++ c :: post).
  { unfold cs. rewrite <- !app_assoc. cbn [app]. rewrite <- app_assoc. reflexivity. }
  assert (Ek : k = length (w ++ o :: mid)).
  { unfold k. rewrite length_app. reflexivity. }
  split.
  - unfold closes_rel, scan_before. rewrite Ecs, Ek.
    rewrite list_lookup_middle by reflexivity.
    rewrite take_app_length.
    rewrite fold_left_app. change scan0 with (outside 0). rewrite Hw.
    cbn [fold_left]. rewrite (opener_scan o 0 Ho), Hm.
    cbn [outside inStr depth negb andb]. rewrite Hc. reflexivity.
  - intros j Hj. unfold closes_rel. rewrite Ecs.
    rewrite lookup_app_r by lia. rewrite <- Ek.
    destruct (j - k)%nat as [|n] eqn:En; [lia|]. cbn [lookup list_lookup].
    destruct (post !! n) as [x|] eqn:Ex; [|reflexivity].
    assert (Hx : is_closer x = false).
    { rewrite forallb_forall in Hpost. apply negb_true_iff, Hpost.
      apply list_elem_of_In. eapply list_elem_of_lookup_2, Ex. }
    rewrite Hx, andb_false_r. reflexivity.
Qed.

(** The last balanced end, from the place where it closes. *)
Lemma last_balanced_end s start e :
  closes_at s start e = true ->
  (forall j, (e < j)%nat -> closes_at s start j = false) ->
  findLastBalancedJsonEnd s start = Some e.
Proof.
  intros He Hlater. pose proof (findLastBalancedJsonEnd_spec s start) as H.
  destruct (findLastBalancedJsonEnd s start) as [e'|].
  - destruct H as [He' Hlater']. f_equal.
    destruct (lt_eq_lt_dec e e') as [[Hlt|Heq]|Hgt]; [|exact (eq_sym Heq)|].
    + rewrite (Hlater e' Hlt) in He'. discriminate.
    + rewrite (Hlater' e Hgt) in He. discriminate.
  - rewrite (H e) in He. discriminate.
Qed.

Lemma spaces_no_closer w :
  forallb is_space w = true -> forallb (fun x => negb (is_closer x)) w = true.
Proof.
  induction w as [|c w IH]; [reflexivity|]. cbn [forallb].
  intros [Hc Hw]%andb_prop. rewrite (IH Hw), andb_true_r.
  destruct (is_closer c) eqn:E; [|reflexivity].
  destruct (closer_chars c E) as [Hs _]. congruence.
Qed.

Lemma starts_with_app p t x : starts_with p t = true -> starts_with p (t ++ x) = true.
Proof.
  revert t. induction p as [|a p IH]; intros t; [reflexivity|].
  destruct t as [|b t]; [discriminate|]. cbn [starts_with app].
  intros [-> H]%andb_prop. apply IH, H.
Qed.

Lemma fence_cut x : extends_none fence x [].
Proof.
  intros t _. unfold fence. rewrite app_nil_r.
  destruct (starts_with (js "```") t) eqn:E; [|reflexivity].
  rewrite (starts_with_app _ t x E). discriminate.
Qed.

Lemma never_matches_infix m a s b :
  extends_none m b [] ->
  never_matches m (a ++ s ++ b) = true -> never_matches m s = true.
Proof.
  intros Hm H. apply never_matches_app_r in H.
  rewrite <- (app_nil_r s). apply (never_matches_swap_tail m s b [] Hm H eq_refl).
Qed.

(** A part of a text no repair applies to, itself without surrounding white
    space: no repair applies to it. *)
Lemma repair_free_infix a s b :
  repair_free (a ++ s ++ b) = true -> trim s = s -> repair_free s = true.
Proof.
  intros H Hs. destruct (repair_free_parts _ H) as (_ & Hf & Hq & Hb & Hk & Ht).
  unfold repair_free. rewrite bool_decide_eq_true_2 by exact Hs.
  rewrite (never_matches_infix fence a s b (fence_cut b) Hf).
  rewrite (never_matches_infix _ a s b (missing_comma_extends _ _ b [] eq_refl) Hb).
  rewrite (never_matches_infix _ a s b (missing_comma_extends _ _ b [] eq_refl) Hk).
  rewrite (never_matches_infix _ a s b (trailing_comma_extends b [] eq_refl) Ht).
  rewrite !forallb_app in Hq. apply andb_prop in Hq as [_ Hq].
  apply andb_prop in Hq as [Hq _]. rewrite Hq. reflexivity.
Qed.

(** The first opener of a text: where the candidate starts. *)
Lemma candidate_start_first a o r :
  forallb (fun x => negb (is_opener x)) a = true -> is_opener o = true ->
  candidate_start (a ++ o :: r) = Z.of_nat (length a).
Proof.
  intros Ha Ho.
  assert (Hat : (a ++ o :: r) !! length a = Some o) by (apply list_lookup_middle; reflexivity).
  destruct (candidate_start_spec (a ++ o :: r)) as [[_ Hnone]|(start & c & -> & Hc & Hoc & Hbefore)].
  - rewrite (Hnone _ _ Hat) in Ho. discriminate.
  - f_equal. destruct (lt_eq_lt_dec start (length a)) as [[Hlt|Heq]|Hgt]; [|exact Heq|].
    + rewrite lookup_app_l in Hc by exact Hlt.
      rewrite forallb_forall in Ha.
      assert (Hin : In c a) by (apply list_elem_of_In; eapply list_elem_of_lookup_2, Hc).
      apply Ha, negb_true_iff in Hin. congruence.
    + rewrite (Hbefore _ _ Hgt Hat) in Ho. discriminate.
Qed.

(** The second attempt of [safeParseJson] succeeds. *)
Lemma safeParseJson_second text start e v :
  repair_free text = true -> text <> [] -> JSON_parse text = None ->
  candidate_start text = Z.of_nat start ->
  findLastBalancedJsonEnd text start = Some e ->
  JSON_parse (repairJsonCommon (slice text start (e + 1))) = Some v ->
  safeParseJson text = Return v.
Proof.
  intros Hfree Hne Hfirst Hstart Hend Hsecond.
  destruct (repair_free_parts _ Hfree) as (Htrim & _).
  unfold safeParseJson. rewrite Htrim, (repair_free_fixed _ Hfree), Hfirst, Hstart.
  destruct text as [|x tl]; [contradiction|].
  destruct (Z.ltb_spec (Z.of_nat start) 0) as [Hneg|_]; [lia|].
  rewrite Nat2Z.id, Hend, Hsecond. reflexivity.
Qed.

End ParsedTexts.

(** X21. A text that [JSON.parse] accepts as an object or an array is never
    classified as truncated, and the bracket scan from its first character
    ends on its last character that is not white space: the heuristics
    agree with the parser on every valid text. *)
Theorem valid_json_is_balanced (s : jsstr) (v : jsval) :
  JSON_parse s = Some v -> is_container v = true ->
  looksTruncatedJson s = false
  /\ findLastBalancedJsonEnd s 0 = Some (length (trimEnd s) - 1)%nat.
Proof.
  intros Hparse Hv.
  destruct (JSON_parse_container s v Hparse Hv)
    as (w & o & mid & c & rest & -> & Hw & Hrest & Ho & Hc & Hm).
  destruct (container_ends o mid c Ho Hc) as (Hh & Hhs & Hl & Hls).
  destruct (padded_trim w (o :: mid ++ [c]) rest o c
              (json_ws_spaces _ Hw) (json_ws_spaces _ Hrest) Hh Hhs Hl Hls)
    as [Htrim HtrimEnd].
  split.
  - unfold looksTruncatedJson. rewrite Htrim.
    rewrite (closer_at_end_last _ c Hl Hls), Hc.
    change scan0 with (outside 0).
    rewrite (container_balanced o mid c Ho Hc Hm 0). reflexivity.
  - rewrite HtrimEnd.
    destruct (closes_rel_bracketed w o mid c rest (json_ws_balanced _ Hw) Ho Hc Hm
                (spaces_no_closer _ (json_ws_spaces _ Hrest))) as [Hat Hlater].
    assert (Elen : (length (w ++ o :: mid ++ [c]) - 1 = length w + S (length mid))%nat).
    { rewrite length_app. cbn [length]. rewrite length_app. cbn [length]. lia. }
    rewrite Elen. apply last_balanced_end.
    + unfold closes_at. rewrite drop_0, Nat.sub_0_r. exact Hat.
    + intros j Hj. unfold closes_at. rewrite drop_0, Nat.sub_0_r.
      rewrite (Hlater j Hj). apply andb_false_r.
Qed.

(** The reply [{'a': [1, 2]}] followed by a line feed. *)
Lemma valid_json_is_balanced_witness :
  looksTruncatedJson (jsq "{'a': [1, 2]}" ++ [newline]) = false
  /\ findLastBalancedJsonEnd (jsq "{'a': [1, 2]}" ++ [newline]) 0 = Some 12%nat.
Proof.
  exact (valid_json_is_balanced (jsq "{'a': [1, 2]}" ++ [newline])
           (JObj [(js "a", JArr [JNum 1%float; JNum 2%float])]) eq_refl eq_refl).
Defined.

(** X22. A reply that wraps one valid JSON object or array in prose is
    recovered: when no repair applies to the reply, the prose before the
    value has no brace or bracket and the prose after it has no closing one,
    [safeParseJson] returns the value that [JSON.parse] gives for the
    wrapped text alone. *)
Theorem safeParseJson_recovers_wrapped_json
    (before s after : jsstr) (v : jsval) :
  repair_free (before ++ s ++ after) = true ->
  JSON_parse (before ++ s ++ after) = None ->
  forallb (fun c => negb (is_opener c)) before = true ->
  forallb (fun c => negb (is_closer c)) after = true ->
  trim s = s -> JSON_parse s = Some v -> is_container v = true ->
  safeParseJson (before ++ s ++ after) = Return v.
Proof.
  intros Hfree Hfirst Hbefore Hafter Htrim Hparse Hv.
  pose proof (repair_free_infix before s after Hfree Htrim) as Hs.
  destruct (JSON_parse_container s v Hparse Hv)
    as (w & o & mid & c & rest & Es & Hw & Hrest & Ho & Hc & Hm).
  destruct (container_ends o mid c Ho Hc) as (Hh & Hhs & Hl & Hls).
  destruct (padded_trim w (o :: mid ++ [c]) rest o c
              (json_ws_spaces _ Hw) (json_ws_spaces _ Hrest) Hh Hhs Hl Hls)
    as [Hcore _].
  rewrite <- Es, Htrim in Hcore. clear Es w rest Hw Hrest.
  set (text := before ++ s ++ after) in *.
  set (start := length before).
  set (e := (start + S (length mid))%nat).
  assert (Edrop : drop start text = [] ++ (o :: mid ++ [c]) ++ after).
  { unfold text, start. rewrite drop_app_length, Hcore. reflexivity. }
  destruct (closes_rel_bracketed [] o mid c after balanced_nil Ho Hc Hm Hafter)
    as [Hat Hlater]. cbn [length Nat.add] in Hat, Hlater.
  apply (safeParseJson_second text start e v Hfree).
  - unfold text. rewrite Hcore. destruct before; discriminate.
  - exact Hfirst.
  - unfold text. rewrite Hcore. cbn [app]. apply (candidate_start_first _ _ _ Hbefore Ho).
  - apply last_balanced_end.
    + unfold closes_at. rewrite Edrop.
      replace (e - start)%nat with (S (length mid)) by (unfold e; lia).
      rewrite Hat, andb_true_r. apply Nat.leb_le. unfold e. lia.
    + intros j Hj. unfold closes_at. rewrite Edrop.
      rewrite (Hlater (j - start)%nat) by (unfold e in Hj; lia). apply andb_false_r.
  - unfold slice. rewrite Edrop, app_nil_l.
    replace (e + 1 - start)%nat with (length (o :: mid ++ [c]))
      by (cbn [length]; rewrite length_app; cbn [length]; unfold e; lia).
    rewrite take_app_length. rewrite <- Hcore, (repair_free_fixed _ Hs). exact Hparse.
Qed.

(** The reply [Sure: {'a': [1, 2]} -- done] holds the object
    [{'a': [1, 2]}]. *)
Lemma safeParseJson_recovers_wrapped_json_witness :
  safeParseJson (jsq "Sure: {'a': [1, 2]} -- done")
  = Return (JObj [(js "a", JArr [JNum 1%float; JNum 2%float])]).
Proof.
  exact (safeParseJson_recovers_wrapped_json
           (js "Sure: ") (jsq "{'a': [1, 2]}") (js " -- done")
           (JObj [(js "a", JArr [JNum 1%float; JNum 2%float])])
           eq_refl eq_refl eq_refl eq_refl eq_refl eq_refl eq_refl).
Defined.
